(** * Sum-product message passing on discrete factor graphs

    A shallow embedding of the belief-propagation notebook
    (04_exact_inference): labelled probability tables ([Distribution],
    [multiply]), the factorization parser, the graph container [PGM] and the
    memoising engine [Messages].

    Conventions of the embedding.
    - numpy arrays are values: a shape and the row-major list of entries.
      Every numpy call of the notebook ([*], [reshape], [np.sum], [np.prod],
      [np.squeeze], [/]) returns a new array and none writes in place, so no
      array is ever observed through two names after a change.
    - float64 entries are idealised as exact rationals.  The one operation
      that leaves the finite numbers is the division of [marginal]; its IEEE
      result on a zero divisor (nan, inf) is kept explicit in [float64].
    - Python exceptions are values of [exn]; a call that raises keeps the
      side effects it made before raising.
    - Python's bounded call stack is the [fuel] of the recursive message
      functions: exhausting it is [RecursionError]. *)

From Stdlib Require Import Ascii String QArith Qabs.
From stdpp Require Import gmap strings list fin_maps.

Open Scope string_scope.
Open Scope list_scope.

(** ** Exceptions and results *)

Inductive exn : Type :=
  | KeyError        (* dict lookup of an absent key *)
  | ValueError      (* reshape / ragged array / unpacking / raise ValueError *)
  | IndexError      (* sequence index out of range *)
  | AxisError       (* numpy: axis out of bounds for the array *)
  | AssertionError  (* a failed assert *)
  | AttributeError  (* attribute access on None *)
  | StopIteration   (* next() on an exhausted iterator *)
  | RecursionError  (* maximum recursion depth exceeded *)
  | DanglingRef.    (* a node reference outside the store: no Python
                       counterpart, object references cannot dangle *)

Inductive result (A : Type) : Type :=
  | Ok (a : A)
  | Raise (e : exn).
Arguments Ok {A} a.
Arguments Raise {A} e.

Definition is_ok {A} (r : result A) : bool :=
  match r with Ok _ => true | Raise _ => false end.

Definition rbind {A B} (r : result A) (k : A → result B) : result B :=
  match r with Ok a => k a | Raise e => Raise e end.

Definition of_option {A} (o : option A) (e : exn) : result A :=
  match o with Some a => Ok a | None => Raise e end.

Declare Scope result_scope.
Delimit Scope result_scope with res.
Notation "'let?' x ':=' c 'in' k" := (rbind c (fun x => k))
  (at level 10, x name, c at level 100, k at level 200) : result_scope.
Open Scope result_scope.

(** ** Insertion-ordered dictionaries

    A Python [dict] whose iteration order is observed ([next(iter(d))],
    [d.values()]) is an association list in insertion order: assigning to a
    key that is present replaces the value in place, a new key goes last. *)

Section PyDict.
Context {V : Type}.

Fixpoint dict_get (d : list (string * V)) (k : string) : option V :=
  match d with
  | [] => None
  | (k', v) :: d' => if String.eqb k' k then Some v else dict_get d' k
  end.

Fixpoint dict_set (d : list (string * V)) (k : string) (v : V)
  : list (string * V) :=
  match d with
  | [] => [(k, v)]
  | (k', v') :: d' =>
      if String.eqb k' k then (k', v) :: d' else (k', v') :: dict_set d' k v
  end.

Definition dict_mem (d : list (string * V)) (k : string) : bool :=
  match dict_get d k with Some _ => true | None => false end.
End PyDict.

(** ** numpy arrays *)

Record ndarray (A : Type) : Type := mk_ndarray {
  shape : list nat;
  data : list A
}.
Arguments mk_ndarray {A} shape data.
Arguments shape {A} n.
Arguments data {A} n.

(** The value of a float64 after a division: finite, or one of the IEEE
    special values a zero divisor produces. *)
Inductive float64 : Type :=
  | Finite (q : Q)
  | PosInf
  | NegInf
  | NaN.

(** [arr.size]: the product of the dimensions. *)
Definition np_size (s : list nat) : nat := foldr Nat.mul 1%nat s.

(** Row-major position of a multi-index, and back. *)
Fixpoint ravel (s idx : list nat) (acc : nat) : nat :=
  match s, idx with
  | n :: s', i :: idx' => ravel s' idx' (acc * n + i)
  | _, _ => acc
  end.

Fixpoint unravel_rev (rs : list nat) (k : nat) : list nat :=
  match rs with
  | [] => []
  | n :: rs' => (k mod n)%nat :: unravel_rev rs' (k / n)%nat
  end.

Definition unravel (s : list nat) (k : nat) : list nat :=
  reverse (unravel_rev (reverse s) k).

(** numpy broadcasting of two shapes, aligned on the last dimension. *)
Fixpoint broadcast_rev (rs rt : list nat) : option (list nat) :=
  match rs, rt with
  | [], _ => Some rt
  | _, [] => Some rs
  | a :: rs', b :: rt' =>
      match broadcast_rev rs' rt' with
      | None => None
      | Some r =>
          if (a =? b)%nat then Some (a :: r)
          else if (a =? 1)%nat then Some (b :: r)
          else if (b =? 1)%nat then Some (a :: r)
          else None
      end
  end.

Definition broadcast_shapes (s t : list nat) : option (list nat) :=
  reverse <$> broadcast_rev (reverse s) (reverse t).

(** Entry of an operand of shape [s] at position [idx] of the broadcast
    result: the trailing [length s] coordinates, a dimension of size 1 read
    at 0. *)
Definition bcast_index (s idx : list nat) : nat :=
  let idx' := drop (length idx - length s) idx in
  ravel s (zip_with (fun n i => if (n =? 1)%nat then 0%nat else i) s idx') 0.

(** [a * b] on arrays. *)
Definition np_multiply (a b : ndarray Q) : result (ndarray Q) :=
  match broadcast_shapes (shape a) (shape b) with
  | None => Raise ValueError
  | Some o =>
      Ok (mk_ndarray o
            (map (fun k =>
                    let idx := unravel o k in
                    (nth (bcast_index (shape a) idx) (data a) 0 *
                     nth (bcast_index (shape b) idx) (data b) 0)%Q)
                 (seq 0 (np_size o))))
  end.

(** [arr.reshape(dims)]. *)
Definition np_reshape (a : ndarray Q) (dims : list nat) : result (ndarray Q) :=
  if (np_size (shape a) =? np_size dims)%nat
  then Ok (mk_ndarray dims (data a))
  else Raise ValueError.

(** [np.sum(arr, axis=k)] for one axis. *)
Definition sum_axis (k : nat) (a : ndarray Q) : result (ndarray Q) :=
  match shape a !! k with
  | None => Raise AxisError
  | Some n =>
      let pre := take k (shape a) in
      let post := drop (S k) (shape a) in
      let inner := np_size post in
      Ok (mk_ndarray (pre ++ post)
            (flat_map (fun o =>
               map (fun i =>
                      foldr Qplus 0%Q
                        (map (fun j => nth ((o * n + j) * inner + i) (data a) 0%Q)
                             (seq 0 n)))
                   (seq 0 inner))
               (seq 0 (np_size pre))))
  end.

(** [np.sum(arr, axis=axes)] for a tuple of distinct axes in increasing
    order (what [get_other_axes_from] produces): the highest axis is reduced
    first, so the remaining positions stay valid.  The empty tuple leaves
    the array as it is. *)
Definition np_sum (a : ndarray Q) (axes : list nat) : result (ndarray Q) :=
  foldr (fun k acc => rbind acc (sum_axis k)) (Ok a) axes.

(** [np.squeeze]: drop the dimensions of size 1. *)
Definition np_squeeze (a : ndarray Q) : ndarray Q :=
  mk_ndarray (filter (fun n => n ≠ 1%nat) (shape a)) (data a).

(** [np.sum(arr)]: the grand total. *)
Definition np_sum_all (a : ndarray Q) : Q := foldr Qplus 0%Q (data a).

Definition same_shape (s : list nat) (a : ndarray Q) : bool :=
  bool_decide (shape a = s).

(** [np.prod(list_of_arrays, axis=0)]: the list is first turned into one
    array, which needs all members of one shape (numpy raises ValueError on
    a ragged list); the product of no array is the scalar 1.0. *)
Definition np_prod (l : list (ndarray Q)) : result (ndarray Q) :=
  match l with
  | [] => Ok (mk_ndarray [] [1%Q])
  | a :: l' =>
      if forallb (same_shape (shape a)) l'
      then Ok (mk_ndarray (shape a)
                 (fold_left (fun acc b => zip_with Qmult acc (data b)) l' (data a)))
      else Raise ValueError
  end.

(** One float64 division, of exact values: a zero divisor gives nan for a
    zero dividend and an infinity of the dividend's sign otherwise (the
    divisor is taken as +0.0; rounding and signed zeros are not
    modelled). *)
Definition float_div (x s : Q) : float64 :=
  if Qeq_bool s 0 then
    (if Qeq_bool x 0 then NaN
     else if Qle_bool 0 x then PosInf else NegInf)
  else Finite (x / s).

(** [arr / scalar]. *)
Definition np_true_divide (a : ndarray Q) (s : Q) : ndarray float64 :=
  mk_ndarray (shape a) (map (fun x => float_div x s) (data a)).

(** ** Labelled tensors *)

Record Distribution : Type := mk_Distribution {
  probs : ndarray Q;
  axes_labels : list string
}.

(** [{name: axis for axis, name in enumerate(self.axes_labels)}] *)
Definition get_axes (d : Distribution) : list (string * nat) :=
  fold_left (fun acc '(axis, name) => dict_set acc name axis)
            (imap (fun axis name => (axis, name)) (axes_labels d)) [].

(** [tuple(axis for axis, name in enumerate(self.axes_labels) if name != axis_label)] *)
Definition get_other_axes_from (d : Distribution) (axis_label : string)
  : list nat :=
  omap (fun '(axis, name) =>
          if String.eqb name axis_label then None else Some axis)
       (imap (fun axis name => (axis, name)) (axes_labels d)).

(** [np.isclose(x, 1.0)] with numpy's default tolerances, rtol = 1e-05
    and atol = 1e-08, on exact values: [|x - 1.0| <= atol + rtol * |1.0|]. *)
Definition isclose_one (x : Q) : bool :=
  Qle_bool (Qabs (x - 1)) ((1 # 100000000) + (1 # 100000) * Qabs 1).

(** [np.all(np.isclose(np.sum(self.probs, axis=self.get_axes()[variable_name]), 1.0))] *)
Definition is_valid_conditional (self : Distribution) (variable_name : string)
  : result bool :=
  let? axis := of_option (dict_get (get_axes self) variable_name) KeyError in
  let? sums := sum_axis axis (probs self) in
  Ok (forallb isclose_one (data sums)).

(** [np.all(np.isclose(np.sum(self.probs), 1.0))] *)
Definition is_valid_joint (self : Distribution) : bool :=
  isclose_one (np_sum_all (probs self)).

(** [multiply(p_v_given_h, p_hi)] *)
Definition multiply (p_v_given_h p_hi : Distribution) : result Distribution :=
  let? hi := of_option (head (map fst (get_axes p_hi))) StopIteration in
  let? axis := of_option (dict_get (get_axes p_v_given_h) hi) KeyError in
  let sh := shape (probs p_v_given_h) in
  let? n := of_option (sh !! axis) IndexError in
  let dims := <[axis := n]> (map (fun _ => 1%nat) sh) in
  let? reshaped_p_hi :=
    (if bool_decide (shape (probs p_hi) ≠ [])
     then np_reshape (probs p_hi) dims
     else Ok (probs p_hi)) in
  let? prod := np_multiply (probs p_v_given_h) reshaped_p_hi in
  Ok (mk_Distribution prod (axes_labels p_v_given_h)).

(** The first product printed by the notebook:
    p(v1|h1) * p(h1) = [[0.24 0.24 0.09] [0.36 0.06 0.01]]. *)
Definition p_v1_given_h1_demo : Distribution :=
  mk_Distribution
    (mk_ndarray [2; 3]%nat [4#10; 8#10; 9#10; 6#10; 2#10; 1#10]%Q)
    ["v1"; "h1"].
Definition p_h1_demo : Distribution :=
  mk_Distribution (mk_ndarray [3]%nat [6#10; 3#10; 1#10]%Q) ["h1"].

(** ** Factor graphs

    Nodes hold references to their neighbours.  A reference is the position
    of the node in the graph's store: a Variable is referenced by its
    position in the [variables] dict (insertion order), a Factor by its
    position in the [factors] list.  [add_neighbor]'s assertion
    ([is_valid_neighbor], an [isinstance] test) is the typing of the two
    kinds of reference. *)

Record Node : Type := mk_Node {
  name : string;
  neighbors : list nat
}.

(** [class Variable(Node)] ([Variable] is a reserved word here). *)
Definition VariableNode : Type := Node.

Record Factor : Type := mk_Factor {
  f_node :> Node;
  f_data : option Distribution   (* [self.data], [None] until bound *)
}.

Definition new_Variable (nm : string) : VariableNode := mk_Node nm [].
Definition new_Factor (nm : string) : Factor := mk_Factor (mk_Node nm []) None.

Definition add_neighbor (self : Node) (neighbor : nat) : Node :=
  mk_Node (name self) (neighbors self ++ [neighbor]).

Definition factor_add_neighbor (self : Factor) (neighbor : nat) : Factor :=
  mk_Factor (add_neighbor self neighbor) (f_data self).

(** ** The factorization parser *)

Record ParsedTerm : Type := mk_ParsedTerm {
  term : string;
  var_name : list string;
  given : list string
}.

(** [s.split(sep)] for a one-character separator. *)
Fixpoint split (sep : ascii) (s : string) : list string :=
  match s with
  | EmptyString => [EmptyString]
  | String c s' =>
      if Ascii.eqb c sep then EmptyString :: split sep s'
      else match split sep s' with
           | [] => [String c EmptyString]
           | w :: ws => String c w :: ws
           end
  end.

(** [c in s] *)
Fixpoint contains (c : ascii) (s : string) : bool :=
  match s with
  | EmptyString => false
  | String c' s' => Ascii.eqb c' c || contains c s'
  end.

(** [s[-1]] and [s[:-1]] *)
Fixpoint str_last (s : string) : option ascii :=
  match s with
  | EmptyString => None
  | String c EmptyString => Some c
  | String _ s' => str_last s'
  end.

Fixpoint str_init (s : string) : string :=
  match s with
  | EmptyString => EmptyString
  | String c EmptyString => EmptyString
  | String c s' => String c (str_init s')
  end.

Definition _parse_term (t : string) : result (list string * list string) :=
  match t with
  | EmptyString => Raise IndexError
  | String c0 rest =>
      if Ascii.eqb c0 "("%char && bool_decide (str_last t = Some ")"%char)
      then
        let term_variables := str_init rest in
        if contains "|"%char term_variables then
          match split "|"%char term_variables with
          | [var; giv] => Ok (split ","%char var, split ","%char giv)
          | _ => Raise ValueError
          end
        else Ok (split ","%char term_variables, [])
      else Raise AssertionError
  end.

(** A list comprehension whose body may raise: the first exception ends it. *)
Fixpoint map_result {A B} (f : A → result B) (l : list A) : result (list B) :=
  match l with
  | [] => Ok []
  | a :: l' =>
      let? b := f a in
      let? bs := map_result f l' in
      Ok (b :: bs)
  end.

Fixpoint fold_result {A B} (f : A → B → result A) (l : list B) (a : A) : result A :=
  match l with
  | [] => Ok a
  | b :: l' => let? a' := f a b in fold_result f l' a'
  end.

Definition nonempty (s : string) : bool :=
  match s with EmptyString => false | _ => true end.

Definition _parse_model_string_into_terms (model_string : string)
  : result (list ParsedTerm) :=
  map_result (fun t =>
          let? vg := _parse_term t in
          Ok (mk_ParsedTerm (String "p"%char t) (fst vg) (snd vg)))
       (List.filter nonempty (split "p"%char model_string)).

(** [variables[var_name]]: the variable stored under that key; a variable's
    key is its name. *)
Fixpoint variable_index (variables : list VariableNode) (nm : string)
  : option nat :=
  match variables with
  | [] => None
  | v :: vs =>
      if String.eqb (name v) nm then Some 0%nat
      else S <$> variable_index vs nm
  end.

(** First loop: a new Variable for each name of a [var_name] list that the
    dict does not hold yet. *)
Definition declare_variables (variables : list VariableNode) (pt : ParsedTerm)
  : list VariableNode :=
  fold_left (fun vars t =>
               match variable_index vars t with
               | Some _ => vars
               | None => vars ++ [new_Variable t]
               end)
            (var_name pt) variables.

(** Body of the inner loop of the second pass: link [new_factor], whose
    reference will be [fref], with the variable called [vn]. *)
Definition link_variable (fref : nat) (st : Factor * list VariableNode)
    (vn : string) : result (Factor * list VariableNode) :=
  let '(new_factor, variables) := st in
  let? v := of_option (variable_index variables vn) KeyError in
  Ok (factor_add_neighbor new_factor v,
      alter (fun node => add_neighbor node fref) v variables).

(** Body of the outer loop of the second pass. *)
Definition link_factor (st : list Factor * list VariableNode) (pt : ParsedTerm)
  : result (list Factor * list VariableNode) :=
  let '(factors, variables) := st in
  let new_factor := new_Factor (term pt) in
  let all_var_names := var_name pt ++ given pt in
  let? linked :=
    fold_result (link_variable (length factors)) all_var_names
          (new_factor, variables) in
  Ok (factors ++ [fst linked], snd linked).

Definition parse_model_into_variables_and_factors (model_string : string)
  : result (list Factor * list VariableNode) :=
  let? parsed_terms := _parse_model_string_into_terms model_string in
  let variables := fold_left declare_variables parsed_terms [] in
  fold_result link_factor parsed_terms ([], variables).

(** ** The graph container *)

Record PGM : Type := mk_PGM {
  _factors : list Factor;
  _variables : list VariableNode
}.

Definition from_string (model_string : string) : result PGM :=
  let? fv := parse_model_into_variables_and_factors model_string in
  Ok (mk_PGM (fst fv) (snd fv)).

Definition variable_from_name (self : PGM) (nm : string) : result nat :=
  of_option (variable_index (_variables self) nm) KeyError.

(** ** The world of a session: the graph's nodes and the message cache

    [Messages.messages] is a dict keyed by (sender name, receiver name).
    Its iteration order is never observed by the engine, so it is a finite
    map. *)

Record World : Type := mk_World {
  graph : PGM;
  messages : gmap (string * string) (ndarray Q)
}.

(** Computations that read and write the world and may raise.  A raised
    exception keeps the world as it was when it was raised. *)
Definition M (A : Type) : Type := World → result A * World.

Definition ret {A} (a : A) : M A := fun w => (Ok a, w).
Definition raise {A} (e : exn) : M A := fun w => (Raise e, w).
Definition bind {A B} (c : M A) (k : A → M B) : M B :=
  fun w => match c w with
           | (Ok a, w') => k a w'
           | (Raise e, w') => (Raise e, w')
           end.
Definition lift {A} (r : result A) : M A := fun w => (r, w).

Declare Scope world_scope.
Delimit Scope world_scope with world.
Notation "'let*' x ':=' c 'in' k" := (bind c (fun x => k))
  (at level 10, x name, c at level 100, k at level 200) : world_scope.
Notation "c ';;' k" := (bind c (fun _ => k))
  (at level 100, k at level 200, right associativity) : world_scope.
Open Scope world_scope.

(** Primitive effects. *)
Definition get_factor (f : nat) : M Factor :=
  fun w => (of_option (_factors (graph w) !! f) DanglingRef, w).
Definition get_variable (v : nat) : M VariableNode :=
  fun w => (of_option (_variables (graph w) !! v) DanglingRef, w).
(** [factor.data = d] *)
Definition set_factor_data (f : nat) (d : Distribution) : M unit :=
  fun w => (Ok tt,
            mk_World
              (mk_PGM (alter (fun fac => mk_Factor (f_node fac) (Some d)) f
                             (_factors (graph w)))
                      (_variables (graph w)))
              (messages w)).
(** [key in self.messages], [self.messages[key]], [self.messages[key] = m] *)
Definition message_in (key : string * string) : M bool :=
  fun w => (Ok (bool_decide (is_Some (messages w !! key))), w).
Definition read_message (key : string * string) : M (ndarray Q) :=
  fun w => (of_option (messages w !! key) KeyError, w).
Definition store_message (key : string * string) (m : ndarray Q) : M unit :=
  fun w => (Ok tt, mk_World (graph w) (<[key := m]> (messages w))).

(** A [for] loop or comprehension over a list, in order, stopping at the
    first exception. *)
Fixpoint for_each {A B} (f : A → M B) (l : list A) : M (list B) :=
  match l with
  | [] => ret []
  | a :: l' =>
      let* b := f a in
      let* bs := for_each f l' in
      ret (b :: bs)
  end.

Fixpoint for_fold {A S} (f : S → A → M S) (l : list A) (s : S) : M S :=
  match l with
  | [] => ret s
  | a :: l' => let* s' := f s a in for_fold f l' s'
  end.

(** *** PGM.set_distributions *)

Definition str_in (x : string) (l : list string) : bool :=
  existsb (String.eqb x) l.

(** [set(l1) != set(l2)] *)
Definition set_ne (l1 l2 : list string) : bool :=
  negb (forallb (fun x => str_in x l2) l1 && forallb (fun x => str_in x l1) l2).

Definition check_dim (var_dims : list (string * nat))
    (vd : string * nat) : M (list (string * nat)) :=
  let '(var_name, dim) := vd in
  let var_dims :=
    if dict_mem var_dims var_name then var_dims
    else dict_set var_dims var_name dim in
  let* known := lift (of_option (dict_get var_dims var_name) KeyError) in
  if negb (known =? dim)%nat then raise ValueError else ret var_dims.

Definition bind_factor (dists : list (string * Distribution))
    (var_dims : list (string * nat)) (f : nat) : M (list (string * nat)) :=
  let* factor := get_factor f in
  let* factor_data := lift (of_option (dict_get dists (name factor)) KeyError) in
  let* nbrs := for_each get_variable (neighbors factor) in
  if set_ne (axes_labels factor_data) (map name nbrs) then raise ValueError
  else
    let* var_dims :=
      for_fold check_dim
               (zip (axes_labels factor_data) (shape (probs factor_data)))
               var_dims in
    set_factor_data f factor_data ;;
    ret var_dims.

Definition set_distributions (dists : list (string * Distribution)) : M unit :=
  fun w =>
    (let* _ := for_fold (bind_factor dists)
                        (seq 0 (length (_factors (graph w)))) [] in
     ret tt) w.

(** *** Messages *)

(** The two public message functions call each other; [f2v] and [v2f]
    stand for the callee one frame deeper. *)

Definition _variable_to_factor_messages
    (f2v : nat → nat → M (ndarray Q)) (variable factor : nat)
  : M (ndarray Q) :=
  let* v := get_variable variable in
  let* f := get_factor factor in
  let* incoming_messages :=
    for_each (fun neighbor_factor =>
                let* g := get_factor neighbor_factor in
                if negb (String.eqb (name g) (name f))
                then (let* m := f2v neighbor_factor variable in ret [m])
                else ret [])
             (neighbors v) in
  lift (np_prod (concat incoming_messages)).

Definition _factor_to_variable_messages
    (v2f : nat → nat → M (ndarray Q)) (factor variable : nat)
  : M (ndarray Q) :=
  let* f := get_factor factor in
  let* v := get_variable variable in
  let* fdata := lift (of_option (f_data f) AttributeError) in
  let factor_dist := mk_Distribution (probs fdata) (axes_labels fdata) in
  let* factor_dist :=
    for_fold (fun factor_dist neighbor_variable =>
                let* u := get_variable neighbor_variable in
                if String.eqb (name u) (name v) then ret factor_dist
                else
                  let* incoming_message := v2f neighbor_variable factor in
                  lift (multiply factor_dist
                          (mk_Distribution incoming_message [name u])))
             (neighbors f) factor_dist in
  let factor_dist := probs factor_dist in
  let other_axes := get_other_axes_from fdata (name v) in
  let* summed := lift (np_sum factor_dist other_axes) in
  ret (np_squeeze summed).

Definition memoised (message_name : string * string)
    (compute : M (ndarray Q)) : M (ndarray Q) :=
  let* present := message_in message_name in
  (if present then ret tt
   else let* m := compute in store_message message_name m) ;;
  read_message message_name.

Fixpoint variable_to_factor_messages (fuel : nat) (variable factor : nat)
    {struct fuel} : M (ndarray Q) :=
  match fuel with
  | O => raise RecursionError
  | S fuel' =>
      let* v := get_variable variable in
      let* f := get_factor factor in
      memoised (name v, name f)
        (_variable_to_factor_messages (factor_to_variable_message fuel')
           variable factor)
  end
with factor_to_variable_message (fuel : nat) (factor variable : nat)
    {struct fuel} : M (ndarray Q) :=
  match fuel with
  | O => raise RecursionError
  | S fuel' =>
      let* f := get_factor factor in
      let* v := get_variable variable in
      memoised (name f, name v)
        (_factor_to_variable_messages (variable_to_factor_messages fuel')
           factor variable)
  end.

(** The product of the incoming messages of [marginal], before the
    division. *)
Definition unnorm_p (fuel : nat) (variable : nat) : M (ndarray Q) :=
  let* v := get_variable variable in
  let* incoming :=
    for_each (fun neighbor_factor =>
                factor_to_variable_message fuel neighbor_factor variable)
             (neighbors v) in
  lift (np_prod incoming).

Definition marginal (fuel : nat) (variable : nat) : M (ndarray float64) :=
  let* unnorm := unnorm_p fuel variable in
  ret (np_true_divide unnorm (np_sum_all unnorm)).

(** A node of [pgm._factors + list(pgm._variables.values())]. *)
Inductive node_ref : Type :=
  | FactorRef (f : nat)
  | VariableRef (v : nat).

Definition all_nodes (g : PGM) : list node_ref :=
  map FactorRef (seq 0 (length (_factors g)))
  ++ map VariableRef (seq 0 (length (_variables g))).

Definition get_node (n : node_ref) : M Node :=
  match n with
  | FactorRef f => let* fac := get_factor f in ret (f_node fac)
  | VariableRef v => get_variable v
  end.

(** Body of the inner loop of [forward] and [backward]; a Variable's
    neighbour is a Factor and conversely. *)
Definition sweep_edge (fuel : nat) (n : node_ref) (node : Node)
    (processed_nodes : gset (string * string)) (neighbor : nat)
  : M (gset (string * string)) :=
  let* nb := get_node (match n with
                       | FactorRef _ => VariableRef neighbor
                       | VariableRef _ => FactorRef neighbor
                       end) in
  if bool_decide ((name node, name nb) ∈ processed_nodes)
  then ret processed_nodes
  else
    (match n with
     | VariableRef v => variable_to_factor_messages fuel v neighbor
     | FactorRef f => factor_to_variable_message fuel f neighbor
     end) ;;
    ret ({[ (name node, name nb) ]} ∪ processed_nodes).

Definition sweep (fuel : nat) (nodes : list node_ref) : M unit :=
  for_fold (fun processed_nodes n =>
              let* node := get_node n in
              for_fold (sweep_edge fuel n node) (neighbors node)
                       processed_nodes)
           nodes ∅ ;;
  ret tt.

Definition forward (fuel : nat) : M unit :=
  fun w => sweep fuel (all_nodes (graph w)) w.

Definition backward (fuel : nat) : M unit :=
  fun w => sweep fuel (reverse (all_nodes (graph w))) w.

Definition belief_propagation (fuel : nat)
  : M (list (string * ndarray float64)) :=
  forward fuel ;;
  backward fuel ;;
  fun w =>
    for_fold (fun marginals variable =>
                let* v := get_variable variable in
                let* m := marginal fuel variable in
                ret (dict_set marginals (name v) m))
             (seq 0 (length (_variables (graph w)))) [] w.

(** * Specification vocabulary *)

(** ** Arrays *)

(** No entry is negative. *)
Definition nonneg (a : ndarray Q) : Prop := Forall (fun q => 0 <= q)%Q (data a).

(** Shape left by summing out the axes whose label is not [x]. *)
Fixpoint kept_shape (l : list string) (s : list nat) (x : string) : list nat :=
  match l, s with
  | nm :: l', n :: s' =>
      if String.eqb nm x then n :: kept_shape l' s' x else kept_shape l' s' x
  | _, _ => s
  end.

(** [np.squeeze] of a vector over [n] states. *)
Definition message_shape (n : nat) : list nat :=
  filter (fun k => k ≠ 1%nat) [n].

(** A shape with one dimension of size [m] among dimensions of size 1:
    [(m,)], [(m, 1)], [(1, m)], ... *)
Definition single_dimension (s : list nat) (m : nat) : Prop :=
  ∃ k1 k2, s = replicate k1 1%nat ++ m :: replicate k2 1%nat.

(** An array with its entries in lowest terms. *)
Definition reduced (a : ndarray Q) : ndarray Q :=
  mk_ndarray (shape a) (map Qred (data a)).

(** [f] under [Ok]. *)
Definition result_map {A B} (f : A → B) (r : result A) : result B :=
  match r with Ok a => Ok (f a) | Raise e => Raise e end.

(** ** The parser *)

(** [vs'] has the nodes of [vs], each under its name, with neighbour lists
    that only grew. *)
Definition grows (vs vs' : list VariableNode) : Prop :=
  Forall2 (fun v v' : Node =>
             name v' = name v ∧ ∀ i, i ∈ neighbors v → i ∈ neighbors v')
          vs vs'.

(** The identifiers of a term, left and right of the bar. *)
Definition identifiers (pt : ParsedTerm) : list string :=
  var_name pt ++ given pt.

(** ** The footprint of a computation

    A computation is [stable] when it leaves the graph alone and only adds
    to the cache: every entry present before is present, with the same
    value, after - whether it returns or raises. *)

Definition stable {A} (c : M A) : Prop :=
  ∀ w, graph (c w).2 = graph w ∧ messages w ⊆ messages (c w).2.

(** The public operations of [Messages], and the world each leaves. *)
Inductive operation : Type :=
  | Call_variable_to_factor_messages (variable factor : nat)
  | Call_factor_to_variable_message (factor variable : nat)
  | Call_marginal (variable : nat)
  | Call_forward
  | Call_backward
  | Call_belief_propagation.

Definition world_after (fuel : nat) (op : operation) (w : World) : World :=
  match op with
  | Call_variable_to_factor_messages v f =>
      (variable_to_factor_messages fuel v f w).2
  | Call_factor_to_variable_message f v =>
      (factor_to_variable_message fuel f v w).2
  | Call_marginal v => (marginal fuel v w).2
  | Call_forward => (forward fuel w).2
  | Call_backward => (backward fuel w).2
  | Call_belief_propagation => (belief_propagation fuel w).2
  end.

(** ** Bound, tree-shaped graphs

    [card x] is the number of states of the variable called [x]. *)

Definition is_variable_name (g : PGM) (x : string) : Prop :=
  ∃ var : VariableNode, var ∈ _variables g ∧ name var = x.

Definition is_factor_name (g : PGM) (x : string) : Prop :=
  ∃ fac : Factor, fac ∈ _factors g ∧ name fac = x.

(** The tensor bound to a factor: unique labels; the labels are the names
    of the factor's neighbours; the dimension under a label has the
    cardinality of that variable; dimensions beyond the labelled ones, if
    any, have size 1 (the notebook writes a prior as a column); no entry is
    negative. *)
Definition tensor_ok (g : PGM) (card : string → nat) (fac : Factor)
    (d : Distribution) : Prop :=
  NoDup (axes_labels d)
  ∧ Forall (fun n => n = 1%nat)
           (drop (length (axes_labels d)) (shape (probs d)))
  ∧ (∀ x, x ∈ axes_labels d ↔
          ∃ v (var : VariableNode),
            v ∈ neighbors fac ∧ _variables g !! v = Some var ∧ name var = x)
  ∧ (∀ i x, axes_labels d !! i = Some x →
            shape (probs d) !! i = Some (card x))
  ∧ nonneg (probs d).

Record bound_graph (g : PGM) (card : string → nat) : Prop := {
  (* neighbour references point into the graph *)
  bg_factor_refs : ∀ (fac : Factor) v,
    fac ∈ _factors g → v ∈ neighbors fac → is_Some (_variables g !! v);
  bg_variable_refs : ∀ (var : VariableNode) f,
    var ∈ _variables g → f ∈ neighbors var → is_Some (_factors g !! f);
  (* edges are undirected *)
  bg_symmetric : ∀ v f (var : VariableNode) (fac : Factor),
    _variables g !! v = Some var → _factors g !! f = Some fac →
    (f ∈ neighbors var ↔ v ∈ neighbors fac);
  (* the variables dict is keyed by name; no variable is called like a
     factor *)
  bg_variable_names : NoDup (name <$> _variables g);
  bg_disjoint_names : ∀ x, is_variable_name g x → ¬ is_factor_name g x;
  (* every factor carries a tensor *)
  bg_data : ∀ fac : Factor, fac ∈ _factors g →
    ∃ d, f_data fac = Some d ∧ tensor_ok g card fac d
}.

(** Tree shape, in the form the engine relies on.  The message along an
    edge is computed from the messages arriving at its sender over the
    sender's other edges.  [ranked] gives every directed edge a rank that is
    strictly above the ranks of the edges it is computed from; on a finite
    graph with undirected edges such ranks exist exactly when no path leads
    back to its starting edge, which is acyclicity (on a tree the rank is
    the height of the subtree behind the edge).  [tree_shaped g depth] bounds
    the ranks by [depth]. *)
Definition ranked (g : PGM) (rank_vf rank_fv : nat → nat → nat) : Prop :=
  (∀ v f f' (var : VariableNode) (fac fac' : Factor),
     _variables g !! v = Some var → _factors g !! f = Some fac →
     f ∈ neighbors var →
     f' ∈ neighbors var → _factors g !! f' = Some fac' →
     name fac' ≠ name fac →
     rank_fv f' v < rank_vf v f)
  ∧ (∀ f v u (fac : Factor) (var var' : VariableNode),
     _factors g !! f = Some fac → _variables g !! v = Some var →
     v ∈ neighbors fac →
     u ∈ neighbors fac → _variables g !! u = Some var' →
     name var' ≠ name var →
     rank_vf u f < rank_fv f v).

Definition tree_shaped (g : PGM) (depth : nat) : Prop :=
  ∃ rank_vf rank_fv,
    ranked g rank_vf rank_fv
    ∧ (∀ v f, rank_vf v f < depth) ∧ (∀ f v, rank_fv f v < depth).

(** A cache whose entries could have been written by the engine on this
    graph: no negative entry, and the shape of a message of the variable it
    is about. *)
Definition entry_ok (g : PGM) (card : string → nat) (a b : string)
    (m : ndarray Q) : Prop :=
  nonneg m
  ∧ (is_factor_name g a → is_variable_name g b →
     shape m = message_shape (card b))
  ∧ (is_variable_name g a → is_factor_name g b →
     shape m = message_shape (card a) ∨ shape m = []).

Definition cache_ok (g : PGM) (card : string → nat)
    (c : gmap (string * string) (ndarray Q)) : Prop :=
  ∀ a b m, c !! (a, b) = Some m → entry_ok g card a b m.

(** The state of a session on graph [g]. *)
Definition session_ok (g : PGM) (card : string → nat) (w : World) : Prop :=
  graph w = g ∧ cache_ok g card (messages w).

(** [w'] is reached from [w] by an engine that only added messages. *)
Definition extends (g : PGM) (card : string → nat) (w w' : World) : Prop :=
  session_ok g card w' ∧ messages w ⊆ messages w'.

(** ** Reading the cache *)

(** The messages a variable's neighbouring factors have in the cache. *)
Definition cached_incoming (w : World) (var : VariableNode)
    (msgs : list (ndarray Q)) : Prop :=
  Forall2 (fun f' m =>
             ∃ fac' : Factor, _factors (graph w) !! f' = Some fac'
                              ∧ messages w !! (name fac', name var) = Some m)
          (neighbors var) msgs.

(** Re-deriving a marginal by hand from the cache: look up the cached
    factor-to-variable message of every neighbouring factor of the variable,
    multiply them, divide by the total. *)
Definition hand_marginal (w : World) (var : VariableNode)
  : option (ndarray float64) :=
  msgs ← mapM (fun f' =>
                 fac' ← _factors (graph w) !! f';
                 messages w !! (name (f_node fac'), name var))
              (neighbors var);
  match np_prod msgs with
  | Ok u => Some (np_true_divide u (np_sum_all u))
  | Raise _ => None
  end.

(** The two steps of that re-derivation in the words of the specification.
    The entrywise product of the messages, multiplied from left to right;
    of no message, the scalar 1.0. *)
Definition entrywise_product (msgs : list (ndarray Q)) : ndarray Q :=
  match msgs with
  | [] => mk_ndarray [] [1%Q]
  | m :: rest =>
      mk_ndarray (shape m)
        (fold_left (fun acc b => zip_with Qmult acc (data b)) rest (data m))
  end.

(** An array divided, entry by entry, by the total of its entries: the
    quotient where the total is not zero; where it is zero, nan for a zero
    entry and an infinity of the entry's sign for another. *)
Definition divided_by_total (u : ndarray Q) : ndarray float64 :=
  let total := foldr Qplus 0%Q (data u) in
  mk_ndarray (shape u)
    (map (fun x =>
            if Qeq_bool total 0
            then (if Qeq_bool x 0 then NaN
                  else if Qle_bool 0 x then PosInf else NegInf)
            else Finite (x / total)%Q)
         (data u)).

(** The node a reference denotes in graph [g]. *)
Definition node_of (g : PGM) (n : node_ref) (node : Node) : Prop :=
  match n with
  | FactorRef f => ∃ fac : Factor, _factors g !! f = Some fac ∧ node = f_node fac
  | VariableRef v => _variables g !! v = Some node
  end.

(** The reference behind entry [nb] of the neighbour list of node [n]. *)
Definition neighbor_ref (n : node_ref) (nb : nat) : node_ref :=
  match n with
  | FactorRef _ => VariableRef nb
  | VariableRef _ => FactorRef nb
  end.

(** The cache [c] holds the message of [n] to each of its neighbours. *)
Definition node_swept (g : PGM) (c : gmap (string * string) (ndarray Q))
    (n : node_ref) : Prop :=
  ∀ node nb, node_of g n node → nb ∈ neighbors node →
    ∃ nbnode, node_of g (neighbor_ref n nb) nbnode
              ∧ is_Some (c !! (name node, name nbnode)).

(** ** Which keys a message computation may write

    A directed edge of the graph, the key of its message, and the keys of
    the messages it is computed from, directly or through other messages. *)
Inductive edge : Type :=
  | VF (v f : nat)    (* variable v to factor f *)
  | FV (f v : nat).   (* factor f to variable v *)

Definition key_of (g : PGM) (e : edge) (k : string * string) : Prop :=
  match e with
  | VF v f => ∃ (var : VariableNode) (fac : Factor),
      _variables g !! v = Some var ∧ _factors g !! f = Some fac
      ∧ k = (name var, name fac)
  | FV f v => ∃ (fac : Factor) (var : VariableNode),
      _factors g !! f = Some fac ∧ _variables g !! v = Some var
      ∧ k = (name fac, name var)
  end.

Definition adjacent (g : PGM) (e : edge) : Prop :=
  match e with
  | VF v f => ∃ var : VariableNode,
      _variables g !! v = Some var ∧ f ∈ neighbors var
  | FV f v => ∃ fac : Factor,
      _factors g !! f = Some fac ∧ v ∈ neighbors fac
  end.

Inductive below (g : PGM) : edge → string * string → Prop :=
  | below_vf_here v f f' (var : VariableNode) (fac fac' : Factor) :
      _variables g !! v = Some var → _factors g !! f = Some fac →
      f' ∈ neighbors var → _factors g !! f' = Some fac' →
      name fac' ≠ name fac →
      below g (VF v f) (name fac', name var)
  | below_vf_deeper v f f' (var : VariableNode) (fac fac' : Factor) k :
      _variables g !! v = Some var → _factors g !! f = Some fac →
      f' ∈ neighbors var → _factors g !! f' = Some fac' →
      name fac' ≠ name fac →
      below g (FV f' v) k →
      below g (VF v f) k
  | below_fv_here f v u (fac : Factor) (var var' : VariableNode) :
      _factors g !! f = Some fac → _variables g !! v = Some var →
      u ∈ neighbors fac → _variables g !! u = Some var' →
      name var' ≠ name var →
      below g (FV f v) (name var', name fac)
  | below_fv_deeper f v u (fac : Factor) (var var' : VariableNode) k :
      _factors g !! f = Some fac → _variables g !! v = Some var →
      u ∈ neighbors fac → _variables g !! u = Some var' →
      name var' ≠ name var →
      below g (VF u f) k →
      below g (FV f v) k.

(** On graph [g], [c] leaves the graph alone and adds to the cache only
    keys in [S]. *)
Definition touches {A} (g : PGM) (S : string * string → Prop) (c : M A)
  : Prop :=
  ∀ w, graph w = g →
    graph (c w).2 = g
    ∧ ∀ k, is_Some (messages (c w).2 !! k) →
           is_Some (messages w !! k) ∨ S k.

(** Every node has a name of its own. *)
Definition distinct_names (g : PGM) : Prop :=
  NoDup ((name <$> _variables g) ++ (name ∘ f_node <$> _factors g)).

Definition edge_rank (rank_vf rank_fv : nat → nat → nat) (e : edge) : nat :=
  match e with
  | VF v f => rank_vf v f
  | FV f v => rank_fv f v
  end.

(** ** Sessions and graphs used below *)

(** A session as the notebook opens one: parse the factorization, bind the
    tensors, start with an empty cache. *)
Definition new_session (model_string : string)
    (dists : list (string * Distribution)) : result World :=
  let? pgm := from_string model_string in
  match set_distributions dists (mk_World pgm ∅) with
  | (Ok _, w) => Ok w
  | (Raise e, w) => Raise e
  end.

(** A forest of two trees: the chain a - p(b|a) - b with its prior p(a),
    and a lone variable c whose only factor is identically zero. *)
Definition forest_dists : list (string * Distribution) :=
  [ ("p(a)", mk_Distribution (mk_ndarray [2]%nat [3#10; 7#10]%Q) ["a"]);
    ("p(b|a)",
     mk_Distribution (mk_ndarray [2; 2]%nat [9#10; 2#10; 1#10; 8#10]%Q)
                     ["b"; "a"]);
    ("p(c)", mk_Distribution (mk_ndarray [2]%nat [0; 0]%Q) ["c"]) ].

Definition forest_graph : PGM :=
  mk_PGM
    [ mk_Factor (mk_Node "p(a)" [0]%nat)
        (Some (mk_Distribution (mk_ndarray [2]%nat [3#10; 7#10]%Q) ["a"]));
      mk_Factor (mk_Node "p(b|a)" [1; 0]%nat)
        (Some (mk_Distribution
                 (mk_ndarray [2; 2]%nat [9#10; 2#10; 1#10; 8#10]%Q)
                 ["b"; "a"]));
      mk_Factor (mk_Node "p(c)" [2]%nat)
        (Some (mk_Distribution (mk_ndarray [2]%nat [0; 0]%Q) ["c"])) ]
    [ mk_Node "a" [0; 1]%nat; mk_Node "b" [1]%nat; mk_Node "c" [2]%nat ].

Definition forest_world : World := mk_World forest_graph ∅.

Definition forest_card (x : string) : nat := 2.

Definition forest_rank_vf (v f : nat) : nat :=
  match v, f with
  | 0, 0 => 2
  | 0, 1 => 1
  | _, _ => 0
  end%nat.

Definition forest_rank_fv (f v : nat) : nat :=
  match f, v with
  | 1, 0 => 1
  | 1, 1 => 2
  | _, _ => 0
  end%nat.


(** Scenario A of the notebook: the three-factor chain. *)
Definition chain_dists : list (string * Distribution) :=
  [ ("p(x1,x3)",
     mk_Distribution (mk_ndarray [2; 2]%nat [3#10; 2#10; 1#10; 4#10]%Q)
                     ["x1"; "x3"]);
    ("p(x2,x3)",
     mk_Distribution (mk_ndarray [2; 2]%nat [1#10; 5#10; 2#10; 2#10]%Q)
                     ["x2"; "x3"]);
    ("p(x3,x4,x5)",
     mk_Distribution
       (mk_ndarray [2; 2; 2]%nat
          [1#10; 0; 1#10; 1#10; 1#10; 0; 2#10; 4#10]%Q)
       ["x3"; "x4"; "x5"]) ].

(** Scenario B of the notebook: the four-node chain; p(h1) is given as a
    column, an array of shape (2, 1) under the single label h1. *)
Definition hidden_dists : list (string * Distribution) :=
  [ ("p(h1)", mk_Distribution (mk_ndarray [2; 1]%nat [2#10; 8#10]%Q) ["h1"]);
    ("p(h2|h1)",
     mk_Distribution (mk_ndarray [2; 2]%nat [5#10; 2#10; 5#10; 8#10]%Q)
                     ["h2"; "h1"]);
    ("p(v1|h1)",
     mk_Distribution (mk_ndarray [2; 2]%nat [6#10; 1#10; 4#10; 9#10]%Q)
                     ["v1"; "h1"]);
    ("p(v2|h2)",
     mk_Distribution (mk_ndarray [2; 2]%nat [6#10; 1#10; 4#10; 9#10]%Q)
                     ["v2"; "h2"]) ].



(** A four-cycle a - p(a,b) - b - p(b,a) - a, as the parser builds it. *)
Definition cycle_graph : PGM :=
  mk_PGM
    [ mk_Factor (mk_Node "p(a,b)" [0; 1]%nat)
        (Some (mk_Distribution (mk_ndarray [2; 2]%nat [1#4; 1#4; 1#4; 1#4]%Q)
                 ["a"; "b"]));
      mk_Factor (mk_Node "p(b,a)" [1; 0]%nat)
        (Some (mk_Distribution (mk_ndarray [2; 2]%nat [1#4; 1#4; 1#4; 1#4]%Q)
                 ["b"; "a"])) ]
    [ mk_Node "a" [0; 1]%nat; mk_Node "b" [0; 1]%nat ].

(** * Vocabulary of the further properties *)

(** ** Tables *)

(** The scalar 1.0, [np.prod] of no message. *)
Definition scalar_one : ndarray Q := mk_ndarray [] [1%Q].

(** A table in good shape: no label twice, every label has its axis, the
    axes beyond the labelled ones (if any) have size 1, no entry is
    negative. *)
Definition well_shaped (d : Distribution) : Prop :=
  NoDup (axes_labels d)
  ∧ (length (axes_labels d) ≤ length (shape (probs d)))%nat
  ∧ Forall (fun n => n = 1%nat)
           (drop (length (axes_labels d)) (shape (probs d)))
  ∧ nonneg (probs d).

(** The factor by which message [m], sent along axis [i], multiplies the
    entry at row-major position [k] of a table of shape [sh]: its entry at
    coordinate [i] of the position, or its only entry when it is a
    scalar. *)
Definition weight (sh : list nat) (i : nat) (m : ndarray Q) (k : nat) : Q :=
  if bool_decide (shape m = []) then nth 0 (data m) 0%Q
  else nth (nth i (unravel sh k) 0%nat) (data m) 0%Q.

(** Table [t] with every entry multiplied by the weight of [m] along axis
    [i], and with the weights of a list of messages, one after the other. *)
Definition scaled (t : ndarray Q) (i : nat) (m : ndarray Q) : ndarray Q :=
  mk_ndarray (shape t)
    (map (fun k => (nth k (data t) 0 * weight (shape t) i m k)%Q)
         (seq 0 (np_size (shape t)))).

Definition weighted (t : ndarray Q) (ws : list (nat * ndarray Q)) : ndarray Q :=
  foldl (fun t im => scaled t im.1 im.2) t ws.

(** The third table of the notebook's first cell, p(v1|h0,h1). *)
Definition p_v1_given_h0_h1_demo : Distribution :=
  mk_Distribution
    (mk_ndarray [2; 2; 3]%nat
       [9#10; 2#10; 7#10; 3#10; 2#10; 5#10;
        1#10; 8#10; 3#10; 7#10; 8#10; 5#10]%Q)
    ["v1"; "h0"; "h1"].

(** ** Terms as they are written *)

(** The text of a term with left-hand names [vars] and right-hand names
    [given]: [(a,b)] or [(a,b|c,d)]. *)
Definition printed_term (vars given : list string) : string :=
  "(" +:+ String.concat "," vars
      +:+ match given with
          | [] => ""
          | _ => "|" +:+ String.concat "," given
          end
      +:+ ")".

(** A name that holds neither of the two separators of a term. *)
Definition plain (x : string) : Prop :=
  contains ","%char x = false ∧ contains "|"%char x = false.

(** [s.count(c)] *)
Fixpoint count_char (c : ascii) (s : string) : nat :=
  match s with
  | EmptyString => 0
  | String c' s' => (if Ascii.eqb c' c then 1 else 0) + count_char c s'
  end%nat.

(** A name the parser can take: no comma, no bar, and no letter p, on
    which the string is cut into terms. *)
Definition name_ok (x : string) : Prop :=
  plain x ∧ contains "p"%char x = false.

(** A term, as its left-hand and right-hand names, that can be written and
    read back. *)
Definition term_ok (t : list string * list string) : Prop :=
  t.1 ≠ [] ∧ Forall name_ok (t.1 ++ t.2).

(** The factorization string of a list of terms, [p(...)p(...)...], and
    the terms the parser is to find in it. *)
Definition printed_model (ts : list (list string * list string)) : string :=
  foldr (fun t s => "p" +:+ printed_term t.1 t.2 +:+ s) "" ts.

Definition parsed_term (t : list string * list string) : ParsedTerm :=
  mk_ParsedTerm ("p" +:+ printed_term t.1 t.2) t.1 t.2.

(** ** Well-formed graphs *)

(** Every neighbour reference denotes a node, and every edge is recorded at
    both ends: variable [j] is in the neighbour list of factor [i] exactly
    when factor [i] is in the neighbour list of variable [j]. *)
Definition well_linked (fs : list Factor) (vs : list VariableNode) : Prop :=
  (∀ i (fac : Factor) j, fs !! i = Some fac → j ∈ neighbors fac →
     ∃ var : VariableNode, vs !! j = Some var ∧ i ∈ neighbors var)
  ∧ (∀ j (var : VariableNode) i, vs !! j = Some var → i ∈ neighbors var →
     ∃ fac : Factor, fs !! i = Some fac ∧ j ∈ neighbors fac).

(** The neighbour list [refs] holds, in order, the variables called
    [names]. *)
Definition refs_of (vs : list VariableNode) (names : list string)
    (refs : list nat) : Prop :=
  Forall2 (fun x j => variable_index vs x = Some j) names refs.

(** [g'] has the nodes of [g], each with its name and neighbour list; the
    tensors bound to the factors may differ. *)
Definition same_nodes (g g' : PGM) : Prop :=
  _variables g' = _variables g
  ∧ f_node <$> _factors g' = f_node <$> _factors g.

(** The forest of [forest_graph] as the parser returns it, before any
    tensor is bound. *)
Definition forest_parsed : PGM :=
  mk_PGM
    [ mk_Factor (mk_Node "p(a)" [0]%nat) None;
      mk_Factor (mk_Node "p(b|a)" [1; 0]%nat) None;
      mk_Factor (mk_Node "p(c)" [2]%nat) None ]
    [ mk_Node "a" [0; 1]%nat; mk_Node "b" [1]%nat; mk_Node "c" [2]%nat ].

(** ** Binding tensors *)

(** A computation that leaves the world as it is, whatever it returns. *)
Definition reads_only {A} (c : M A) : Prop := ∀ w, (c w).2 = w.

(** [w'] is [w] after some factors were given their tensor of [dists]:
    nothing else differs. *)
Definition rebound (dists : list (string * Distribution)) (w w' : World)
  : Prop :=
  messages w' = messages w
  ∧ _variables (graph w') = _variables (graph w)
  ∧ Forall2 (fun fac fac' : Factor =>
               f_node fac' = f_node fac
               ∧ (f_data fac' = f_data fac
                  ∨ ∃ d, dict_get dists (name fac) = Some d
                         ∧ f_data fac' = Some d))
            (_factors (graph w)) (_factors (graph w')).

(** The table of dimensions [var_dims'] keeps every entry of [var_dims]. *)
Definition dims_extend (var_dims var_dims' : list (string * nat)) : Prop :=
  ∀ x n, dict_get var_dims x = Some n → dict_get var_dims' x = Some n.

(** What [set_distributions] has checked of the tensor [d] it bound to
    [fac]: its labels are, as a set, the names of the factor's neighbours,
    and every labelled axis has the size the table [var_dims] records for
    its label. *)
Definition checked_table (g : PGM) (var_dims : list (string * nat))
    (fac : Factor) (d : Distribution) : Prop :=
  (∀ x, x ∈ axes_labels d ↔
        ∃ j (var : VariableNode),
          j ∈ neighbors fac ∧ _variables g !! j = Some var ∧ name var = x)
  ∧ (∀ i x n, axes_labels d !! i = Some x → shape (probs d) !! i = Some n →
              dict_get var_dims x = Some n).

(** What makes [dists] acceptable for graph [g]: every factor has an entry
    under its name whose labels are, as a set, the names of the factor's
    neighbours and whose labelled axes have the size [card] gives the
    label.  (A neighbour reference always denotes a node.) *)
Definition consistent_tables (g : PGM) (dists : list (string * Distribution))
    (card : string → nat) : Prop :=
  ∀ fac : Factor, fac ∈ _factors g →
    (∀ j, j ∈ neighbors fac → is_Some (_variables g !! j))
    ∧ ∃ d, dict_get dists (name fac) = Some d
           ∧ (∀ x, x ∈ axes_labels d ↔
                   ∃ j (var : VariableNode),
                     j ∈ neighbors fac ∧ _variables g !! j = Some var
                     ∧ name var = x)
           ∧ (∀ i x n, axes_labels d !! i = Some x →
                       shape (probs d) !! i = Some n → n = card x).

(** The number of states a table of dimensions records for a name. *)
Definition card_of (var_dims : list (string * nat)) (x : string) : nat :=
  default 0%nat (dict_get var_dims x).


(** ** Later states of a session *)

(** [w'] is [w] with the same graph and possibly more messages. *)
Definition cache_grew (w w' : World) : Prop :=
  graph w' = graph w ∧ messages w ⊆ messages w'.

(** [self.messages[key] = m] on the world. *)
Definition with_message (w : World) (key : string * string) (m : ndarray Q)
  : World :=
  mk_World (graph w) (<[key := m]> (messages w)).

(** Loop state of a sweep reached from an earlier one: the cache grew, and
    every pair marked as processed has its message in the cache, which took
    a call that had stack to run. *)
Definition sweep_grew (fuel : nat)
    (x y : gset (string * string) * World) : Prop :=
  cache_grew x.2 y.2
  ∧ ∀ k, k ∈ y.1 → is_Some (messages y.2 !! k) ∧ fuel ≠ 0%nat.

(** Node [n] of [g] has nothing left to send: each neighbour reference is
    valid and the message to it is in [c]; if there is a neighbour at all,
    the stack allows a call. *)
Definition node_done (fuel : nat) (g : PGM)
    (c : gmap (string * string) (ndarray Q)) (n : node_ref) : Prop :=
  ∃ node, node_of g n node
    ∧ ∀ nb, nb ∈ neighbors node →
        ∃ nbnode, node_of g (neighbor_ref n nb) nbnode
                  ∧ is_Some (c !! (name node, name nbnode))
                  ∧ fuel ≠ 0%nat.

(** ** The two update rules *)

(** The cached messages to [var] from the factors around it that are not
    called like [fac], in the order of the neighbour list. *)
Inductive other_messages (w : World) (var : VariableNode) (fac : Factor)
  : list nat → list (ndarray Q) → Prop :=
  | other_messages_nil : other_messages w var fac [] []
  | other_messages_skip f' fs (fac' : Factor) ms :
      _factors (graph w) !! f' = Some fac' → name fac' = name fac →
      other_messages w var fac fs ms →
      other_messages w var fac (f' :: fs) ms
  | other_messages_take f' fs (fac' : Factor) m ms :
      _factors (graph w) !! f' = Some fac' → name fac' ≠ name fac →
      messages w !! (name fac', name var) = Some m →
      other_messages w var fac fs ms →
      other_messages w var fac (f' :: fs) (m :: ms).

(** The cached messages to [fac] from the variables around it that are not
    called like [var], each with the axis of the table [d] it is sent
    along; the message fits that axis. *)
Inductive weights_of (w : World) (fac : Factor) (var : VariableNode)
    (d : Distribution) : list nat → list (nat * ndarray Q) → Prop :=
  | weights_of_nil : weights_of w fac var d [] []
  | weights_of_skip u us (var' : VariableNode) ws :
      _variables (graph w) !! u = Some var' → name var' = name var →
      weights_of w fac var d us ws →
      weights_of w fac var d (u :: us) ws
  | weights_of_take u us (var' : VariableNode) i n m ws :
      _variables (graph w) !! u = Some var' → name var' ≠ name var →
      messages w !! (name var', name fac) = Some m →
      dict_get (get_axes d) (name var') = Some i →
      shape (probs d) !! i = Some n →
      shape m = [] ∨ np_size (shape m) = n →
      weights_of w fac var d us ws →
      weights_of w fac var d (u :: us) ((i, m) :: ws).

(** ** States of the demonstration forest *)

(** The marginal of b in [forest_world], as the engine computes it:
    (0.41, 0.59). *)
Definition forest_marginal_of_b : ndarray float64 :=
  mk_ndarray [2]%nat
    [ Finite (((9 # 10) * (3 # 10) + ((2 # 10) * (7 # 10) + 0))
              / ((9 # 10) * (3 # 10) + ((2 # 10) * (7 # 10) + 0)
                 + ((1 # 10) * (3 # 10) + ((8 # 10) * (7 # 10) + 0) + 0)));
      Finite (((1 # 10) * (3 # 10) + ((8 # 10) * (7 # 10) + 0))
              / ((9 # 10) * (3 # 10) + ((2 # 10) * (7 # 10) + 0)
                 + ((1 # 10) * (3 # 10) + ((8 # 10) * (7 # 10) + 0) + 0))) ]%Q.

(** The dict [belief_propagation] returns on [forest_world]. *)
Definition forest_marginals : list (string * ndarray float64) :=
  match (belief_propagation 3 forest_world).1 with
  | Ok marginals => marginals
  | Raise _ => []
  end.

(** [forest_world] once the prior of a has sent its message. *)
Definition forest_world_a : World :=
  with_message forest_world ("p(a)", "a") (mk_ndarray [2]%nat [3#10; 7#10]%Q).

(** [forest_world_a] once a has sent that message on to p(b|a). *)
Definition forest_world_ab : World :=
  with_message forest_world_a ("a", "p(b|a)")
    (mk_ndarray [2]%nat [3#10; 7#10]%Q).

(** * Properties *)

(** ** The notebook replayed *)

Example multiply_demo :
  match multiply p_v1_given_h1_demo p_h1_demo with
  | Ok d => shape (probs d) = [2; 3]%nat
            ∧ map Qred (data (probs d))
              = map Qred [24#100; 24#100; 9#100; 36#100; 6#100; 1#100]%Q
            ∧ axes_labels d = ["v1"; "h1"]
  | Raise _ => False
  end.
Proof. vm_compute. auto. Qed.


Example parse_chain :
  from_string "p(h1)p(h2|h1)p(v1|h1)p(v2|h2)" =
  Ok (mk_PGM
        [ mk_Factor (mk_Node "p(h1)" [0]) None;
          mk_Factor (mk_Node "p(h2|h1)" [1; 0]) None;
          mk_Factor (mk_Node "p(v1|h1)" [2; 0]) None;
          mk_Factor (mk_Node "p(v2|h2)" [3; 1]) None ]
        [ mk_Node "h1" [0; 1; 2]; mk_Node "h2" [1; 3];
          mk_Node "v1" [2]; mk_Node "v2" [3] ])%nat.
Proof. reflexivity. Qed.

Example parse_given_only : from_string "p(a|b)" = Raise KeyError.
Proof. reflexivity. Qed.


(** The marginal of v1 and the cache the notebook shows after computing
    it. *)
Example hidden_chain_marginal_v1 :
  ∃ w p w',
    new_session "p(h1)p(h2|h1)p(v1|h1)p(v2|h2)" hidden_dists = Ok w
    ∧ variable_from_name (graph w) "v1" = Ok 2%nat
    ∧ marginal 1000 2 w = (Ok p, w')
    ∧ shape p = [2]%nat
    ∧ (∃ p0 p1, data p = [Finite p0; Finite p1]
                ∧ (p0 == 2 # 10)%Q ∧ (p1 == 8 # 10)%Q)
    ∧ reduced <$> messages w'
      = list_to_map
          [ (("p(h1)", "h1"), mk_ndarray [2]%nat [1 # 5; 4 # 5]%Q);
            (("v2", "p(v2|h2)"), mk_ndarray [] [1]%Q);
            (("p(v2|h2)", "h2"), mk_ndarray [2]%nat [1; 1]%Q);
            (("h2", "p(h2|h1)"), mk_ndarray [2]%nat [1; 1]%Q);
            (("p(h2|h1)", "h1"), mk_ndarray [2]%nat [1; 1]%Q);
            (("h1", "p(v1|h1)"), mk_ndarray [2]%nat [1 # 5; 4 # 5]%Q);
            (("p(v1|h1)", "v1"), mk_ndarray [2]%nat [1 # 5; 4 # 5]%Q) ].
Proof.
  eexists _, _, _.
  split; [vm_compute; reflexivity|].
  split; [vm_compute; reflexivity|].
  split; [vm_compute; reflexivity|].
  split; [reflexivity|].
  split; [eexists _, _; split; [reflexivity|split; vm_compute; reflexivity]|].
  vm_compute. reflexivity.
Qed.

(** numpy on small arrays: broadcasting, reductions, products. *)
Example np_multiply_row :
  np_multiply (mk_ndarray [2; 3]%nat [1; 2; 3; 4; 5; 6]%Q)
              (mk_ndarray [3]%nat [10; 20; 30]%Q)
  = Ok (mk_ndarray [2; 3]%nat
          [1 * 10; 2 * 20; 3 * 30; 4 * 10; 5 * 20; 6 * 30]%Q).
Proof. reflexivity. Qed.

Example np_multiply_outer :
  np_multiply (mk_ndarray [2; 1]%nat [1; 2]%Q)
              (mk_ndarray [1; 3]%nat [10; 20; 30]%Q)
  = Ok (mk_ndarray [2; 3]%nat
          [1 * 10; 1 * 20; 1 * 30; 2 * 10; 2 * 20; 2 * 30]%Q).
Proof. reflexivity. Qed.

Example np_multiply_mismatch :
  np_multiply (mk_ndarray [2; 3]%nat [1; 2; 3; 4; 5; 6]%Q)
              (mk_ndarray [2]%nat [10; 20]%Q)
  = Raise ValueError.
Proof. reflexivity. Qed.

Example np_sum_axes :
  let a := mk_ndarray [2; 2; 2]%nat [1; 2; 3; 4; 5; 6; 7; 8]%Q in
  (result_map reduced <$> [np_sum a [0]; np_sum a [1]; np_sum a [2];
                np_sum a [0; 2]; np_sum a [0; 1; 2]; np_sum a []]%nat)
  = (result_map reduced <$> [ Ok (mk_ndarray [2; 2]%nat [6; 8; 10; 12]%Q);
                   Ok (mk_ndarray [2; 2]%nat [4; 6; 12; 14]%Q);
                   Ok (mk_ndarray [2; 2]%nat [3; 7; 11; 15]%Q);
                   Ok (mk_ndarray [2]%nat [14; 22]%Q);
                   Ok (mk_ndarray [] [36]%Q);
                   Ok a ]).
Proof. reflexivity. Qed.

Example np_prod_examples :
  np_prod [] = Ok (mk_ndarray [] [1]%Q)
  ∧ np_prod [mk_ndarray [2]%nat [2; 3]%Q; mk_ndarray [2]%nat [5; 7]%Q]
    = Ok (mk_ndarray [2]%nat [2 * 5; 3 * 7]%Q)
  ∧ np_prod [mk_ndarray [2]%nat [2; 3]%Q; mk_ndarray [] [1]%Q]
    = Raise ValueError.
Proof. repeat split. Qed.

(** ** The parser *)

Lemma variable_index_Some (vs : list VariableNode) x j :
  variable_index vs x = Some j →
  ∃ v : Node, vs !! j = Some v ∧ name v = x.
Proof.
  revert j. induction vs as [|v vs IH]; intros j; simpl; [done|].
  destruct (String.eqb_spec (name v) x) as [Heq|Hne].
  - intros [= <-]. by exists v.
  - destruct (variable_index vs x) as [j'|]; [|done]. simpl.
    intros [= <-]. destruct (IH j' eq_refl) as (v' & Hv' & Hn). by exists v'.
Qed.

Lemma variable_index_None (vs : list VariableNode) x :
  variable_index vs x = None ↔ x ∉ (name <$> vs).
Proof.
  induction vs as [|v vs IH]; simpl.
  - split; [intros _; apply not_elem_of_nil|done].
  - destruct (String.eqb_spec (name v) x) as [Heq|Hne].
    + split; [done|]. intros Hn. exfalso. apply Hn. rewrite <- Heq. by left.
    + rewrite not_elem_of_cons. destruct (variable_index vs x) as [j|]; simpl.
      * split; [done|]. intros [_ Hn]. by apply IH in Hn.
      * split; [|done]. intros _. split; [done|]. by apply IH.
Qed.

Lemma variable_index_names (vs vs' : list VariableNode) x :
  name <$> vs' = name <$> vs → variable_index vs' x = variable_index vs x.
Proof.
  revert vs'. induction vs as [|v vs IH]; intros [|v' vs'] Hn; try done.
  simpl in *. injection Hn as Hv Hvs. rewrite Hv.
  destruct (String.eqb (name v) x); [done|]. by rewrite (IH vs').
Qed.

Lemma grows_refl vs : grows vs vs.
Proof. apply Forall2_same_length_lookup_2; [done|]. intros i v v' H1 H2.
  assert (v' = v) as -> by congruence. done. Qed.

Lemma grows_trans vs1 vs2 vs3 : grows vs1 vs2 → grows vs2 vs3 → grows vs1 vs3.
Proof.
  unfold grows. intros H12. revert vs3.
  induction H12 as [|v1 v2 vs1 vs2 [Hn Hs] _ IH]; intros vs3 H23.
  - by inversion H23.
  - inversion H23 as [|? v3 ? vs3' [Hn' Hs'] H23']; subst. constructor.
    + split; [congruence|]. intros i Hi. by apply Hs', Hs.
    + by apply IH.
Qed.

Lemma grows_names vs vs' : grows vs vs' → name <$> vs' = name <$> vs.
Proof.
  induction 1 as [|v v' vs vs' [Hn _] _ IH]; [done|].
  rewrite !fmap_cons. by rewrite Hn, IH.
Qed.

Lemma grows_lookup vs vs' j (v : Node) :
  grows vs vs' → vs !! j = Some v →
  ∃ v' : Node, vs' !! j = Some v' ∧ name v' = name v
               ∧ ∀ i, i ∈ neighbors v → i ∈ neighbors v'.
Proof.
  intros Hg Hv. destruct (Forall2_lookup_l _ _ _ _ _ Hg Hv) as (v' & Hv' & Hn & Hs).
  by exists v'.
Qed.

Lemma grows_alter (vs : list VariableNode) j fref :
  grows vs (alter (fun node => add_neighbor node fref) j vs).
Proof.
  apply Forall2_same_length_lookup_2; [by rewrite length_alter|].
  intros i v v' Hv Hv'. destruct (decide (i = j)) as [->|Hne].
  - rewrite list_lookup_alter_eq, Hv in Hv'. injection Hv' as <-. simpl.
    split; [done|]. intros k Hk. apply elem_of_app. by left.
  - rewrite list_lookup_alter_ne in Hv' by done.
    assert (v' = v) as -> by congruence. done.
Qed.

(** First pass: the dict holds one Variable per distinct left-hand name. *)
Lemma declare_names (xs : list string) (vs : list VariableNode) :
  NoDup (name <$> vs) →
  let vs' := fold_left (fun vars t =>
                          match variable_index vars t with
                          | Some _ => vars
                          | None => vars ++ [new_Variable t]
                          end) xs vs in
  NoDup (name <$> vs')
  ∧ ∀ x, x ∈ (name <$> vs') ↔ (x ∈ (name <$> vs) ∨ x ∈ xs).
Proof.
  revert vs. induction xs as [|t xs IH]; intros vs Hnd; simpl.
  - split; [done|]. intros x. rewrite elem_of_nil. naive_solver.
  - destruct (variable_index vs t) as [j|] eqn:Hj.
    + destruct (IH vs Hnd) as [Hnd' Hin]. split; [done|].
      intros x. rewrite Hin, elem_of_cons.
      apply variable_index_Some in Hj as (v & Hv & <-).
      assert (name v ∈ (name <$> vs)).
      { apply list_elem_of_fmap. exists v. split; [done|].
        by eapply list_elem_of_lookup_2. }
      naive_solver.
    + apply variable_index_None in Hj.
      destruct (IH (vs ++ [new_Variable t])) as [Hnd' Hin].
      { rewrite fmap_app. simpl. apply NoDup_app. split; [done|].
        split; [|apply NoDup_singleton].
        intros x Hx Hx'. apply list_elem_of_singleton in Hx'. by subst. }
      split; [done|]. intros x. rewrite Hin, fmap_app, elem_of_app, elem_of_cons.
      simpl. rewrite list_elem_of_singleton. naive_solver.
Qed.

Lemma declare_all_names (pts : list ParsedTerm) (vs : list VariableNode) :
  NoDup (name <$> vs) →
  NoDup (name <$> fold_left declare_variables pts vs)
  ∧ ∀ x, x ∈ (name <$> fold_left declare_variables pts vs) ↔
         (x ∈ (name <$> vs) ∨ ∃ pt, pt ∈ pts ∧ x ∈ var_name pt).
Proof.
  revert vs. induction pts as [|pt pts IH]; intros vs Hnd; simpl.
  - split; [done|]. intros x. split; [by left|].
    intros [?|(pt & Hpt & _)]; [done|]. by apply elem_of_nil in Hpt.
  - destruct (declare_names (var_name pt) vs Hnd) as [Hnd1 Hin1].
    destruct (IH (declare_variables vs pt) Hnd1) as [Hnd2 Hin2].
    split; [exact Hnd2|].
    assert (∀ x, x ∈ (name <$> declare_variables vs pt) ↔
                 (x ∈ (name <$> vs) ∨ x ∈ var_name pt)) as Hin1' by exact Hin1.
    intros x. rewrite Hin2, Hin1'.
    split.
    + intros [[?|?]|(pt' & Hpt' & Hx)]; [by left| |].
      * right. exists pt. split; [by left|done].
      * right. exists pt'. split; [by right|done].
    + intros [?|(pt' & Hpt' & Hx)]; [by left; left|].
      apply elem_of_cons in Hpt' as [->|Hpt']; [by left; right|].
      right. by exists pt'.
Qed.

(** Inner loop of the second pass: every name is found in the dict, the
    factor gets the variable's reference and the variable the factor's. *)
Lemma link_variables_spec fref (xs : list string) :
  ∀ (fac fac' : Factor) (vs vs' : list VariableNode),
    fold_result (link_variable fref) xs (fac, vs) = Ok (fac', vs') →
    grows vs vs'
    ∧ name fac' = name fac
    ∧ (∀ j, j ∈ neighbors fac → j ∈ neighbors fac')
    ∧ ∀ x, x ∈ xs →
        ∃ j (v' : Node), vs' !! j = Some v' ∧ name v' = x
                         ∧ j ∈ neighbors fac' ∧ fref ∈ neighbors v'.
Proof.
  induction xs as [|x xs IH]; intros fac fac' vs vs'; simpl.
  - intros [= <- <-]. split; [apply grows_refl|]. split; [done|].
    split; [done|]. intros x Hx. by apply elem_of_nil in Hx.
  - destruct (variable_index vs x) as [j|] eqn:Hj; simpl; [|done].
    intros Hrest. apply IH in Hrest as (Hg & Hn & Hfac & Hlinks).
    pose proof (grows_alter vs j fref) as Hg0.
    split; [by eapply grows_trans|]. split; [done|]. split.
    { intros k Hk. apply Hfac. simpl. apply elem_of_app. by left. }
    intros y Hy. apply elem_of_cons in Hy as [->|Hy]; [|by apply Hlinks].
    apply variable_index_Some in Hj as (v & Hv & Hvn).
    assert (alter (fun node => add_neighbor node fref) j vs !! j
            = Some (add_neighbor v fref)) as Hv1
      by (rewrite list_lookup_alter_eq; unfold VariableNode in *;
          by rewrite Hv).
    destruct (grows_lookup _ _ _ _ Hg Hv1) as (v' & Hv' & Hn' & Hs').
    exists j, v'. split; [done|]. split; [by rewrite Hn'|]. split.
    + apply Hfac. simpl. apply elem_of_app. right. by left.
    + apply Hs'. simpl. apply elem_of_app. right. by left.
Qed.

(** Outer loop of the second pass. *)
Lemma link_factors_spec (pts : list ParsedTerm) :
  ∀ (fs fs' : list Factor) (vs vs' : list VariableNode),
    fold_result link_factor pts (fs, vs) = Ok (fs', vs') →
    grows vs vs'
    ∧ ∃ new : list Factor,
        fs' = fs ++ new
        ∧ Forall2 (fun pt (fac : Factor) => name fac = term pt) pts new
        ∧ ∀ i pt (fac : Factor) x,
            pts !! i = Some pt → new !! i = Some fac → x ∈ identifiers pt →
            ∃ j (v' : Node), vs' !! j = Some v' ∧ name v' = x
                             ∧ j ∈ neighbors fac
                             ∧ (length fs + i)%nat ∈ neighbors v'.
Proof.
  induction pts as [|pt pts IH]; intros fs fs' vs vs'; simpl.
  - intros [= <- <-]. split; [apply grows_refl|]. exists [].
    split; [by rewrite app_nil_r|]. split; [constructor|]. intros i; done.
  - destruct (fold_result (link_variable (length fs)) (var_name pt ++ given pt)
                (new_Factor (term pt), vs)) as [[fac1 vs1]|] eqn:Hlink;
      simpl; [|done].
    intros Hrest. apply IH in Hrest as (Hg & new & -> & Hnames & Hlinks).
    apply link_variables_spec in Hlink as (Hg1 & Hn1 & _ & Hlinks1).
    split; [by eapply grows_trans|]. exists (fac1 :: new).
    split; [by rewrite <- app_assoc|]. split; [by constructor|].
    intros [|i] pt' fac x Hpt Hfac Hx; simpl in Hpt, Hfac.
    + injection Hpt as <-. injection Hfac as <-.
      destruct (Hlinks1 x Hx) as (j & v1 & Hv1 & Hvn & Hj & Hfref).
      destruct (grows_lookup _ _ _ _ Hg Hv1) as (v' & Hv' & Hn' & Hs').
      exists j, v'. split; [done|]. split; [congruence|]. split; [done|].
      rewrite Nat.add_0_r. by apply Hs'.
    + destruct (Hlinks i pt' fac x Hpt Hfac Hx) as (j & v' & Hv' & Hvn & Hj & Hi).
      exists j, v'. split; [done|]. split; [done|]. split; [done|].
      rewrite length_app in Hi. simpl in Hi.
      by replace (length fs + S i)%nat with (length fs + 1 + i)%nat by lia.
Qed.

(** Linking succeeds only when every identifier has a Variable. *)
Lemma link_factors_known (pts : list ParsedTerm) :
  ∀ (fs fs' : list Factor) (vs vs' : list VariableNode),
    fold_result link_factor pts (fs, vs) = Ok (fs', vs') →
    ∀ pt x, pt ∈ pts → x ∈ identifiers pt → x ∈ (name <$> vs).
Proof.
  intros fs fs' vs vs' Hrun pt x Hpt Hx.
  destruct (link_factors_spec pts fs fs' vs vs' Hrun)
    as (Hg & new & _ & Hnames & Hlinks).
  apply list_elem_of_lookup in Hpt as [i Hi].
  destruct (Forall2_lookup_l _ _ _ _ _ Hnames Hi) as (fac & Hfac & _).
  destruct (Hlinks i pt fac x Hi Hfac Hx) as (j & v' & Hv' & Hvn & _).
  rewrite <- (grows_names _ _ Hg). apply list_elem_of_fmap. exists v'.
  split; [done|]. by eapply list_elem_of_lookup_2.
Qed.

(** When the parser returns, the variables it returns are one node per
    distinct identifier of the terms, the factors are the terms in order,
    and every factor is linked both ways with the variable of each
    identifier of its term: the variable's reference is in the factor's
    neighbour list and the factor's reference in the variable's. *)
Lemma parser_links_every_identifier (model_string : string)
    (factors : list Factor) (variables : list VariableNode) :
  parse_model_into_variables_and_factors model_string
    = Ok (factors, variables) →
  ∃ parsed_terms,
    _parse_model_string_into_terms model_string = Ok parsed_terms
    ∧ NoDup (name <$> variables)
    ∧ (∀ x, x ∈ (name <$> variables) ↔
            ∃ pt, pt ∈ parsed_terms ∧ x ∈ identifiers pt)
    ∧ Forall2 (fun pt (fac : Factor) => name fac = term pt)
              parsed_terms factors
    ∧ ∀ i pt (fac : Factor) x,
        parsed_terms !! i = Some pt → factors !! i = Some fac →
        x ∈ identifiers pt →
        ∃ j (var : Node),
          variables !! j = Some var ∧ name var = x
          ∧ j ∈ neighbors fac ∧ i ∈ neighbors var.
Proof.
  unfold parse_model_into_variables_and_factors.
  destruct (_parse_model_string_into_terms model_string) as [pts|];
    simpl; [|done].
  intros Hrun. exists pts. split; [done|].
  destruct (declare_all_names pts [] (NoDup_nil_2)) as [Hnd Hin].
  pose proof (link_factors_known pts _ _ _ _ Hrun) as Hknown.
  destruct (link_factors_spec pts _ _ _ _ Hrun)
    as (Hg & new & Hnew & Hnames & Hlinks).
  simpl in Hnew. subst new.
  rewrite (grows_names _ _ Hg). split; [done|]. split; [|split; [done|]].
  - intros x. split.
    + intros Hx. apply Hin in Hx as [Hx|(pt & Hpt & Hx)];
        [by apply elem_of_nil in Hx|].
      exists pt. split; [done|]. apply elem_of_app. by left.
    + intros (pt & Hpt & Hx). by eapply Hknown.
  - intros i pt fac x Hpt Hfac Hx. by apply (Hlinks i pt fac x).
Qed.


(** ** Labelled tensors *)

Lemma dict_get_set {V} (d : list (string * V)) k v k' :
  dict_get (dict_set d k v) k' =
  if String.eqb k k' then Some v else dict_get d k'.
Proof.
  induction d as [|[k0 v0] d IH]; simpl.
  - done.
  - destruct (String.eqb_spec k0 k) as [->|Hne]; simpl.
    + destruct (String.eqb k k'); done.
    + rewrite IH. destruct (String.eqb_spec k0 k') as [->|Hne']; [|done].
      destruct (String.eqb_spec k k') as [->|?]; done.
Qed.

Lemma get_axes_fold (l : list string) (f : nat → nat) acc h :
  let r := fold_left (fun acc '(axis, name) => dict_set acc name axis)
                     (imap (fun axis name => (f axis, name)) l) acc in
  ((h ∉ l) ∧ dict_get r h = dict_get acc h)
  ∨ (∃ i, l !! i = Some h ∧ dict_get r h = Some (f i)).
Proof.
  revert f acc. induction l as [|x l IH]; intros f acc; simpl.
  - left. split; [apply not_elem_of_nil | done].
  - destruct (IH (f ∘ S) (dict_set acc x (f 0%nat))) as [[Hn Hg]|[i [Hi Hg]]].
    + destruct (decide (x = h)) as [->|Hne].
      * right. exists 0%nat. split; [done|].
        change (imap ((λ axis name0, (f axis, name0)) ∘ S) l)
          with (imap (λ axis name0, ((f ∘ S) axis, name0)) l).
        rewrite Hg, dict_get_set, String.eqb_refl. done.
      * left. split; [rewrite elem_of_cons; naive_solver|].
        change (imap ((λ axis name0, (f axis, name0)) ∘ S) l)
          with (imap (λ axis name0, ((f ∘ S) axis, name0)) l).
        rewrite Hg, dict_get_set.
        destruct (String.eqb_spec x h); done.
    + right. exists (S i). split; [done|]. exact Hg.
Qed.

Lemma get_axes_spec (d : Distribution) h :
  ((h ∉ axes_labels d) ∧ dict_get (get_axes d) h = None)
  ∨ (∃ i, axes_labels d !! i = Some h ∧ dict_get (get_axes d) h = Some i).
Proof. apply (get_axes_fold (axes_labels d) id [] h). Qed.

Lemma get_axes_head (d : Distribution) h l :
  axes_labels d = h :: l → head (map fst (get_axes d)) = Some h.
Proof.
  unfold get_axes. intros ->. simpl.
  generalize (imap ((λ axis name0, (axis, name0)) ∘ S) l).
  assert (∀ (l0 : list (nat * string)) acc v,
             head (map fst (fold_left
                              (λ acc '(axis, name0), dict_set acc name0 axis)
                              l0 ((h, v) :: acc))) = Some h) as H.
  { induction l0 as [|[a n] l0 IH]; intros acc v; simpl; [done|].
    destruct (String.eqb h n); apply IH. }
  intros l0. apply H.
Qed.

Lemma broadcast_rev_ones rs rt :
  Forall2 (fun a b => b = 1%nat ∨ b = a) rs rt → broadcast_rev rs rt = Some rs.
Proof.
  induction 1 as [|a b rs rt Hab _ IH]; simpl; [done|].
  rewrite IH. destruct Hab as [->| ->].
  - destruct (Nat.eqb_spec a 1) as [->|?]; [done|].
    destruct (Nat.eqb_spec a 1); done.
  - by rewrite Nat.eqb_refl.
Qed.

Lemma broadcast_shapes_ones s t :
  Forall2 (fun a b => b = 1%nat ∨ b = a) s t → broadcast_shapes s t = Some s.
Proof.
  intros H. unfold broadcast_shapes.
  rewrite broadcast_rev_ones by (by apply Forall2_reverse).
  simpl. f_equal. apply reverse_involutive.
Qed.

Lemma broadcast_shapes_scalar s : broadcast_shapes s [] = Some s.
Proof.
  unfold broadcast_shapes.
  assert (∀ rs rt, rt = [] → broadcast_rev rs rt = Some rs) as ->
    by (by intros [] ? ->).
  - simpl. f_equal. apply reverse_involutive.
  - done.
Qed.

Lemma dims_compatible (s : list nat) i n :
  s !! i = Some n →
  Forall2 (fun a b => b = 1%nat ∨ b = a) s (<[i := n]> (map (fun _ => 1%nat) s)).
Proof.
  revert i. induction s as [|a s IH]; intros i Hi; [done|].
  destruct i as [|i]; simpl in *.
  - injection Hi as ->. constructor; [by right|].
    clear. induction s; constructor; auto.
  - constructor; [by left | by apply IH].
Qed.

Lemma np_size_cons n s : np_size (n :: s) = (n * np_size s)%nat.
Proof. done. Qed.

Lemma np_size_ones (s : list nat) : np_size (map (fun _ => 1%nat) s) = 1%nat.
Proof.
  induction s as [|a s IH]; [done|].
  rewrite map_cons, np_size_cons, IH. done.
Qed.

Lemma np_size_dims (s : list nat) i n :
  s !! i = Some n → np_size (<[i := n]> (map (fun _ => 1%nat) s)) = n.
Proof.
  revert i. induction s as [|a s IH]; intros i Hi; [done|].
  destruct i as [|i].
  - injection Hi as ->. rewrite map_cons.
    change (np_size (n :: map (λ _ : nat, 1%nat) s) = n).
    rewrite np_size_cons, np_size_ones. lia.
  - rewrite map_cons.
    change (np_size (1%nat :: <[i:=n]> (map (λ _ : nat, 1%nat) s)) = n).
    rewrite np_size_cons, (IH i Hi). lia.
Qed.

(** What [multiply] does once the axis of [p_hi] is located. *)
Lemma multiply_located (a b : Distribution) h l i n :
  axes_labels b = h :: l →
  dict_get (get_axes a) h = Some i →
  shape (probs a) !! i = Some n →
  multiply a b =
    if bool_decide (shape (probs b) ≠ []) then
      if (np_size (shape (probs b)) =? n)%nat then
        let? prod := np_multiply (probs a)
                       (mk_ndarray (<[i := n]> (map (fun _ => 1%nat) (shape (probs a))))
                                   (data (probs b))) in
        Ok (mk_Distribution prod (axes_labels a))
      else Raise ValueError
    else
      let? prod := np_multiply (probs a) (probs b) in
      Ok (mk_Distribution prod (axes_labels a)).
Proof.
  intros Hb Hi Hn. unfold multiply.
  rewrite (get_axes_head b h l Hb). simpl. rewrite Hi. simpl. rewrite Hn. simpl.
  case_bool_decide; [|done].
  unfold np_reshape. rewrite (np_size_dims _ _ _ Hn).
  destruct (_ =? _)%nat; done.
Qed.

Lemma multiply_ok (a b : Distribution) h l i n :
  axes_labels b = h :: l →
  dict_get (get_axes a) h = Some i →
  shape (probs a) !! i = Some n →
  shape (probs b) = [] ∨ np_size (shape (probs b)) = n →
  ∃ d, multiply a b = Ok d ∧ axes_labels d = axes_labels a
       ∧ shape (probs d) = shape (probs a).
Proof.
  intros Hb Hi Hn Hs. rewrite (multiply_located a b h l i n Hb Hi Hn).
  case_bool_decide as Hne.
  - destruct Hs as [Hs| <-]; [done|]. rewrite Nat.eqb_refl.
    unfold np_multiply. simpl.
    rewrite (broadcast_shapes_ones _ _ (dims_compatible _ _ _ Hn)). simpl.
    eexists; split; [done|]. done.
  - unfold np_multiply. rewrite Hne, broadcast_shapes_scalar. simpl.
    eexists; split; [done|]. done.
Qed.

(** ** multiply *)

Lemma np_size_app s t : np_size (s ++ t) = (np_size s * np_size t)%nat.
Proof.
  induction s as [|a s IH]; [unfold np_size at 2; simpl; lia|].
  rewrite <- app_comm_cons, !np_size_cons, IH. lia.
Qed.

Lemma np_size_replicate k : np_size (replicate k 1%nat) = 1%nat.
Proof.
  induction k as [|k IH]; [done|].
  change (replicate (S k) 1%nat) with (1%nat :: replicate k 1%nat).
  rewrite np_size_cons, IH. done.
Qed.

Lemma np_size_single s m : single_dimension s m → np_size s = m ∧ s ≠ [].
Proof.
  intros (k1 & k2 & ->). split; [|by destruct k1].
  rewrite np_size_app, np_size_cons, !np_size_replicate. lia.
Qed.

(** C6. [multiply a b], for [b] with the single axis name [h], fails when
    [h] is not among [a]'s axis names (the dict lookup raises KeyError) and
    when [h] is among them but the one dimension [m] of [b] that is not
    degenerate differs from the size [n] of [a]'s axis [h] (the reshape
    raises ValueError).  These two exceptions are what the specification
    calls AxisMismatch. *)
Theorem multiply_rejects_mismatch (a b : Distribution) (h : string)
    (n m : nat) :
  axes_labels b = [h] →
  h ∉ axes_labels a
  ∨ (h ∈ axes_labels a
     ∧ (∀ j, axes_labels a !! j = Some h → shape (probs a) !! j = Some n)
     ∧ single_dimension (shape (probs b)) m ∧ m ≠ n) →
  multiply a b
  = Raise (if bool_decide (h ∈ axes_labels a) then ValueError else KeyError).
Proof.
  intros Hb [Hnot|(Hin & Hsize & Hshape & Hne)].
  - rewrite bool_decide_eq_false_2 by done. unfold multiply.
    rewrite (get_axes_head b h [] Hb). simpl.
    destruct (get_axes_spec a h) as [[_ ->]|(i & Hi & _)]; [done|].
    exfalso. apply Hnot. by eapply list_elem_of_lookup_2.
  - rewrite bool_decide_eq_true_2 by done.
    destruct (get_axes_spec a h) as [[Hnot _]|(i & Hi & Hget)]; [done|].
    rewrite (multiply_located a b h [] i n Hb Hget (Hsize i Hi)).
    apply np_size_single in Hshape as [Hm Hrank].
    rewrite bool_decide_eq_true_2, Hm by done.
    by destruct (Nat.eqb_spec m n).
Qed.

Lemma multiply_rejects_mismatch_witness :
  multiply p_v1_given_h1_demo
    (mk_Distribution (mk_ndarray [2]%nat [1#2; 1#2]%Q) ["h1"])
  = Raise (if bool_decide ("h1" ∈ axes_labels p_v1_given_h1_demo)
           then ValueError else KeyError).
Proof.
  apply (multiply_rejects_mismatch p_v1_given_h1_demo
           (mk_Distribution (mk_ndarray [2]%nat [1#2; 1#2]%Q) ["h1"])
           "h1" 3 2 eq_refl).
  right. split; [|split; [|split]].
  - simpl. rewrite !elem_of_cons. auto.
  - intros [|[|j]] Hj; try done.
  - by exists 0%nat, 0%nat.
  - lia.
Defined.

Example multiply_unknown_axis :
  multiply p_v1_given_h1_demo
    (mk_Distribution (mk_ndarray [3]%nat [6#10; 3#10; 1#10]%Q) ["h2"])
  = Raise KeyError.
Proof. reflexivity. Qed.

Example multiply_wrong_size :
  multiply p_v1_given_h1_demo
    (mk_Distribution (mk_ndarray [2]%nat [1#2; 1#2]%Q) ["h1"])
  = Raise ValueError.
Proof. reflexivity. Qed.

(** C7. When [b]'s single axis name [h] occurs among [a]'s axes, [a]'s axis
    [h] has size [n], and [b] has [n] as its one dimension or is a rank-0
    scalar, [multiply a b] returns a tensor with [a]'s sequence of axis
    labels and [a]'s shape. *)
Theorem multiply_keeps_labels_and_shape (a b : Distribution) (h : string)
    (n : nat) :
  axes_labels b = [h] →
  h ∈ axes_labels a →
  (∀ j, axes_labels a !! j = Some h → shape (probs a) !! j = Some n) →
  single_dimension (shape (probs b)) n ∨ shape (probs b) = [] →
  ∃ d, multiply a b = Ok d
       ∧ axes_labels d = axes_labels a
       ∧ shape (probs d) = shape (probs a).
Proof.
  intros Hb Hin Hsize Hshape.
  destruct (get_axes_spec a h) as [[Hnot _]|(i & Hi & Hget)]; [done|].
  apply (multiply_ok a b h [] i n Hb Hget (Hsize i Hi)).
  destruct Hshape as [Hone| ->]; [right|by left].
  by apply np_size_single in Hone as [Hm _].
Qed.

Lemma multiply_keeps_labels_and_shape_witness :
  ∃ d, multiply p_v1_given_h1_demo p_h1_demo = Ok d
       ∧ axes_labels d = axes_labels p_v1_given_h1_demo
       ∧ shape (probs d) = shape (probs p_v1_given_h1_demo).
Proof.
  apply (multiply_keeps_labels_and_shape p_v1_given_h1_demo p_h1_demo "h1" 3
           eq_refl).
  - simpl. rewrite !elem_of_cons. auto.
  - intros [|[|j]] Hj; try done.
  - left. by exists 0%nat, 0%nat.
Defined.

(** ** The footprint of the engine *)

Lemma stable_ret {A} (a : A) : stable (ret a).
Proof. intros w. done. Qed.

Lemma stable_raise {A} e : stable (@raise A e).
Proof. intros w. done. Qed.

Lemma stable_lift {A} (r : result A) : stable (lift r).
Proof. intros w. done. Qed.

Lemma stable_bind {A B} (c : M A) (k : A → M B) :
  stable c → (∀ a, stable (k a)) → stable (bind c k).
Proof.
  intros Hc Hk w. unfold bind. specialize (Hc w).
  destruct (c w) as [[a|e] w1]; simpl in *; [|done].
  destruct Hc as [Hg0 Hm0]. destruct (Hk a w1) as [Hg Hm]. split.
  - by rewrite Hg.
  - by etrans.
Qed.

Lemma stable_get_factor f : stable (get_factor f).
Proof. intros w. done. Qed.

Lemma stable_get_variable v : stable (get_variable v).
Proof. intros w. done. Qed.

Lemma stable_message_in key : stable (message_in key).
Proof. intros w. done. Qed.

Lemma stable_read_message key : stable (read_message key).
Proof. intros w. done. Qed.

Lemma stable_for_each {A B} (f : A → M B) l :
  (∀ a, stable (f a)) → stable (for_each f l).
Proof.
  intros Hf. induction l as [|a l IH]; simpl.
  - apply stable_ret.
  - apply stable_bind; [done|]. intros b.
    apply stable_bind; [done|]. intros bs. apply stable_ret.
Qed.

Lemma stable_for_fold {A S} (f : S → A → M S) l s :
  (∀ s a, stable (f s a)) → stable (for_fold f l s).
Proof.
  intros Hf. revert s. induction l as [|a l IH]; intros s; simpl.
  - apply stable_ret.
  - apply stable_bind; [done|]. intros s'. apply IH.
Qed.

(** The one place that writes: the write happens only for a key that was
    absent when the call began, so nothing that was there is replaced. *)
Lemma stable_memoised key compute : stable compute → stable (memoised key compute).
Proof.
  intros Hc w. unfold memoised, bind, message_in, read_message, store_message.
  simpl. case_bool_decide as Hin; simpl; [done|].
  destruct (Hc w) as [Hg Hm].
  destruct (compute w) as [[m|e] w1]; simpl in *; [|done].
  split; [done|].
  apply insert_subseteq_r; [|done].
  by apply eq_None_not_Some.
Qed.

Lemma stable__variable_to_factor_messages f2v v f :
  (∀ g u, stable (f2v g u)) → stable (_variable_to_factor_messages f2v v f).
Proof.
  intros H. unfold _variable_to_factor_messages.
  apply stable_bind; [apply stable_get_variable|]. intros var.
  apply stable_bind; [apply stable_get_factor|]. intros fac.
  apply stable_bind; [|intros; apply stable_lift].
  apply stable_for_each. intros g.
  apply stable_bind; [apply stable_get_factor|]. intros fac'.
  destruct (negb _); [|apply stable_ret].
  apply stable_bind; [apply H|]. intros; apply stable_ret.
Qed.

Lemma stable__factor_to_variable_messages v2f f v :
  (∀ u g, stable (v2f u g)) → stable (_factor_to_variable_messages v2f f v).
Proof.
  intros H. unfold _factor_to_variable_messages.
  apply stable_bind; [apply stable_get_factor|]. intros fac.
  apply stable_bind; [apply stable_get_variable|]. intros var.
  apply stable_bind; [apply stable_lift|]. intros fdata.
  apply stable_bind.
  - apply stable_for_fold. intros d u.
    apply stable_bind; [apply stable_get_variable|]. intros var'.
    destruct (String.eqb _ _); [apply stable_ret|].
    apply stable_bind; [apply H|]. intros; apply stable_lift.
  - intros d. apply stable_bind; [apply stable_lift|]. intros; apply stable_ret.
Qed.

Lemma stable_messages fuel :
  (∀ v f, stable (variable_to_factor_messages fuel v f))
  ∧ (∀ f v, stable (factor_to_variable_message fuel f v)).
Proof.
  induction fuel as [|fuel [IHv IHf]]; simpl.
  - split; intros; apply stable_raise.
  - split.
    + intros v f.
      apply stable_bind; [apply stable_get_variable|]. intros var.
      apply stable_bind; [apply stable_get_factor|]. intros fac.
      apply stable_memoised. by apply stable__variable_to_factor_messages.
    + intros f v.
      apply stable_bind; [apply stable_get_factor|]. intros fac.
      apply stable_bind; [apply stable_get_variable|]. intros var.
      apply stable_memoised. by apply stable__factor_to_variable_messages.
Qed.

Lemma stable_unnorm_p fuel v : stable (unnorm_p fuel v).
Proof.
  unfold unnorm_p.
  apply stable_bind; [apply stable_get_variable|]. intros var.
  apply stable_bind; [|intros; apply stable_lift].
  apply stable_for_each. intros g. apply stable_messages.
Qed.

Lemma stable_marginal fuel v : stable (marginal fuel v).
Proof.
  unfold marginal. apply stable_bind; [apply stable_unnorm_p|].
  intros; apply stable_ret.
Qed.

Lemma stable_get_node n : stable (get_node n).
Proof.
  destruct n; simpl; [|apply stable_get_variable].
  apply stable_bind; [apply stable_get_factor|]. intros; apply stable_ret.
Qed.

Lemma stable_sweep fuel nodes : stable (sweep fuel nodes).
Proof.
  unfold sweep. apply stable_bind; [|intros; apply stable_ret].
  apply stable_for_fold. intros s n.
  apply stable_bind; [apply stable_get_node|]. intros node.
  apply stable_for_fold. intros s' nb. unfold sweep_edge.
  apply stable_bind; [apply stable_get_node|]. intros nbn.
  case_bool_decide; [apply stable_ret|].
  apply stable_bind; [|intros; apply stable_ret].
  destruct n; apply stable_messages.
Qed.

Lemma stable_forward fuel : stable (forward fuel).
Proof. intros w. apply stable_sweep. Qed.

Lemma stable_backward fuel : stable (backward fuel).
Proof. intros w. apply stable_sweep. Qed.

Lemma stable_belief_propagation fuel : stable (belief_propagation fuel).
Proof.
  unfold belief_propagation.
  apply stable_bind; [apply stable_forward|]. intros _.
  apply stable_bind; [apply stable_backward|]. intros _.
  intros w. apply stable_for_fold. intros s v.
  apply stable_bind; [apply stable_get_variable|]. intros var.
  apply stable_bind; [apply stable_marginal|]. intros; apply stable_ret.
Qed.

(** ** What the engine leaves alone *)



(** C10. No message-passing operation touches the graph: after any of the
    six operations the factor list - every factor's name, neighbour list and
    bound tensor - and the variable dict - every variable's name and
    neighbour list - are what they were, whether the call returns or
    raises. *)
Theorem message_passing_leaves_graph_unchanged (fuel : nat) (op : operation)
    (w : World) :
  graph (world_after fuel op w) = graph w.
Proof.
  destruct op; simpl.
  - apply stable_messages.
  - apply stable_messages.
  - apply stable_marginal.
  - apply stable_forward.
  - apply stable_backward.
  - apply stable_belief_propagation.
Qed.

(** *** Non-negativity through the numpy operations *)

Lemma nth_nonneg (l : list Q) k : Forall (fun q => 0 <= q)%Q l → (0 <= nth k l 0)%Q.
Proof.
  intros H. revert k. induction H as [|q l Hq _ IH]; intros [|k]; simpl; done.
Qed.

Lemma sum_nonneg (l : list Q) : Forall (fun q => 0 <= q)%Q l → (0 <= foldr Qplus 0 l)%Q.
Proof.
  induction 1 as [|q l Hq _ IH]; simpl; [done|].
  replace 0%Q with (0 + 0)%Q by done. by apply Qplus_le_compat.
Qed.

Lemma np_multiply_nonneg a b r :
  nonneg a → nonneg b → np_multiply a b = Ok r → nonneg r.
Proof.
  unfold np_multiply, nonneg. intros Ha Hb.
  destruct (broadcast_shapes _ _) as [o|]; [|done].
  intros [= <-]. simpl. apply Forall_forall. intros q Hq.
  apply list_elem_of_In, in_map_iff in Hq as (k & <- & _).
  apply Qmult_le_0_compat; by apply nth_nonneg.
Qed.

Lemma sum_axis_spec k a n :
  shape a !! k = Some n →
  ∃ r, sum_axis k a = Ok r ∧ shape r = delete k (shape a) ∧ (nonneg a → nonneg r).
Proof.
  intros Hk. unfold sum_axis. rewrite Hk. eexists; split; [done|]. split.
  - simpl. by rewrite delete_take_drop.
  - unfold nonneg; simpl. intros Ha. apply Forall_forall. intros q Hq.
    apply list_elem_of_In, in_flat_map in Hq as (o & _ & Hq).
    apply in_map_iff in Hq as (i & <- & _).
    apply sum_nonneg, Forall_forall. intros q Hq.
    apply list_elem_of_In, in_map_iff in Hq as (j & <- & _).
    by apply nth_nonneg.
Qed.

Lemma np_sum_other_axes (l : list string) (x : string) :
  ∀ (s pre : list nat) (a : ndarray Q),
    shape a = pre ++ s → (length l ≤ length s)%nat →
    ∃ r, np_sum a
           (omap (fun '(axis, nm) => if String.eqb nm x then None else Some axis)
                 (imap (fun axis nm => ((length pre + axis)%nat, nm)) l)) = Ok r
         ∧ shape r = pre ++ kept_shape l s x
         ∧ (nonneg a → nonneg r).
Proof.
  induction l as [|nm l IH]; intros s pre a Ha Hlen.
  - exists a. simpl. destruct s; done.
  - destruct s as [|n s]; [simpl in Hlen; lia|].
    destruct (IH s (pre ++ [n]) a) as (r & Hr & Hs & Hnn).
    { by rewrite <- app_assoc. }
    { simpl in Hlen. lia. }
    assert (imap ((λ axis nm0, ((length pre + axis)%nat, nm0)) ∘ S) l
            = imap (λ axis nm0, ((length (pre ++ [n]) + axis)%nat, nm0)) l) as Himap.
    { apply imap_ext. intros i y _. simpl. rewrite length_app. simpl. f_equal. lia. }
    simpl. rewrite Himap.
    destruct (String.eqb nm x).
    + exists r. split; [done|]. split; [|done]. by rewrite Hs, <- app_assoc.
    + cut (∃ r0, rbind (Ok r) (sum_axis (length pre + 0)) = Ok r0
                   ∧ shape r0 = pre ++ kept_shape l s x ∧ (nonneg a → nonneg r0)).
      { intros H. rewrite <- Hr in H. exact H. }
      simpl.
      destruct (sum_axis_spec (length pre + 0) r n) as (r' & Hr' & Hs' & Hnn').
      { rewrite Hs, <- app_assoc, Nat.add_0_r. simpl.
        by rewrite lookup_app_r, Nat.sub_diag by lia. }
      exists r'. split; [done|]. split; [|by auto].
      rewrite Hs', Hs, <- app_assoc, Nat.add_0_r. simpl.
      apply delete_middle.
Qed.

Lemma kept_shape_other (l : list string) (s : list nat) x :
  x ∉ l → (length l ≤ length s)%nat → kept_shape l s x = drop (length l) s.
Proof.
  revert s. induction l as [|y l IH]; intros s Hx Hlen; [by destruct s|].
  destruct s as [|m s]; [simpl in Hlen; lia|].
  apply not_elem_of_cons in Hx as [Hne Hx]. simpl.
  destruct (String.eqb_spec y x) as [->|_]; [done|].
  apply IH; [done|]. simpl in Hlen. lia.
Qed.

Lemma kept_shape_unique (l : list string) (s : list nat) x i c :
  NoDup l → (length l ≤ length s)%nat → l !! i = Some x → s !! i = Some c →
  kept_shape l s x = c :: drop (length l) s.
Proof.
  revert s i. induction l as [|nm l IH]; intros s i Hnd Hlen Hl Hs; [done|].
  destruct s as [|n s]; [done|]. apply NoDup_cons in Hnd as [Hnm Hnd]. simpl.
  destruct i as [|i]; simpl in *.
  - injection Hl as ->. injection Hs as ->. rewrite String.eqb_refl. f_equal.
    apply kept_shape_other; [done|lia].
  - destruct (String.eqb_spec nm x) as [->|_].
    + exfalso. apply Hnm. by eapply list_elem_of_lookup_2.
    + eapply IH; eauto. lia.
Qed.

Lemma np_sum_to_variable (d : Distribution) (a : ndarray Q) x i c :
  NoDup (axes_labels d) →
  (length (axes_labels d) ≤ length (shape a))%nat →
  axes_labels d !! i = Some x → shape a !! i = Some c →
  ∃ r, np_sum a (get_other_axes_from d x) = Ok r
       ∧ shape r = c :: drop (length (axes_labels d)) (shape a)
       ∧ (nonneg a → nonneg r).
Proof.
  intros Hnd Hlen Hl Hs.
  destruct (np_sum_other_axes (axes_labels d) x (shape a) [] a)
    as (r & Hr & Hsh & Hnn); [done|lia|].
  exists r. split; [exact Hr|]. split; [|done].
  rewrite Hsh. simpl. by eapply kept_shape_unique.
Qed.

Lemma squeeze_message n (ones : list nat) :
  Forall (fun k => k = 1%nat) ones →
  filter (fun k => k ≠ 1%nat) (n :: ones) = message_shape n.
Proof.
  intros Hones. unfold message_shape.
  assert (filter (fun k => k ≠ 1%nat) ones = []) as Hnil.
  { induction Hones as [|k ones -> _ IH]; [done|].
    by rewrite filter_cons_False by (intros H; by apply H). }
  destruct (decide (n = 1%nat)) as [->|Hn].
  - rewrite !filter_cons_False by (intros H; by apply H). by rewrite Hnil.
  - rewrite !filter_cons_True by done. by rewrite Hnil.
Qed.

(** The labelled dimensions are dimensions. *)
Lemma labelled_dimensions (labels : list string) (s : list nat)
    (card : string → nat) :
  (∀ i x, labels !! i = Some x → s !! i = Some (card x)) →
  (length labels ≤ length s)%nat.
Proof.
  intros H. destruct labels as [|x0 labels _] using rev_ind; [simpl; lia|].
  rewrite length_app. simpl.
  assert ((labels ++ [x0]) !! length labels = Some x0) as Hl
    by (by rewrite lookup_app_r, Nat.sub_diag by lia).
  apply H, lookup_lt_Some in Hl. lia.
Qed.

Lemma zip_with_nonneg (l1 l2 : list Q) :
  Forall (fun q => 0 <= q)%Q l1 → Forall (fun q => 0 <= q)%Q l2 →
  Forall (fun q => 0 <= q)%Q (zip_with Qmult l1 l2).
Proof.
  intros H1. revert l2. induction H1 as [|q l1 Hq _ IH]; intros l2 H2; [done|].
  destruct H2 as [|q2 l2 Hq2 H2]; simpl; [done|].
  constructor; [by apply Qmult_le_0_compat | by apply IH].
Qed.

Lemma np_prod_spec (l : list (ndarray Q)) s :
  Forall (fun m => nonneg m ∧ shape m = s) l →
  ∃ r, np_prod l = Ok r ∧ nonneg r ∧ (shape r = s ∨ (l = [] ∧ shape r = [])).
Proof.
  intros Hl. destruct l as [|a l]; simpl.
  - eexists; split; [done|]. split; [|by right].
    unfold nonneg; simpl. repeat constructor. done.
  - apply Forall_cons in Hl as [[Ha Hs] Hl].
    assert (forallb (same_shape (shape a)) l = true) as ->.
    { apply forallb_forall. intros m Hm. apply list_elem_of_In in Hm.
      rewrite Forall_forall in Hl. destruct (Hl m Hm) as [_ Hsm].
      unfold same_shape. apply bool_decide_eq_true. congruence. }
    eexists; split; [done|]. split; [|by left].
    unfold nonneg in *. simpl. clear Hs. revert Ha.
    generalize (data a).
    induction Hl as [|m l [Hm _] _ IH]; intros acc Hacc; simpl; [done|].
    apply IH. by apply zip_with_nonneg.
Qed.

(** ** Running the engine on a bound tree *)

Lemma bind_ok {A B} (c : M A) (k : A → M B) w a w1 :
  c w = (Ok a, w1) → bind c k w = k a w1.
Proof. intros H. unfold bind. by rewrite H. Qed.

Lemma for_each_ok {A B} (R : World → World → Prop)
    (P : A → B → World → Prop) (f : A → M B) l :
  (∀ w1 w2 w3, R w1 w2 → R w2 w3 → R w1 w3) →
  (∀ w1 w2, R w1 w2 → R w2 w2) →
  (∀ a b w1 w2, P a b w1 → R w1 w2 → P a b w2) →
  ∀ w, R w w →
  (∀ a w1, a ∈ l → R w w1 →
     ∃ b w2, f a w1 = (Ok b, w2) ∧ R w1 w2 ∧ P a b w2) →
  ∃ bs w', for_each f l w = (Ok bs, w') ∧ R w w'
           ∧ Forall2 (fun a b => P a b w') l bs.
Proof.
  intros Htrans Hrefl Hstable. induction l as [|a l IH]; intros w Hw Hstep.
  - exists [], w. by repeat split.
  - destruct (Hstep a w) as (b & w2 & Hf & HR & HP); [by left|done|].
    destruct (IH w2) as (bs & w' & Hfs & HR' & HPs).
    { by eapply Hrefl. }
    { intros a' w1 Ha' HR1. apply Hstep; [by right|]. by eapply Htrans. }
    exists (b :: bs), w'. split; [|split].
    + simpl. rewrite (bind_ok _ _ _ _ _ Hf), (bind_ok _ _ _ _ _ Hfs). done.
    + by eapply Htrans.
    + constructor; [by eapply Hstable|done].
Qed.

Lemma for_fold_ok {A S} (R : World → World → Prop)
    (I : S → World → Prop) (f : S → A → M S) l :
  (∀ w1 w2 w3, R w1 w2 → R w2 w3 → R w1 w3) →
  (∀ w1 w2, R w1 w2 → R w2 w2) →
  ∀ s w, R w w → I s w →
  (∀ a s1 w1, a ∈ l → R w w1 → I s1 w1 →
     ∃ s2 w2, f s1 a w1 = (Ok s2, w2) ∧ R w1 w2 ∧ I s2 w2) →
  ∃ s' w', for_fold f l s w = (Ok s', w') ∧ R w w' ∧ I s' w'.
Proof.
  intros Htrans Hrefl. induction l as [|a l IH]; intros s w Hw Hs Hstep.
  - exists s, w. by repeat split.
  - destruct (Hstep a s w) as (s2 & w2 & Hf & HR & HI); [by left|done|done|].
    destruct (IH s2 w2) as (s' & w' & Hfs & HR' & HI').
    { by eapply Hrefl. }
    { done. }
    { intros a' s1 w1 Ha' HR1. apply Hstep; [by right|]. by eapply Htrans. }
    exists s', w'. split; [|split].
    + simpl. by rewrite (bind_ok _ _ _ _ _ Hf).
    + by eapply Htrans.
    + done.
Qed.

Lemma multiply_nonneg a b d :
  nonneg (probs a) → nonneg (probs b) → multiply a b = Ok d → nonneg (probs d).
Proof.
  unfold multiply. intros Ha Hb.
  destruct (of_option (head _) _) as [hi|]; [simpl|done].
  destruct (of_option (dict_get _ _) _) as [axis|]; [simpl|done].
  destruct (of_option (_ !! _) _) as [n|]; [simpl|done].
  case_bool_decide.
  - unfold np_reshape. destruct (_ =? _)%nat; [simpl|done].
    destruct (np_multiply _ _) as [r|] eqn:Hr; [simpl|done].
    intros [= <-]. simpl. eapply np_multiply_nonneg; [exact Ha| |exact Hr]. done.
  - simpl. destruct (np_multiply _ _) as [r|] eqn:Hr; [simpl|done].
    intros [= <-]. simpl. eapply np_multiply_nonneg; [exact Ha|exact Hb|exact Hr].
Qed.

Lemma message_shape_size n :
  message_shape n = [] ∨ np_size (message_shape n) = n.
Proof.
  unfold message_shape. destruct (decide (n = 1%nat)) as [->|Hn].
  - by left.
  - right. rewrite filter_cons_True by done. simpl. unfold np_size. simpl. lia.
Qed.

Section Tree.
Variables (g : PGM) (card : string → nat).
Variables (rank_vf rank_fv : nat → nat → nat).
Hypothesis Hbg : bound_graph g card.
Hypothesis Hrank : ranked g rank_vf rank_fv.

Lemma extends_trans w1 w2 w3 :
  extends g card w1 w2 → extends g card w2 w3 → extends g card w1 w3.
Proof. intros [_ H1] [Hok H2]. split; [done|]. by etrans. Qed.

Lemma extends_refl_r w1 w2 : extends g card w1 w2 → extends g card w2 w2.
Proof. intros [Hok _]. by split. Qed.

Lemma extends_refl w : session_ok g card w → extends g card w w.
Proof. intros Hok. by split. Qed.

Lemma get_variable_ok w v (var : VariableNode) :
  graph w = g → _variables g !! v = Some var → get_variable v w = (Ok var, w).
Proof. intros Hg Hv. unfold get_variable. by rewrite Hg, Hv. Qed.

Lemma get_factor_ok w f (fac : Factor) :
  graph w = g → _factors g !! f = Some fac → get_factor f w = (Ok fac, w).
Proof. intros Hg Hf. unfold get_factor. by rewrite Hg, Hf. Qed.

Lemma variable_is_name v (var : VariableNode) :
  _variables g !! v = Some var → is_variable_name g (name var).
Proof. intros H. exists var. split; [by eapply list_elem_of_lookup_2|done]. Qed.

Lemma factor_is_name f (fac : Factor) :
  _factors g !! f = Some fac → is_factor_name g (name fac).
Proof. intros H. exists fac. split; [by eapply list_elem_of_lookup_2|done]. Qed.

Lemma memoised_ok a b compute w :
  session_ok g card w →
  (messages w !! (a, b) = None →
   ∃ m w1, compute w = (Ok m, w1) ∧ extends g card w w1 ∧ entry_ok g card a b m) →
  ∃ m w', memoised (a, b) compute w = (Ok m, w') ∧ extends g card w w'
          ∧ messages w' !! (a, b) = Some m.
Proof.
  intros Hok Hcomp. unfold memoised, bind, message_in, read_message, store_message.
  simpl. destruct (messages w !! (a, b)) as [m|] eqn:Hm.
  - rewrite bool_decide_eq_true_2 by done. simpl. rewrite Hm. simpl.
    exists m, w. split; [done|]. split; [by apply extends_refl|done].
  - rewrite bool_decide_eq_false_2 by (by intros [? ?]).
    destruct (Hcomp eq_refl) as (m & w1 & -> & [[Hg Hc] Hsub] & Hentry). simpl.
    exists m, (mk_World (graph w1) (<[(a, b) := m]> (messages w1))).
    split; [by rewrite lookup_insert_eq|].
    split; [|by apply lookup_insert_eq].
    split; [split|]; simpl.
    + done.
    + intros a' b' m' Hl. destruct (decide ((a, b) = (a', b'))) as [[= <- <-]|Hne].
      * rewrite lookup_insert_eq in Hl. by injection Hl as <-.
      * rewrite lookup_insert_ne in Hl by done. by eapply Hc.
    + by apply insert_subseteq_r.
Qed.

Lemma v2f_step n v f (var : VariableNode) (fac : Factor) w :
  (∀ f' v' (fac' : Factor) (var' : VariableNode) w,
     session_ok g card w →
     _factors g !! f' = Some fac' → _variables g !! v' = Some var' →
     v' ∈ neighbors fac' → rank_fv f' v' < n →
     ∃ m w', factor_to_variable_message n f' v' w = (Ok m, w')
             ∧ extends g card w w'
             ∧ messages w' !! (name fac', name var') = Some m) →
  session_ok g card w →
  _variables g !! v = Some var → _factors g !! f = Some fac →
  f ∈ neighbors var → rank_vf v f < S n →
  ∃ m w', _variable_to_factor_messages (factor_to_variable_message n) v f w
            = (Ok m, w')
          ∧ extends g card w w' ∧ entry_ok g card (name var) (name fac) m.
Proof.
  intros IH Hok Hv Hf Hadj Hfuel. unfold _variable_to_factor_messages.
  rewrite (bind_ok _ _ _ _ _ (get_variable_ok w v var (proj1 Hok) Hv)).
  rewrite (bind_ok _ _ _ _ _ (get_factor_ok w f fac (proj1 Hok) Hf)).
  match goal with |- context [bind (for_each ?F ?L) _ ?W] =>
    destruct (for_each_ok (extends g card)
      (fun (_ : nat) (out : list (ndarray Q)) (_ : World) =>
         Forall (fun m => nonneg m ∧ shape m = message_shape (card (name var))) out)
      F L extends_trans extends_refl_r (fun _ _ _ _ H _ => H)
      W (extends_refl W Hok))
      as (bs & w' & Hrun & Hext & Hbs)
  end.
  { intros f' w1 Hf' Hext. cbv beta.
    destruct (bg_variable_refs g card Hbg var f') as [fac' Hfac'];
      [by eapply list_elem_of_lookup_2 | done |].
    rewrite (bind_ok _ _ _ _ _ (get_factor_ok w1 f' fac' (proj1 (proj1 Hext)) Hfac')).
    destruct (String.eqb_spec (name fac') (name fac)) as [Heq|Hne]; simpl.
    - exists [], w1. split; [done|]. split; [by eapply extends_refl_r|done].
    - destruct (IH f' v fac' var w1) as (m & w2 & Hm & Hext2 & Hlook).
      + exact (proj1 Hext).
      + done.
      + done.
      + by apply (bg_symmetric g card Hbg v f' var fac').
      + destruct Hrank as [Hr _].
        specialize (Hr v f f' var fac fac' Hv Hf Hadj Hf' Hfac' Hne). lia.
      + exists [m], w2. rewrite (bind_ok _ _ _ _ _ Hm).
        split; [done|]. split; [done|].
        destruct Hext2 as [[_ Hc] _].
        destruct (Hc _ _ _ Hlook) as (Hnn & Hshape & _).
        constructor; [|done]. split; [done|].
        apply Hshape; [by eapply factor_is_name | by eapply variable_is_name]. }
  rewrite (bind_ok _ _ _ _ _ Hrun).
  destruct (np_prod_spec (concat bs) (message_shape (card (name var))))
    as (r & Hr & Hnn & Hshape).
  { apply Forall_concat. clear -Hbs. induction Hbs; constructor; done. }
  exists r, w'. unfold lift. rewrite Hr. split; [done|]. split; [done|].
  split; [done|]. split.
  - intros Hfn _. exfalso.
    eapply (bg_disjoint_names g card Hbg); [by eapply variable_is_name|done].
  - intros _ _. destruct Hshape as [?|[_ ?]]; [by left|by right].
Qed.

Lemma f2v_step n f v (fac : Factor) (var : VariableNode) w :
  (∀ v' f' (var' : VariableNode) (fac' : Factor) w,
     session_ok g card w →
     _variables g !! v' = Some var' → _factors g !! f' = Some fac' →
     f' ∈ neighbors var' → rank_vf v' f' < n →
     ∃ m w', variable_to_factor_messages n v' f' w = (Ok m, w')
             ∧ extends g card w w'
             ∧ messages w' !! (name var', name fac') = Some m) →
  session_ok g card w →
  _factors g !! f = Some fac → _variables g !! v = Some var →
  v ∈ neighbors fac → rank_fv f v < S n →
  ∃ m w', _factor_to_variable_messages (variable_to_factor_messages n) f v w
            = (Ok m, w')
          ∧ extends g card w w' ∧ entry_ok g card (name fac) (name var) m.
Proof.
  intros IH Hok Hf Hv Hadj Hfuel. unfold _factor_to_variable_messages.
  rewrite (bind_ok _ _ _ _ _ (get_factor_ok w f fac (proj1 Hok) Hf)).
  rewrite (bind_ok _ _ _ _ _ (get_variable_ok w v var (proj1 Hok) Hv)).
  destruct (bg_data g card Hbg fac) as (d & Hd & Hnd & Hlen & Hlabels & Hcard & Hnn);
    [by eapply list_elem_of_lookup_2|].
  rewrite Hd. simpl of_option.
  rewrite (bind_ok (lift (Ok d)) _ w d w eq_refl).
  match goal with |- context [bind (for_fold ?F ?L ?S0) _ ?W] =>
    destruct (for_fold_ok (extends g card)
      (fun (D : Distribution) (_ : World) =>
         axes_labels D = axes_labels d ∧ shape (probs D) = shape (probs d)
         ∧ nonneg (probs D))
      F L extends_trans extends_refl_r S0 W (extends_refl W Hok))
      as (D & w' & Hrun & Hext & HlD & HsD & HnD)
  end.
  { by destruct d. }
  { intros u D w1 Hu Hext (HlD & HsD & HnD). cbv beta.
    destruct (bg_factor_refs g card Hbg fac u) as [var' Hvar'];
      [by eapply list_elem_of_lookup_2 | done |].
    rewrite (bind_ok _ _ _ _ _ (get_variable_ok w1 u var' (proj1 (proj1 Hext)) Hvar')).
    destruct (String.eqb_spec (name var') (name var)) as [Heq|Hne].
    - exists D, w1. split; [done|]. split; [by eapply extends_refl_r|done].
    - destruct (IH u f var' fac w1) as (m & w2 & Hm & Hext2 & Hlook).
      + exact (proj1 Hext).
      + done.
      + done.
      + by apply (bg_symmetric g card Hbg u f var' fac).
      + destruct Hrank as [_ Hr].
        specialize (Hr f v u fac var var' Hf Hv Hadj Hu Hvar' Hne). lia.
      + rewrite (bind_ok _ _ _ _ _ Hm). unfold lift.
        destruct Hext2 as [[Hg2 Hc] Hsub].
        destruct (Hc _ _ _ Hlook) as (Hnm & _ & Hshape).
        assert (name var' ∈ axes_labels d) as Hin.
        { apply Hlabels. by exists u, var'. }
        destruct (get_axes_spec D (name var')) as [[Hnot _]|(i & Hi & Hget)].
        { exfalso. apply Hnot. by rewrite HlD. }
        rewrite HlD in Hi.
        destruct (multiply_ok D (mk_Distribution m [name var']) (name var') [] i
                    (card (name var')))
          as (D' & HD' & HlD' & HsD'); [done|done|by rewrite HsD; apply Hcard| |].
        { simpl. destruct Hshape as [->| ->];
            [by eapply variable_is_name|by eapply factor_is_name| |by left].
          apply message_shape_size. }
        exists D', w2. rewrite HD'. split; [done|]. split; [by split|].
        split; [congruence|]. split; [congruence|].
        by eapply (multiply_nonneg D (mk_Distribution m [name var'])). }
  rewrite (bind_ok _ _ _ _ _ Hrun).
  assert (name var ∈ axes_labels d) as Hin by (apply Hlabels; by exists v, var).
  apply list_elem_of_lookup in Hin as [i Hi].
  destruct (np_sum_to_variable d (probs D) (name var) i (card (name var)))
    as (r & Hr & Hshape & Hnnr);
    [done
    |rewrite HsD; by eapply labelled_dimensions
    |done|by rewrite HsD; apply Hcard|].
  unfold lift at 1. rewrite Hr.
  exists (np_squeeze r), w'. split; [done|]. split; [done|].
  split; [by apply Hnnr|]. split.
  - intros _ _. unfold np_squeeze. simpl. rewrite Hshape, HsD.
    by apply squeeze_message.
  - intros Hvn _. exfalso.
    eapply (bg_disjoint_names g card Hbg); [exact Hvn|by eapply factor_is_name].
Qed.

(** On a bound tree both message functions return, given a stack deeper
    than the rank of the message; they leave a session in good order, keep
    what was cached, and what they return is what the cache then holds. *)
Lemma messages_ok fuel :
  (∀ v f (var : VariableNode) (fac : Factor) w,
     session_ok g card w →
     _variables g !! v = Some var → _factors g !! f = Some fac →
     f ∈ neighbors var → rank_vf v f < fuel →
     ∃ m w', variable_to_factor_messages fuel v f w = (Ok m, w')
             ∧ extends g card w w'
             ∧ messages w' !! (name var, name fac) = Some m)
  ∧ (∀ f v (fac : Factor) (var : VariableNode) w,
     session_ok g card w →
     _factors g !! f = Some fac → _variables g !! v = Some var →
     v ∈ neighbors fac → rank_fv f v < fuel →
     ∃ m w', factor_to_variable_message fuel f v w = (Ok m, w')
             ∧ extends g card w w'
             ∧ messages w' !! (name fac, name var) = Some m).
Proof.
  induction fuel as [|n [IHv IHf]].
  - split; intros; lia.
  - split.
    + intros v f var fac w Hok Hv Hf Hadj Hfuel. simpl.
      rewrite (bind_ok _ _ _ _ _ (get_variable_ok w v var (proj1 Hok) Hv)).
      rewrite (bind_ok _ _ _ _ _ (get_factor_ok w f fac (proj1 Hok) Hf)).
      apply memoised_ok; [done|]. intros _. by eapply v2f_step.
    + intros f v fac var w Hok Hf Hv Hadj Hfuel. simpl.
      rewrite (bind_ok _ _ _ _ _ (get_factor_ok w f fac (proj1 Hok) Hf)).
      rewrite (bind_ok _ _ _ _ _ (get_variable_ok w v var (proj1 Hok) Hv)).
      apply memoised_ok; [done|]. intros _. by eapply f2v_step.
Qed.
End Tree.

(** ** Marginals *)

(** A cached message is returned as it is, and nothing is written. *)
Lemma cached_factor_to_variable_message n f v (fac : Factor)
    (var : VariableNode) m w :
  _factors (graph w) !! f = Some fac → _variables (graph w) !! v = Some var →
  messages w !! (name fac, name var) = Some m →
  factor_to_variable_message (S n) f v w = (Ok m, w).
Proof.
  intros Hf Hv Hm. simpl.
  unfold bind, get_factor, get_variable, memoised, bind, message_in, read_message.
  rewrite Hf, Hv. simpl. rewrite Hm.
  rewrite bool_decide_eq_true_2 by done. simpl. by rewrite Hm.
Qed.

Lemma for_each_unchanged {A B} (f : A → M B) l bs w :
  Forall2 (fun a b => f a w = (Ok b, w)) l bs → for_each f l w = (Ok bs, w).
Proof.
  induction 1 as [|a b l bs Hab _ IH]; simpl; [done|].
  by rewrite (bind_ok _ _ _ _ _ Hab), (bind_ok _ _ _ _ _ IH).
Qed.

Lemma hand_marginal_cached w var msgs u :
  cached_incoming w var msgs → np_prod msgs = Ok u →
  hand_marginal w var = Some (np_true_divide u (np_sum_all u)).
Proof.
  intros Hc Hu. unfold hand_marginal.
  assert (mapM (fun f' => fac' ← _factors (graph w) !! f';
                          messages w !! (name (f_node fac'), name var))
               (neighbors var) = Some msgs) as ->.
  { apply mapM_Some. eapply Forall2_impl; [exact Hc|].
    intros f' m (fac' & Hf' & Hm). simpl. rewrite Hf'. simpl. done. }
  simpl. by rewrite Hu.
Qed.

Lemma cached_incoming_weaken w w' var msgs :
  graph w' = graph w → messages w ⊆ messages w' →
  cached_incoming w var msgs → cached_incoming w' var msgs.
Proof.
  intros Hg Hsub Hc. eapply Forall2_impl; [exact Hc|].
  intros f' m (fac' & Hf' & Hm). exists fac'. rewrite Hg. split; [done|].
  by eapply lookup_weaken.
Qed.

(** Calling [marginal] on a world where the incoming messages are cached
    reads them and changes nothing. *)
Lemma unnorm_p_cached n v (var : VariableNode) w msgs :
  _variables (graph w) !! v = Some var → cached_incoming w var msgs →
  unnorm_p (S n) v w = (np_prod msgs, w).
Proof.
  intros Hv Hc. unfold unnorm_p.
  assert (get_variable v w = (Ok var, w)) as Hgv
    by (unfold get_variable; by rewrite Hv).
  rewrite (bind_ok _ _ _ _ _ Hgv).
  assert (for_each (fun f' => factor_to_variable_message (S n) f' v) (neighbors var) w
          = (Ok msgs, w)) as Hfe.
  { apply for_each_unchanged. eapply Forall2_impl; [exact Hc|].
    intros f' m (fac' & Hf' & Hm). by eapply cached_factor_to_variable_message. }
  by rewrite (bind_ok _ _ _ _ _ Hfe).
Qed.

Section TreeMarginal.
Variables (g : PGM) (card : string → nat) (depth fuel : nat).
Hypothesis Hbg : bound_graph g card.
Hypothesis Htree : tree_shaped g depth.
Hypothesis Hfuel : (depth ≤ fuel)%nat.

Lemma fuel_positive : ∃ n, fuel = S n.
Proof.
  destruct Htree as (rv & _ & _ & Hrv & _). specialize (Hrv 0 0).
  destruct fuel; [lia|by eexists].
Qed.

Lemma unnorm_p_ok v (var : VariableNode) w :
  session_ok g card w → _variables g !! v = Some var →
  ∃ msgs u w', unnorm_p fuel v w = (Ok u, w') ∧ extends g card w w'
               ∧ cached_incoming w' var msgs ∧ np_prod msgs = Ok u
               ∧ nonneg u.
Proof.
  intros Hok Hv. destruct Htree as (rv & rf & Hrank & Hrv & Hrf).
  unfold unnorm_p.
  rewrite (bind_ok _ _ _ _ _ (get_variable_ok g w v var (proj1 Hok) Hv)).
  match goal with |- context [bind (for_each ?F ?L) _ ?W] =>
    destruct (for_each_ok (extends g card)
      (fun (f' : nat) (m : ndarray Q) (w' : World) =>
         ∃ fac' : Factor, _factors g !! f' = Some fac'
                          ∧ messages w' !! (name fac', name var) = Some m)
      F L (extends_trans g card) (extends_refl_r g card))
      with (w := W) as (msgs & w' & Hrun & Hext & Hmsgs)
  end.
  { intros f' m w1 w2 (fac' & Hf' & Hm) [[Hg2 _] Hsub].
    exists fac'. split; [done|by eapply lookup_weaken]. }
  { by apply extends_refl. }
  { intros f' w1 Hf' Hext.
    destruct (bg_variable_refs g card Hbg var f') as [fac' Hfac'];
      [by eapply list_elem_of_lookup_2 | done |].
    destruct (proj2 (messages_ok g card rv rf Hbg Hrank fuel) f' v fac' var w1)
      as (m & w2 & Hm & Hext2 & Hlook).
    - exact (proj1 Hext).
    - done.
    - done.
    - by apply (bg_symmetric g card Hbg v f' var fac').
    - specialize (Hrf f' v). lia.
    - exists m, w2. split; [done|]. split; [done|]. by exists fac'. }
  rewrite (bind_ok _ _ _ _ _ Hrun).
  destruct (np_prod_spec msgs (message_shape (card (name var))))
    as (u & Hu & Hnn & _).
  { destruct Hext as [[Hg' Hc] _]. clear Hrun.
    induction Hmsgs as [|f' m fs ms (fac' & Hf' & Hm) _ IH]; constructor; [|done].
    destruct (Hc _ _ _ Hm) as (Hnn & Hshape & _). split; [done|].
    apply Hshape; [by eapply factor_is_name | by eapply variable_is_name]. }
  exists msgs, u, w'. unfold lift. rewrite Hu.
  split; [done|]. split; [done|]. split; [|done].
  unfold cached_incoming. by rewrite (proj1 (proj1 Hext)).
Qed.
End TreeMarginal.

(** *** Normalisation *)

Lemma float_div_finite x s : ¬ (s == 0)%Q → float_div x s = Finite (x / s).
Proof.
  intros Hs. unfold float_div. destruct (Qeq_bool s 0) eqn:E; [|done].
  apply Qeq_bool_iff in E. done.
Qed.

Lemma sum_divided (l : list Q) s :
  ¬ (s == 0)%Q →
  (foldr Qplus 0 (map (fun x => x / s) l) == foldr Qplus 0 l / s)%Q.
Proof.
  intros Hs. induction l as [|x l IH]; simpl.
  - field. done.
  - rewrite IH. field. done.
Qed.

Lemma normalised (u : ndarray Q) :
  nonneg u → ¬ (np_sum_all u == 0)%Q →
  ∃ qs, data (np_true_divide u (np_sum_all u)) = map Finite qs
        ∧ Forall (fun q => 0 <= q)%Q qs
        ∧ (foldr Qplus 0 qs == 1)%Q.
Proof.
  intros Hnn Hs. exists (map (fun x => x / np_sum_all u)%Q (data u)).
  split; [|split].
  - unfold np_true_divide. simpl. rewrite map_map. apply map_ext.
    intros x. by apply float_div_finite.
  - assert (0 < np_sum_all u)%Q as Hpos.
    { pose proof (sum_nonneg (data u) Hnn) as Hle.
      apply Qle_lt_or_eq in Hle as [?|Heq]; [done|].
      exfalso. apply Hs. by symmetry. }
    apply Forall_map. eapply Forall_impl; [exact Hnn|]. intros x Hx. simpl.
    apply Qle_shift_div_l; [done|]. by rewrite Qmult_0_l.
  - rewrite sum_divided by done. unfold np_sum_all. field. exact Hs.
Qed.


(** ** The demonstration forest *)

Example forest_world_built :
  new_session "p(a)p(b|a)p(c)" forest_dists = Ok forest_world.
Proof. reflexivity. Qed.

Ltac in_list :=
  repeat match goal with
         | H : _ ∈ _ :: _ |- _ => apply elem_of_cons in H as [H|H]
         | H : _ ∈ [] |- _ => by apply elem_of_nil in H
         end.

Ltac distinct_list :=
  repeat (apply NoDup_cons; split;
          [rewrite ?elem_of_cons, elem_of_nil; intros H;
           repeat (destruct H as [H|H]); done|]);
  apply NoDup_nil_2.

Lemma forest_bound : bound_graph forest_graph forest_card.
Proof.
  split.
  - intros fac v Hfac Hv. simpl in Hfac. in_list; subst; simpl in Hv; in_list;
      subst; by eexists.
  - intros var f Hvar Hf. simpl in Hvar. in_list; subst; simpl in Hf; in_list;
      subst; by eexists.
  - intros v f var fac Hv Hf.
    destruct v as [|[|[|v]]]; [| | |done];
      (destruct f as [|[|[|f]]]; [| | |done]);
      injection Hv as <-; injection Hf as <-; simpl;
      rewrite ?elem_of_cons, ?elem_of_nil; split; intros H;
      repeat (destruct H as [H|H]); try done; auto.
  - simpl. distinct_list.
  - intros x (var & Hvar & Hx) (fac & Hfac & Hx'). simpl in Hvar, Hfac.
    in_list; subst; done.
  - intros fac Hfac. simpl in Hfac. in_list; subst; simpl;
      (eexists; split; [done|]); unfold tensor_ok; simpl.
    all: split; [distinct_list|].
    all: split; [by constructor|].
    all: split; [|split; [|unfold nonneg; simpl; repeat constructor; done]].
    all: try (intros [|[|i]] x Hi; try done; by injection Hi as <-).
    + intros x. rewrite ?elem_of_cons, elem_of_nil. split.
      * intros [->|[]]. exists 0%nat, (mk_Node "a" [0; 1]%nat).
        rewrite ?elem_of_cons. auto.
      * intros (v & var & Hv & Hl & <-). in_list; subst; injection Hl as <-; auto.
    + intros x. rewrite ?elem_of_cons, elem_of_nil. split.
      * intros [->|[->|[]]].
        -- exists 1%nat, (mk_Node "b" [1]%nat). rewrite ?elem_of_cons. auto.
        -- exists 0%nat, (mk_Node "a" [0; 1]%nat). rewrite ?elem_of_cons. auto.
      * intros (v & var & Hv & Hl & <-). in_list; subst; injection Hl as <-; auto.
    + intros x. rewrite ?elem_of_cons, elem_of_nil. split.
      * intros [->|[]]. exists 2%nat, (mk_Node "c" [2]%nat).
        rewrite ?elem_of_cons. auto.
      * intros (v & var & Hv & Hl & <-). in_list; subst; injection Hl as <-; auto.
Qed.

Lemma forest_ranked : ranked forest_graph forest_rank_vf forest_rank_fv.
Proof.
  split.
  - intros v f f' var fac fac' Hv Hf Hadj Hadj' Hf' Hne.
    destruct v as [|[|[|v]]]; [| | |done]; injection Hv as <-;
      simpl in Hadj, Hadj'; in_list; subst;
      injection Hf as <-; injection Hf' as <-; simpl in *; done || lia.
  - intros f v u fac var var' Hf Hv Hadj Hadj' Hu Hne.
    destruct f as [|[|[|f]]]; [| | |done]; injection Hf as <-;
      simpl in Hadj, Hadj'; in_list; subst;
      injection Hv as <-; injection Hu as <-; simpl in *; done || lia.
Qed.

Lemma forest_tree : tree_shaped forest_graph 3.
Proof.
  exists forest_rank_vf, forest_rank_fv. split; [exact forest_ranked|].
  split.
  - intros [|[|v]] [|[|f]]; simpl; lia.
  - intros [|[|f]] [|[|v]]; simpl; lia.
Qed.

Lemma cache_ok_empty g card : cache_ok g card ∅.
Proof. intros a b m H. by rewrite lookup_empty in H. Qed.

Lemma forest_session : session_ok forest_graph forest_card forest_world.
Proof. split; [done|apply cache_ok_empty]. Qed.

(** A graph with a cycle has no ranks: [tree_shaped] excludes it, and the
    engine does not return on it. *)
Lemma cycle_is_not_tree depth : ¬ tree_shaped cycle_graph depth.
Proof.
  intros (rv & rf & [Hv Hf] & _).
  assert (rf 1 0 < rv 0 0)%nat as H1.
  { eapply (Hv 0 0 1)%nat; [reflexivity|reflexivity| | |reflexivity|done];
      simpl; rewrite !elem_of_cons; auto. }
  assert (rv 1 1 < rf 1 0)%nat as H2.
  { eapply (Hf 1 0 1)%nat; [reflexivity|reflexivity| | |reflexivity|done];
      simpl; rewrite !elem_of_cons; auto. }
  assert (rf 0 1 < rv 1 1)%nat as H3.
  { eapply (Hv 1 1 0)%nat; [reflexivity|reflexivity| | |reflexivity|done];
      simpl; rewrite !elem_of_cons; auto. }
  assert (rv 0 0 < rf 0 1)%nat as H4.
  { eapply (Hf 0 1 0)%nat; [reflexivity|reflexivity| | |reflexivity|done];
      simpl; rewrite !elem_of_cons; auto. }
  lia.
Qed.

Example cycle_recursion_error :
  from_string "p(a,b)p(b,a)"
  = Ok (mk_PGM (map (fun fac : Factor => mk_Factor (f_node fac) None)
                    (_factors cycle_graph))
               (_variables cycle_graph))
  ∧ (marginal 200 0 (mk_World cycle_graph ∅)).1 = Raise RecursionError.
Proof. split; vm_compute; reflexivity. Qed.

(** ** The marginal of a variable *)

(** What the engine's [np.prod] and [/] compute, in the words of the
    specification. *)
Lemma np_prod_entrywise (msgs : list (ndarray Q)) (u : ndarray Q) :
  np_prod msgs = Ok u → u = entrywise_product msgs.
Proof.
  destruct msgs as [|m rest]; simpl; [by intros [= <-]|].
  destruct (forallb _ rest); [by intros [= <-]|done].
Qed.

Lemma np_true_divide_by_total (u : ndarray Q) :
  np_true_divide u (np_sum_all u) = divided_by_total u.
Proof. reflexivity. Qed.

(** The shape of the product of the messages cached for a variable with a
    neighbour. *)
Lemma incoming_product_shape (g : PGM) (card : string → nat) (w : World)
    (v : nat) (var : VariableNode) (msgs : list (ndarray Q)) :
  session_ok g card w → _variables g !! v = Some var →
  cached_incoming w var msgs → neighbors var ≠ [] →
  shape (entrywise_product msgs) = message_shape (card (name var)).
Proof.
  intros [Hg Hcache] Hv Hc Hnb. unfold cached_incoming in Hc.
  destruct Hc as [|f m fs rest (fac & Hfac & Hm) _]; [done|]. simpl.
  destruct (Hcache _ _ _ Hm) as (_ & Hshape & _). apply Hshape.
  - rewrite Hg in Hfac. by eapply factor_is_name.
  - by eapply variable_is_name.
Qed.

(** C1, as the code has it. On a tree-shaped graph whose factors are bound
    to non-negative tensors, [marginal v] returns for every variable [v] of
    the graph (given a call stack as deep as the tree).  What it returns is
    the product of the messages of the neighbouring factors - which the call
    leaves in the cache - divided, entry by entry, by the total of that
    product: a vector over the states of [v] (for a variable with a
    neighbour), whose entries no guard keeps from being nan when the total
    is zero. *)
Theorem marginal_divides_by_the_total (g : PGM) (card : string → nat)
    (depth fuel : nat) (w : World) (v : nat) (var : VariableNode) :
  bound_graph g card → tree_shaped g depth → (depth ≤ fuel)%nat →
  session_ok g card w → _variables g !! v = Some var →
  ∃ msgs p w',
    marginal fuel v w = (Ok p, w')
    ∧ cached_incoming w' var msgs
    ∧ p = divided_by_total (entrywise_product msgs)
    ∧ (neighbors var ≠ [] → shape p = message_shape (card (name var))).
Proof.
  intros Hbg Htree Hfuel Hok Hv.
  destruct (unnorm_p_ok g card depth fuel Hbg Htree Hfuel v var w Hok Hv)
    as (msgs & u & w' & Hu & Hext & Hcached & Hprod & _).
  apply np_prod_entrywise in Hprod. subst u.
  exists msgs, (divided_by_total (entrywise_product msgs)), w'.
  split; [|split; [done|split; [done|]]].
  - unfold marginal. rewrite (bind_ok _ _ _ _ _ Hu).
    by rewrite <- np_true_divide_by_total.
  - intros Hnb. simpl.
    by apply (incoming_product_shape g card w' v var msgs (proj1 Hext)).
Qed.

Lemma marginal_divides_by_the_total_witness :
  ∃ msgs p w',
    marginal 3 1 forest_world = (Ok p, w')
    ∧ cached_incoming w' (mk_Node "b" [1]%nat) msgs
    ∧ p = divided_by_total (entrywise_product msgs)
    ∧ (neighbors (mk_Node "b" [1]%nat) ≠ [] →
       shape p = message_shape (forest_card (name (mk_Node "b" [1]%nat)))).
Proof.
  apply (marginal_divides_by_the_total forest_graph forest_card 3 3
           forest_world 1 (mk_Node "b" [1]%nat)
           forest_bound forest_tree (le_n 3) forest_session eq_refl).
Defined.

(** In exact arithmetic - the entries are rationals here - such a quotient
    by a total that is not zero has non-negative entries that sum to 1. *)
Lemma divided_by_total_exact (u : ndarray Q) :
  nonneg u → ¬ (foldr Qplus 0 (data u) == 0)%Q →
  ∃ qs, data (divided_by_total u) = map Finite qs
        ∧ Forall (fun q => 0 <= q)%Q qs
        ∧ (foldr Qplus 0 qs == 1)%Q.
Proof. intros Hnn Hs. rewrite <- np_true_divide_by_total. by apply normalised. Qed.

(** The entries of that witness: p(b) = (0.41, 0.59). *)
Example forest_marginal_b :
  match marginal 3 1 forest_world with
  | (Ok p, _) => shape p = [2]%nat
                 ∧ ∃ x y, data p = [Finite x; Finite y]
                          ∧ (x == 41 # 100)%Q ∧ (y == 59 # 100)%Q
  | _ => False
  end.
Proof. vm_compute. split; [done|]. eexists _, _. split; [done|]. done. Qed.

(** C1 fails as stated: [c]'s only factor is identically zero - a
    non-negative tensor on a tree - and [marginal c] is [nan, nan], not a
    vector of non-negative numbers that sum to 1. *)
Lemma marginal_of_zero_factor_is_nan :
  bound_graph forest_graph forest_card
  ∧ tree_shaped forest_graph 3
  ∧ session_ok forest_graph forest_card forest_world
  ∧ ∃ p w',
      marginal 3 2 forest_world = (Ok p, w')
      ∧ p = mk_ndarray [2]%nat [NaN; NaN]
      ∧ ¬ ∃ qs, data p = map Finite qs
                ∧ Forall (fun q => 0 <= q)%Q qs
                ∧ (foldr Qplus 0 qs == 1)%Q.
Proof.
  split; [exact forest_bound|]. split; [exact forest_tree|].
  split; [exact forest_session|].
  eexists _, _. split; [vm_compute; reflexivity|]. split; [reflexivity|].
  intros ([|q qs] & Hdata & _); simpl in Hdata; discriminate.
Qed.





(** C5. On a bound tree, [marginal v] returns, and calling it again on the
    world it left returns the identical vector and leaves the identical
    world: the second call adds, removes and changes no cache entry. *)
Theorem marginal_is_idempotent (g : PGM) (card : string → nat)
    (depth fuel : nat) (w : World) (v : nat) (var : VariableNode) :
  bound_graph g card → tree_shaped g depth → (depth ≤ fuel)%nat →
  session_ok g card w → _variables g !! v = Some var →
  ∃ p w1,
    marginal fuel v w = (Ok p, w1)
    ∧ marginal fuel v w1 = (Ok p, w1).
Proof.
  intros Hbg Htree Hfuel Hok Hv.
  destruct (unnorm_p_ok g card depth fuel Hbg Htree Hfuel v var w Hok Hv)
    as (msgs & u & w1 & Hu & [[Hg1 _] _] & Hcached & Hprod & _).
  destruct (fuel_positive g depth fuel Htree Hfuel) as [n ->].
  exists (np_true_divide u (np_sum_all u)), w1. split.
  - unfold marginal. by rewrite (bind_ok _ _ _ _ _ Hu).
  - unfold marginal.
    rewrite (bind_ok _ _ w1 u w1); [done|].
    rewrite (unnorm_p_cached n v var w1 msgs); [by rewrite Hprod| |done].
    by rewrite Hg1.
Qed.

Lemma marginal_is_idempotent_witness :
  ∃ p w1,
    marginal 3 0 forest_world = (Ok p, w1)
    ∧ marginal 3 0 w1 = (Ok p, w1).
Proof.
  apply (marginal_is_idempotent forest_graph forest_card 3 3 forest_world 0
           (mk_Node "a" [0; 1]%nat)
           forest_bound forest_tree (le_n 3) forest_session eq_refl).
Defined.

(** ** Sweeps and belief propagation *)

Lemma for_fold_inv {A S} (R : S * World → S * World → Prop)
    (P : A → S * World → Prop) (f : S → A → M S) l :
  (∀ x y z, R x y → R y z → R x z) →
  (∀ x y, R x y → R y y) →
  (∀ a x y, P a x → R x y → P a y) →
  ∀ s w, R (s, w) (s, w) →
  (∀ a s1 w1, a ∈ l → R (s, w) (s1, w1) →
     ∃ s2 w2, f s1 a w1 = (Ok s2, w2) ∧ R (s1, w1) (s2, w2) ∧ P a (s2, w2)) →
  ∃ s' w', for_fold f l s w = (Ok s', w') ∧ R (s, w) (s', w')
           ∧ Forall (fun a => P a (s', w')) l.
Proof.
  intros Htrans Hrefl Hstable. induction l as [|a l IH]; intros s w Hw Hstep.
  - exists s, w. by repeat split.
  - destruct (Hstep a s w) as (s2 & w2 & Hf & HR & HP); [by left|done|].
    destruct (IH s2 w2) as (s' & w' & Hfs & HR' & HPs).
    { by eapply Hrefl. }
    { intros a' s1 w1 Ha' HR1. apply Hstep; [by right|]. by eapply Htrans. }
    exists s', w'. split; [|split].
    + simpl. by rewrite (bind_ok _ _ _ _ _ Hf).
    + by eapply Htrans.
    + constructor; [by eapply Hstable|done].
Qed.

Lemma all_nodes_valid (g : PGM) n : n ∈ all_nodes g → ∃ node, node_of g n node.
Proof.
  unfold all_nodes. rewrite elem_of_app, !list_elem_of_fmap.
  intros [(f & -> & Hf)|(v & -> & Hv)];
    apply elem_of_seq in Hf || apply elem_of_seq in Hv; simpl.
  - destruct (lookup_lt_is_Some_2 (_factors g) f) as [fac Hfac]; [lia|].
    by exists (f_node fac), fac.
  - destruct (lookup_lt_is_Some_2 (_variables g) v) as [var Hvar]; [lia|].
    by exists var.
Qed.
Section TreeSweep.
Variables (g : PGM) (card : string → nat) (depth fuel : nat).
Hypothesis Hbg : bound_graph g card.
Hypothesis Htree : tree_shaped g depth.
Hypothesis Hfuel : (depth ≤ fuel)%nat.

(** Loop invariant of a sweep: the session is in order and every pair
    marked as processed has its message in the cache. *)
Let swept (x y : gset (string * string) * World) : Prop :=
  extends g card x.2 y.2 ∧ ∀ k, k ∈ y.1 → is_Some (messages y.2 !! k).

Lemma swept_trans x y z : swept x y → swept y z → swept x z.
Proof. intros [H1 _] [H2 Hz]. split; [by eapply extends_trans|done]. Qed.

Lemma swept_refl_r x y : swept x y → swept y y.
Proof. intros [H1 Hy]. split; [by eapply extends_refl_r|done]. Qed.

Lemma get_node_ok w n node :
  graph w = g → node_of g n node → get_node n w = (Ok node, w).
Proof.
  intros Hg Hn. destruct n as [f|v]; simpl in *.
  - destruct Hn as (fac & Hf & ->).
    by rewrite (bind_ok _ _ _ _ _ (get_factor_ok g w f fac Hg Hf)).
  - by apply (get_variable_ok g).
Qed.

Lemma neighbor_node n node nb :
  node_of g n node → nb ∈ neighbors node →
  ∃ nbnode, node_of g (neighbor_ref n nb) nbnode.
Proof.
  intros Hn Hnb. destruct n as [f|v]; simpl in *.
  - destruct Hn as (fac & Hf & ->).
    destruct (bg_factor_refs g card Hbg fac nb) as [var Hvar];
      [by eapply list_elem_of_lookup_2|done|]. by exists var.
  - destruct (bg_variable_refs g card Hbg node nb) as [fac Hfac];
      [by eapply list_elem_of_lookup_2|done|]. by exists (f_node fac), fac.
Qed.

(** One message of a sweep. *)
Lemma sweep_call_ok n node nb nbnode w :
  session_ok g card w →
  node_of g n node → nb ∈ neighbors node → node_of g (neighbor_ref n nb) nbnode →
  ∃ m w',
    match n with
    | VariableRef v => variable_to_factor_messages fuel v nb
    | FactorRef f => factor_to_variable_message fuel f nb
    end w = (Ok m, w')
    ∧ extends g card w w'
    ∧ messages w' !! (name node, name nbnode) = Some m.
Proof.
  intros Hok Hn Hnb Hnbn. destruct Htree as (rv & rf & Hrank & Hrv & Hrf).
  destruct n as [f|v]; simpl in *.
  - destruct Hn as (fac & Hf & ->).
    apply (proj2 (messages_ok g card rv rf Hbg Hrank fuel) f nb fac nbnode w);
      [done|done|done|done|]. specialize (Hrf f nb). lia.
  - destruct Hnbn as (fac & Hf & ->).
    apply (proj1 (messages_ok g card rv rf Hbg Hrank fuel) v nb node fac w);
      [done|done|done|done|]. specialize (Hrv v nb). lia.
Qed.

Lemma sweep_ok nodes w :
  session_ok g card w →
  (∀ n, n ∈ nodes → ∃ node, node_of g n node) →
  ∃ w', sweep fuel nodes w = (Ok tt, w') ∧ extends g card w w'
        ∧ Forall (node_swept g (messages w')) nodes.
Proof.
  intros Hok Hnodes. unfold sweep.
  match goal with |- context [bind (for_fold ?F ?L ?S0) _ ?W] =>
    destruct (for_fold_inv swept
      (fun n (x : gset (string * string) * World) =>
         node_swept g (messages x.2) n)
      F L swept_trans swept_refl_r) with (s := S0) (w := W)
      as (s' & w' & Hrun & [Hext _] & Hall)
  end.
  { intros n x y Hx [[_ Hsub] _] node nb Hn Hnb.
    destruct (Hx node nb Hn Hnb) as (nbnode & Hnbn & [m Hm]).
    exists nbnode. split; [done|]. exists m. by eapply lookup_weaken. }
  { split; [by apply extends_refl|]. intros k Hk. by apply elem_of_empty in Hk. }
  { intros n s1 w1 Hn Hsw. cbv beta.
    destruct (Hnodes n Hn) as [node Hnode].
    assert (graph w1 = g) as Hg1 by apply Hsw.
    rewrite (bind_ok _ _ _ _ _ (get_node_ok w1 n node Hg1 Hnode)).
    match goal with |- context [for_fold ?F ?L ?S0 ?W] =>
      destruct (for_fold_inv swept
        (fun nb (x : gset (string * string) * World) =>
           ∃ nbnode, node_of g (neighbor_ref n nb) nbnode
                     ∧ is_Some (messages x.2 !! (name node, name nbnode)))
        F L swept_trans swept_refl_r) with (s := S0) (w := W)
        as (s2 & w2 & Hrun2 & Hsw2 & Hall2)
    end.
    { intros nb x y (nbnode & Hnbn & [m Hm]) [[_ Hsub] _].
      exists nbnode. split; [done|]. exists m. by eapply lookup_weaken. }
    { by eapply swept_refl_r. }
    { intros nb s3 w3 Hnb Hsw3. unfold sweep_edge.
      destruct (neighbor_node n node nb Hnode Hnb) as [nbnode Hnbn].
      assert (graph w3 = g) as Hg3 by apply Hsw3.
      assert (get_node match n with
                       | FactorRef _ => VariableRef nb
                       | VariableRef _ => FactorRef nb
                       end w3 = (Ok nbnode, w3)) as Hget
        by (by apply get_node_ok).
      rewrite (bind_ok _ _ _ _ _ Hget).
      case_bool_decide as Hin.
      - exists s3, w3. split; [done|]. split; [by eapply swept_refl_r|].
        exists nbnode. split; [done|]. by apply Hsw3.
      - destruct (sweep_call_ok n node nb nbnode w3) as (m & w4 & Hcall & Hext4 & Hm);
          [apply Hsw3|done|done|done|].
        rewrite (bind_ok _ _ _ _ _ Hcall).
        eexists _, w4. split; [done|]. split; [split; [done|]|].
        + simpl. intros k Hk. apply elem_of_union in Hk as [Hk|Hk].
          * apply elem_of_singleton in Hk as ->. by exists m.
          * destruct Hsw3 as [_ Hs3]. destruct (Hs3 k Hk) as [m' Hm'].
            exists m'. eapply lookup_weaken; [done|]. apply Hext4.
        + exists nbnode. split; [done|]. by exists m. }
    exists s2, w2. split; [done|]. split; [done|].
    intros node' nb Hnode' Hnb.
    assert (node' = node) as ->.
    { destruct n as [f|v]; simpl in *.
      - destruct Hnode as (fac & Hf & ->). destruct Hnode' as (fac' & Hf' & ->).
        congruence.
      - congruence. }
    rewrite Forall_forall in Hall2. by apply Hall2. }
  exists w'. rewrite (bind_ok _ _ _ _ _ Hrun). done.
Qed.

End TreeSweep.

Lemma hand_marginal_weaken w w' var p :
  graph w' = graph w → messages w ⊆ messages w' →
  hand_marginal w var = Some p → hand_marginal w' var = Some p.
Proof.
  intros Hg Hsub. unfold hand_marginal. rewrite Hg.
  destruct (mapM _ _) as [msgs|] eqn:Hmsgs; [|done]. simpl.
  intros Hp.
  assert (mapM (fun f' => fac' ← _factors (graph w) !! f';
                          messages w' !! (name (f_node fac'), name var))
               (neighbors var) = Some msgs) as ->; [|done].
  apply mapM_Some. apply mapM_Some in Hmsgs.
  eapply Forall2_impl; [exact Hmsgs|]. intros f' m. simpl.
  destruct (_factors (graph w) !! f') as [fac'|]; [simpl|done].
  intros Hm. by eapply lookup_weaken.
Qed.

Lemma dict_get_set_eq {V} (d : list (string * V)) k v :
  dict_get (dict_set d k v) k = Some v.
Proof. by rewrite dict_get_set, String.eqb_refl. Qed.

Lemma dict_get_set_ne {V} (d : list (string * V)) k k' v :
  k ≠ k' → dict_get (dict_set d k v) k' = dict_get d k'.
Proof.
  intros Hne. rewrite dict_get_set.
  by destruct (String.eqb_spec k k').
Qed.

Section TreeBeliefPropagation.
Variables (g : PGM) (card : string → nat) (depth fuel : nat).
Hypothesis Hbg : bound_graph g card.
Hypothesis Htree : tree_shaped g depth.
Hypothesis Hfuel : (depth ≤ fuel)%nat.

Lemma distinct_variable_names v v' (var var' : VariableNode) :
  _variables g !! v = Some var → _variables g !! v' = Some var' →
  v ≠ v' → name var ≠ name var'.
Proof.
  unfold VariableNode in *. intros Hv Hv' Hne Heq. apply Hne.
  eapply (NoDup_lookup (name <$> _variables g)).
  - apply (bg_variable_names g card Hbg).
  - by rewrite list_lookup_fmap, Hv.
  - rewrite list_lookup_fmap, Hv'. simpl. by rewrite Heq.
Qed.

(** The closing loop of [belief_propagation]. *)
Lemma marginals_loop_ok vs :
  NoDup vs → (∀ v, v ∈ vs → is_Some (_variables g !! v)) →
  ∀ marginals w, session_ok g card w →
  ∃ marginals' w',
    for_fold (fun marginals variable =>
                let* v := get_variable variable in
                let* m := marginal fuel variable in
                ret (dict_set marginals (name v) m))
             vs marginals w = (Ok marginals', w')
    ∧ extends g card w w'
    ∧ (∀ v (var : VariableNode), v ∈ vs → _variables g !! v = Some var →
       ∃ p, dict_get marginals' (name var) = Some p
            ∧ hand_marginal w' var = Some p)
    ∧ (∀ x, (∀ v (var : VariableNode),
               v ∈ vs → _variables g !! v = Some var → name var ≠ x) →
            dict_get marginals' x = dict_get marginals x).
Proof.
  induction vs as [|v vs IH]; intros Hnd Hvalid marginals w Hok.
  - exists marginals, w. split; [done|]. split; [by apply extends_refl|].
    split; [|done]. intros v var Hv. by apply elem_of_nil in Hv.
  - apply NoDup_cons in Hnd as [Hv_notin Hnd].
    destruct (Hvalid v) as [var Hvar]; [by left|].
    destruct (unnorm_p_ok g card depth fuel Hbg Htree Hfuel v var w Hok Hvar)
      as (msgs & u & w1 & Hu & Hext1 & Hcached & Hprod & _).
    destruct (IH Hnd (fun v' Hv' => Hvalid v' (list_elem_of_further _ _ _ Hv'))
                (dict_set marginals (name var) (np_true_divide u (np_sum_all u)))
                w1 (proj1 Hext1))
      as (marginals' & w' & Hrun & Hext & Hin & Hout).
    exists marginals', w'. split; [|split; [|split]].
    + cbn [for_fold].
      assert ((let* v0 := get_variable v in
               let* m := marginal fuel v in
               ret (dict_set marginals (name v0) m)) w
              = (Ok (dict_set marginals (name var)
                       (np_true_divide u (np_sum_all u))), w1)) as Hstep.
      { rewrite (bind_ok _ _ _ _ _ (get_variable_ok g w v var (proj1 Hok) Hvar)).
        assert (marginal fuel v w = (Ok (np_true_divide u (np_sum_all u)), w1))
          as Hm by (unfold marginal; by rewrite (bind_ok _ _ _ _ _ Hu)).
        by rewrite (bind_ok _ _ _ _ _ Hm). }
      by rewrite (bind_ok _ _ _ _ _ Hstep).
    + by eapply extends_trans.
    + intros v' var' Hv' Hvar'. apply elem_of_cons in Hv' as [->|Hv'].
      * assert (var' = var) as -> by congruence.
        exists (np_true_divide u (np_sum_all u)). split.
        -- rewrite Hout; [apply dict_get_set_eq|].
           intros v2 var2 Hv2 Hvar2. eapply distinct_variable_names; [done|done|].
           intros ->. done.
        -- eapply (hand_marginal_weaken w1 w');
             [by rewrite (proj1 (proj1 Hext)), (proj1 (proj1 Hext1))|apply Hext|].
           by eapply hand_marginal_cached.
      * by apply (Hin v' var').
    + intros x Hx. rewrite Hout.
      * apply dict_get_set_ne. apply (Hx v var); [by left|done].
      * intros v2 var2 Hv2. apply Hx. by right.
Qed.
End TreeBeliefPropagation.

(** [belief_propagation] on a bound tree: it returns, the cache it leaves
    holds both messages of every edge, and every reported marginal is the
    one [hand_marginal] reads off that cache. *)
Lemma belief_propagation_ok (g : PGM) (card : string → nat)
    (depth fuel : nat) (w : World) :
  bound_graph g card → tree_shaped g depth → (depth ≤ fuel)%nat →
  session_ok g card w →
  ∃ marginals w',
    belief_propagation fuel w = (Ok marginals, w')
    ∧ (∀ v f (var : VariableNode) (fac : Factor),
         _variables g !! v = Some var → _factors g !! f = Some fac →
         f ∈ neighbors var →
         is_Some (messages w' !! (name var, name fac))
         ∧ is_Some (messages w' !! (name fac, name var)))
    ∧ (∀ v (var : VariableNode), _variables g !! v = Some var →
         ∃ p, dict_get marginals (name var) = Some p
              ∧ hand_marginal w' var = Some p).
Proof.
  intros Hbg Htree Hfuel Hok.
  destruct (sweep_ok g card depth fuel Hbg Htree Hfuel (all_nodes g) w Hok
              (all_nodes_valid g))
    as (w1 & Hfwd & Hext1 & Hswept).
  destruct (sweep_ok g card depth fuel Hbg Htree Hfuel (reverse (all_nodes g)) w1
              (proj1 Hext1))
    as (w2 & Hbwd & Hext2 & _).
  { intros n Hn. apply all_nodes_valid. by apply elem_of_reverse. }
  destruct (marginals_loop_ok g card depth fuel Hbg Htree Hfuel
              (seq 0 (length (_variables g))) (NoDup_seq _ _)) with
    (marginals := @nil (string * ndarray float64)) (w := w2)
    as (marginals & w' & Hloop & Hext & Hin & _).
  { intros v Hv. apply elem_of_seq in Hv. apply lookup_lt_is_Some_2. lia. }
  { exact (proj1 Hext2). }
  exists marginals, w'. split; [|split].
  - unfold belief_propagation.
    assert (forward fuel w = (Ok tt, w1)) as Hf
      by (unfold forward; by rewrite (proj1 Hok)).
    assert (backward fuel w1 = (Ok tt, w2)) as Hb
      by (unfold backward; by rewrite (proj1 (proj1 Hext1))).
    rewrite (bind_ok _ _ _ _ _ Hf), (bind_ok _ _ _ _ _ Hb).
    by rewrite (proj1 (proj1 Hext2)).
  - intros v f var fac Hv Hf Hadj.
    assert (messages w1 ⊆ messages w') as Hsub.
    { etrans; [apply Hext2|apply Hext]. }
    rewrite Forall_forall in Hswept. split.
    + destruct (Hswept (VariableRef v)) with (node := var) (nb := f)
        as (nbnode & (fac' & Hf' & ->) & [m Hm]); [|done|done|].
      { unfold all_nodes. apply elem_of_app. right. apply list_elem_of_fmap.
        exists v. split; [done|]. apply elem_of_seq.
        apply lookup_lt_Some in Hv. lia. }
      assert (fac' = fac) as -> by congruence.
      exists m. by eapply lookup_weaken.
    + destruct (Hswept (FactorRef f)) with (node := f_node fac) (nb := v)
        as (nbnode & Hnb & [m Hm]).
      { unfold all_nodes. apply elem_of_app. left. apply list_elem_of_fmap.
        exists f. split; [done|]. apply elem_of_seq.
        apply lookup_lt_Some in Hf. lia. }
      { by exists fac. }
      { by apply (bg_symmetric g card Hbg v f var fac). }
      assert (nbnode = var) as ->.
      { unfold node_of, neighbor_ref, VariableNode in *. congruence. }
      exists m. by eapply lookup_weaken.
  - intros v var Hv. apply (Hin v var); [|done].
    apply elem_of_seq. apply lookup_lt_Some in Hv. lia.
Qed.

Lemma hand_marginal_read w (var : VariableNode) p :
  hand_marginal w var = Some p →
  ∃ msgs, cached_incoming w var msgs
          ∧ p = divided_by_total (entrywise_product msgs).
Proof.
  unfold hand_marginal.
  destruct (mapM _ (neighbors var)) as [msgs|] eqn:Hmsgs; [simpl|done].
  destruct (np_prod msgs) as [u|] eqn:Hu; [|done]. intros [= <-].
  exists msgs. split.
  - apply mapM_Some in Hmsgs. eapply Forall2_impl; [exact Hmsgs|].
    intros f' m. simpl.
    destruct (_factors (graph w) !! f') as [fac'|]; [simpl|done].
    intros Hm. by exists fac'.
  - apply np_prod_entrywise in Hu. by subst u.
Qed.

(** C4, as the code has it. On a bound tree [belief_propagation] returns;
    the cache it leaves holds a message for every ordered pair of adjacent
    nodes, in both directions; and the marginal it reports for a variable is
    the one re-derived by hand from that cache: the entrywise product of the
    cached factor-to-variable messages of the variable's neighbours, each
    entry divided by the total of the product - which is nan, not a vector
    that sums to 1, when that total is zero. *)
Theorem belief_propagation_reports_cached_quotients (g : PGM)
    (card : string → nat) (depth fuel : nat) (w : World) :
  bound_graph g card → tree_shaped g depth → (depth ≤ fuel)%nat →
  session_ok g card w →
  ∃ marginals w',
    belief_propagation fuel w = (Ok marginals, w')
    ∧ (∀ v f (var : VariableNode) (fac : Factor),
         _variables g !! v = Some var → _factors g !! f = Some fac →
         f ∈ neighbors var →
         is_Some (messages w' !! (name var, name fac))
         ∧ is_Some (messages w' !! (name fac, name var)))
    ∧ (∀ v (var : VariableNode), _variables g !! v = Some var →
         ∃ p msgs,
           dict_get marginals (name var) = Some p
           ∧ cached_incoming w' var msgs
           ∧ p = divided_by_total (entrywise_product msgs)).
Proof.
  intros Hbg Htree Hfuel Hok.
  destruct (belief_propagation_ok g card depth fuel w Hbg Htree Hfuel Hok)
    as (marginals & w' & Hrun & Hcache & Hreport).
  exists marginals, w'. split; [done|]. split; [done|].
  intros v var Hv. destruct (Hreport v var Hv) as (p & Hp & Hhand).
  destruct (hand_marginal_read w' var p Hhand) as (msgs & Hmsgs & ->).
  by exists (divided_by_total (entrywise_product msgs)), msgs.
Qed.

Lemma belief_propagation_reports_cached_quotients_witness :
  ∃ marginals w',
    belief_propagation 3 forest_world = (Ok marginals, w')
    ∧ (∀ v f (var : VariableNode) (fac : Factor),
         _variables forest_graph !! v = Some var →
         _factors forest_graph !! f = Some fac →
         f ∈ neighbors var →
         is_Some (messages w' !! (name var, name fac))
         ∧ is_Some (messages w' !! (name fac, name var)))
    ∧ (∀ v (var : VariableNode), _variables forest_graph !! v = Some var →
         ∃ p msgs,
           dict_get marginals (name var) = Some p
           ∧ cached_incoming w' var msgs
           ∧ p = divided_by_total (entrywise_product msgs)).
Proof.
  apply (belief_propagation_reports_cached_quotients forest_graph forest_card
           3 3 forest_world forest_bound forest_tree (le_n 3) forest_session).
Defined.

(** C4 fails as stated: on the forest the product of the messages cached
    for [c] is [0, 0], and the marginal [belief_propagation] reports for [c]
    is [nan, nan] - no product of messages normalized to sum to 1. *)
Lemma belief_propagation_reports_nan :
  bound_graph forest_graph forest_card
  ∧ tree_shaped forest_graph 3
  ∧ session_ok forest_graph forest_card forest_world
  ∧ ∃ marginals w',
      belief_propagation 3 forest_world = (Ok marginals, w')
      ∧ cached_incoming w' (mk_Node "c" [2]%nat) [mk_ndarray [2]%nat [0; 0]%Q]
      ∧ dict_get marginals "c" = Some (mk_ndarray [2]%nat [NaN; NaN])
      ∧ ¬ ∃ qs, [NaN; NaN] = map Finite qs ∧ (foldr Qplus 0 qs == 1)%Q.
Proof.
  split; [exact forest_bound|]. split; [exact forest_tree|].
  split; [exact forest_session|].
  eexists _, _. split; [vm_compute; reflexivity|]. split; [|split].
  - constructor; [|constructor]. eexists. split; reflexivity.
  - reflexivity.
  - intros ([|q qs] & Hdata & _); simpl in Hdata; discriminate.
Qed.


(** ** Scenario A *)

(** C8. On the three-factor chain of the notebook the engine's marginal of
    x1 is (25/66, 41/66), within 1e-4 of (0.3788, 0.6212). *)
Theorem chain_marginal_of_x1 :
  ∃ w p w' p0 p1,
    new_session "p(x1,x3)p(x2,x3)p(x3,x4,x5)" chain_dists = Ok w
    ∧ variable_from_name (graph w) "x1" = Ok 0%nat
    ∧ marginal 1000 0 w = (Ok p, w')
    ∧ shape p = [2]%nat
    ∧ data p = [Finite p0; Finite p1]
    ∧ ((3788 # 10000) - (1 # 10000) <= p0 <= (3788 # 10000) + (1 # 10000))%Q
    ∧ ((6212 # 10000) - (1 # 10000) <= p1 <= (6212 # 10000) + (1 # 10000))%Q.
Proof.
  eexists _, _, _, _, _.
  split; [vm_compute; reflexivity|].
  split; [vm_compute; reflexivity|].
  split; [vm_compute; reflexivity|].
  split; [reflexivity|].
  split; [reflexivity|].
  split; split; vm_compute; discriminate.
Qed.

(** The five marginals the notebook prints for this chain. *)
Example chain_belief_propagation :
  ∃ w marginals w',
    new_session "p(x1,x3)p(x2,x3)p(x3,x4,x5)" chain_dists = Ok w
    ∧ belief_propagation 1000 w = (Ok marginals, w')
    ∧ map (fun '(x, p) => (x, shape p,
             map (fun y => match y with Finite q => Some (Qred q) | _ => None end)
                 (data p))) marginals
      = [ ("x1", [2]%nat, [Some (25 # 66); Some (41 # 66)]);
          ("x3", [2]%nat, [Some (6 # 55); Some (49 # 55)]);
          ("x2", [2]%nat, [Some (37 # 55); Some (18 # 55)]);
          ("x4", [2]%nat, [Some (9 # 55); Some (46 # 55)]);
          ("x5", [2]%nat, [Some (5 # 11); Some (6 # 11)]) ]%Q.
Proof.
  eexists _, _, _.
  split; [vm_compute; reflexivity|].
  split; [vm_compute; reflexivity|].
  vm_compute. reflexivity.
Qed.

(** ** Every write is a first write

    On a tree whose nodes have distinct names, the key under which a
    message is about to be stored is not in the cache: nothing computed on
    the way wrote it.  With the previous section, a key is written once and
    its entry never changes. *)

Lemma touches_weaken {A} g (S S' : string * string → Prop) (c : M A) :
  (∀ k, S k → S' k) → touches g S c → touches g S' c.
Proof.
  intros HS Hc w Hg. destruct (Hc w Hg) as [Hg' Hk]. split; [done|].
  intros k Hin. destruct (Hk k Hin); auto.
Qed.

Lemma touches_pure {A} g S (c : M A) :
  (∀ w, (c w).2 = w) → touches g S c.
Proof. intros Hc w Hg. rewrite Hc. split; [done|]. auto. Qed.

Lemma touches_bind {A B} g S (c : M A) (k : A → M B) :
  touches g S c →
  (∀ a, (∃ w w', graph w = g ∧ c w = (Ok a, w')) → touches g S (k a)) →
  touches g S (bind c k).
Proof.
  intros Hc Hk w Hg. unfold bind. destruct (Hc w Hg) as [Hg1 Hk1].
  destruct (c w) as [[a|e] w1] eqn:Hcw; simpl in *; [|done].
  destruct (Hk a (ex_intro _ w (ex_intro _ w1 (conj Hg Hcw))) w1 Hg1)
    as [Hg2 Hk2].
  split; [done|]. intros key Hin. destruct (Hk2 key Hin); auto.
Qed.

Lemma touches_for_each {A B} g S (f : A → M B) l :
  (∀ a, a ∈ l → touches g S (f a)) → touches g S (for_each f l).
Proof.
  induction l as [|a l IH]; intros Hf; simpl.
  - by apply touches_pure.
  - apply touches_bind; [apply Hf; by left|]. intros b _.
    apply touches_bind; [apply IH; intros; apply Hf; by right|].
    intros bs _. by apply touches_pure.
Qed.

Lemma touches_for_fold {A St} g S (f : St → A → M St) l s :
  (∀ s a, a ∈ l → touches g S (f s a)) → touches g S (for_fold f l s).
Proof.
  revert s. induction l as [|a l IH]; intros s Hf; simpl.
  - by apply touches_pure.
  - apply touches_bind; [apply Hf; by left|]. intros s' _.
    apply IH. intros; apply Hf; by right.
Qed.

Lemma touches_memoised g (S : string * string → Prop) key compute :
  S key → touches g S compute → touches g S (memoised key compute).
Proof.
  intros HS Hc w Hg. unfold memoised, bind, message_in, read_message, store_message.
  simpl. case_bool_decide as Hin; simpl; [split; auto|].
  destruct (Hc w Hg) as [Hg1 Hk1].
  destruct (compute w) as [[m|e] w1]; simpl in *; [|done].
  split; [done|]. intros k Hk. destruct (decide (key = k)) as [<-|Hne]; [auto|].
  rewrite lookup_insert_ne in Hk by done. auto.
Qed.

Lemma get_factor_inv g f (fac : Factor) :
  (∃ w w', graph w = g ∧ get_factor f w = (Ok fac, w')) →
  _factors g !! f = Some fac.
Proof.
  intros (w & w' & <- & H). unfold get_factor in H.
  destruct (_factors (graph w) !! f); simpl in H; congruence.
Qed.

Lemma get_variable_inv g v (var : VariableNode) :
  (∃ w w', graph w = g ∧ get_variable v w = (Ok var, w')) →
  _variables g !! v = Some var.
Proof.
  intros (w & w' & <- & H). unfold get_variable in H.
  destruct (_variables (graph w) !! v); simpl in H; congruence.
Qed.

Lemma _variable_to_factor_messages_touches g f2v v f :
  (∀ f' v', touches g (fun k => key_of g (FV f' v') k ∨ below g (FV f' v') k)
              (f2v f' v')) →
  touches g (below g (VF v f)) (_variable_to_factor_messages f2v v f).
Proof.
  intros IHf. unfold _variable_to_factor_messages.
  apply touches_bind; [by apply touches_pure|]. intros var Hvar.
  apply get_variable_inv in Hvar.
  apply touches_bind; [by apply touches_pure|]. intros fac Hfac.
  apply get_factor_inv in Hfac.
  apply touches_bind; [|intros; by apply touches_pure].
  apply touches_for_each. intros f' Hf'.
  apply touches_bind; [by apply touches_pure|]. intros fac' Hfac'.
  apply get_factor_inv in Hfac'.
  destruct (String.eqb_spec (name fac') (name fac)) as [Heq|Hne]; simpl;
    [by apply touches_pure|].
  apply touches_bind; [|intros; by apply touches_pure].
  eapply touches_weaken; [|apply IHf].
  intros k [(fac1 & var1 & Hf1 & Hv1 & ->)|Hk].
  - assert (fac1 = fac') as -> by congruence.
    assert (var1 = var) as -> by (unfold VariableNode in *; congruence).
    by eapply (below_vf_here g v f f' var fac fac').
  - by eapply (below_vf_deeper g v f f' var fac fac').
Qed.

Lemma _factor_to_variable_messages_touches g v2f f v :
  (∀ v' f', touches g (fun k => key_of g (VF v' f') k ∨ below g (VF v' f') k)
              (v2f v' f')) →
  touches g (below g (FV f v)) (_factor_to_variable_messages v2f f v).
Proof.
  intros IHv. unfold _factor_to_variable_messages.
  apply touches_bind; [by apply touches_pure|]. intros fac Hfac.
  apply get_factor_inv in Hfac.
  apply touches_bind; [by apply touches_pure|]. intros var Hvar.
  apply get_variable_inv in Hvar.
  apply touches_bind; [by apply touches_pure|]. intros fdata _.
  apply touches_bind;
    [|intros; apply touches_bind; intros; by apply touches_pure].
  apply touches_for_fold. intros D u Hu.
  apply touches_bind; [by apply touches_pure|]. intros var' Hvar'.
  apply get_variable_inv in Hvar'.
  destruct (String.eqb_spec (name var') (name var)) as [Heq|Hne];
    [by apply touches_pure|].
  apply touches_bind; [|intros; by apply touches_pure].
  eapply touches_weaken; [|apply IHv].
  intros k [(var1 & fac1 & Hv1 & Hf1 & ->)|Hk].
  - assert (fac1 = fac) as -> by congruence.
    assert (var1 = var') as -> by (unfold VariableNode in *; congruence).
    by eapply (below_fv_here g f v u fac var var').
  - by eapply (below_fv_deeper g f v u fac var var').
Qed.

(** A message function adds at most its own key and keys below it. *)
Lemma messages_touch g n :
  (∀ v f, touches g (fun k => key_of g (VF v f) k ∨ below g (VF v f) k)
            (variable_to_factor_messages n v f))
  ∧ (∀ f v, touches g (fun k => key_of g (FV f v) k ∨ below g (FV f v) k)
              (factor_to_variable_message n f v)).
Proof.
  induction n as [|n [IHv IHf]].
  - split; intros; by apply touches_pure.
  - split.
    + intros v f. simpl.
      apply touches_bind; [by apply touches_pure|]. intros var Hvar.
      apply get_variable_inv in Hvar.
      apply touches_bind; [by apply touches_pure|]. intros fac Hfac.
      apply get_factor_inv in Hfac.
      apply touches_memoised; [left; by exists var, fac|].
      eapply touches_weaken; [intros k Hk; right; exact Hk|].
      by apply _variable_to_factor_messages_touches.
    + intros f v. simpl.
      apply touches_bind; [by apply touches_pure|]. intros fac Hfac.
      apply get_factor_inv in Hfac.
      apply touches_bind; [by apply touches_pure|]. intros var Hvar.
      apply get_variable_inv in Hvar.
      apply touches_memoised; [left; by exists fac, var|].
      eapply touches_weaken; [intros k Hk; right; exact Hk|].
      by apply _factor_to_variable_messages_touches.
Qed.

Section FirstWrite.
Variables (g : PGM) (rank_vf rank_fv : nat → nat → nat).
Hypothesis Hrank : ranked g rank_vf rank_fv.
Hypothesis Hsym : ∀ v f (var : VariableNode) (fac : Factor),
  _variables g !! v = Some var → _factors g !! f = Some fac →
  (f ∈ neighbors var ↔ v ∈ neighbors fac).
Hypothesis Hnames : distinct_names g.

(** The keys below an edge are keys of edges of lower rank. *)
Lemma below_rank e k :
  below g e k → adjacent g e →
  ∃ e', key_of g e' k
        ∧ (edge_rank rank_vf rank_fv e' < edge_rank rank_vf rank_fv e)%nat.
Proof.
  destruct Hrank as [Hrv Hrf].
  induction 1 as [v f f' var fac fac' Hv Hf Hf' Hfac' Hne
                 |v f f' var fac fac' k Hv Hf Hf' Hfac' Hne Hk IH
                 |f v u fac var var' Hf Hv Hu Hvar' Hne
                 |f v u fac var var' k Hf Hv Hu Hvar' Hne Hk IH];
    intros Hadj; simpl in Hadj.
  - destruct Hadj as (var0 & Hv0 & Hadj).
    assert (var0 = var) as -> by (unfold VariableNode in *; congruence).
    pose proof (Hrv v f f' var fac fac' Hv Hf Hadj Hf' Hfac' Hne) as Hlt.
    exists (FV f' v). split; [by exists fac', var|done].
  - destruct Hadj as (var0 & Hv0 & Hadj).
    assert (var0 = var) as -> by (unfold VariableNode in *; congruence).
    pose proof (Hrv v f f' var fac fac' Hv Hf Hadj Hf' Hfac' Hne) as Hlt.
    destruct IH as (e' & Hkey & Hlt').
    { exists fac'. split; [done|]. by apply (Hsym v f' var fac'). }
    exists e'. split; [done|]. simpl in *. lia.
  - destruct Hadj as (fac0 & Hf0 & Hadj).
    assert (fac0 = fac) as -> by congruence.
    pose proof (Hrf f v u fac var var' Hf Hv Hadj Hu Hvar' Hne) as Hlt.
    exists (VF u f). split; [by exists var', fac|done].
  - destruct Hadj as (fac0 & Hf0 & Hadj).
    assert (fac0 = fac) as -> by congruence.
    pose proof (Hrf f v u fac var var' Hf Hv Hadj Hu Hvar' Hne) as Hlt.
    destruct IH as (e' & Hkey & Hlt').
    { exists var'. split; [done|]. by apply (Hsym u f var' fac). }
    exists e'. split; [done|]. simpl in *. lia.
Qed.

(** With distinct names a key is the key of one edge. *)
Lemma key_of_injective e e' k : key_of g e k → key_of g e' k → e = e'.
Proof.
  unfold distinct_names in Hnames.
  apply NoDup_app in Hnames as (Hvars & Hdisj & Hfacs).
  assert (∀ v v' (var var' : VariableNode),
            _variables g !! v = Some var → _variables g !! v' = Some var' →
            name var = name var' → v = v') as Hvinj.
  { intros v v' var var' Hv Hv' Heq. unfold VariableNode in *.
    eapply (NoDup_lookup (name <$> _variables g)); [done| |].
    - by rewrite list_lookup_fmap, Hv.
    - rewrite list_lookup_fmap, Hv'. simpl. by rewrite Heq. }
  assert (∀ f f' (fac fac' : Factor),
            _factors g !! f = Some fac → _factors g !! f' = Some fac' →
            name fac = name fac' → f = f') as Hfinj.
  { intros f f' fac fac' Hf Hf' Heq.
    eapply (NoDup_lookup (name ∘ f_node <$> _factors g)); [done| |].
    - by rewrite list_lookup_fmap, Hf.
    - rewrite list_lookup_fmap, Hf'. simpl. by rewrite Heq. }
  assert (∀ v f (var : VariableNode) (fac : Factor),
            _variables g !! v = Some var → _factors g !! f = Some fac →
            name var ≠ name fac) as Hvf.
  { intros v f var fac Hv Hf Heq. apply (Hdisj (name var)).
    - apply list_elem_of_fmap. exists var. split; [done|].
      by eapply list_elem_of_lookup_2.
    - apply list_elem_of_fmap. exists fac. split; [done|].
      by eapply list_elem_of_lookup_2. }
  destruct e as [v f|f v], e' as [v' f'|f' v']; simpl.
  - intros (var & fac & Hv & Hf & ->) (var' & fac' & Hv' & Hf' & [= Hn1 Hn2]).
    f_equal; [by eapply Hvinj|by eapply Hfinj].
  - intros (var & fac & Hv & Hf & ->) (fac' & var' & Hf' & Hv' & [= Hn1 Hn2]).
    exfalso. by eapply (Hvf v f').
  - intros (fac & var & Hf & Hv & ->) (var' & fac' & Hv' & Hf' & [= Hn1 Hn2]).
    exfalso. by eapply (Hvf v' f).
  - intros (fac & var & Hf & Hv & ->) (fac' & var' & Hf' & Hv' & [= Hn1 Hn2]).
    f_equal; [by eapply Hfinj|by eapply Hvinj].
Qed.

(** The key of an edge is not below the edge. *)
Lemma key_not_below e k : adjacent g e → key_of g e k → ¬ below g e k.
Proof.
  intros Hadj Hkey Hbelow.
  destruct (below_rank e k Hbelow Hadj) as (e' & Hkey' & Hlt).
  rewrite (key_of_injective e' e k Hkey' Hkey) in Hlt. lia.
Qed.

(** When [variable_to_factor_messages] is about to store the message it
    computed, its key is still absent from the cache. *)
Lemma variable_to_factor_first_write n v f (var : VariableNode)
    (fac : Factor) w :
  graph w = g →
  _variables g !! v = Some var → _factors g !! f = Some fac →
  f ∈ neighbors var →
  messages w !! (name var, name fac) = None →
  messages (_variable_to_factor_messages (factor_to_variable_message n) v f w).2
    !! (name var, name fac) = None.
Proof.
  intros Hg Hv Hf Hadj Habsent.
  destruct (_variable_to_factor_messages_touches g
              (factor_to_variable_message n) v f
              (proj2 (messages_touch g n)) w Hg) as [_ Hk].
  apply eq_None_not_Some. intros Hin.
  destruct (Hk _ Hin) as [Hold|Hbelow].
  - rewrite Habsent in Hold. by destruct Hold.
  - eapply (key_not_below (VF v f)); [by exists var| |exact Hbelow].
    by exists var, fac.
Qed.

Lemma factor_to_variable_first_write n f v (fac : Factor)
    (var : VariableNode) w :
  graph w = g →
  _factors g !! f = Some fac → _variables g !! v = Some var →
  v ∈ neighbors fac →
  messages w !! (name fac, name var) = None →
  messages (_factor_to_variable_messages (variable_to_factor_messages n) f v w).2
    !! (name fac, name var) = None.
Proof.
  intros Hg Hf Hv Hadj Habsent.
  destruct (_factor_to_variable_messages_touches g
              (variable_to_factor_messages n) f v
              (proj1 (messages_touch g n)) w Hg) as [_ Hk].
  apply eq_None_not_Some. intros Hin.
  destruct (Hk _ Hin) as [Hold|Hbelow].
  - rewrite Habsent in Hold. by destruct Hold.
  - eapply (key_not_below (FV f v)); [by exists fac| |exact Hbelow].
    by exists fac, var.
Qed.
End FirstWrite.

(** The demonstration forest is such a graph. *)
Lemma forest_distinct_names : distinct_names forest_graph.
Proof.
  unfold distinct_names. simpl. distinct_list.
Qed.

(** ** Keys are written once *)




(** * Further properties of the code

    ** Calls that return *)

Lemma bind_returns {A B} (c : M A) (k : A → M B) w b w' :
  bind c k w = (Ok b, w') → ∃ a w1, c w = (Ok a, w1) ∧ k a w1 = (Ok b, w').
Proof.
  unfold bind. destruct (c w) as [[a|e] w1]; [|done]. intros H. by exists a, w1.
Qed.

Lemma cache_grew_refl w : cache_grew w w.
Proof. by split. Qed.

Lemma cache_grew_trans w1 w2 w3 :
  cache_grew w1 w2 → cache_grew w2 w3 → cache_grew w1 w3.
Proof. intros [Hg1 Hm1] [Hg2 Hm2]. split; [congruence | by etrans]. Qed.

Lemma stable_grew {A} (c : M A) w r w' : stable c → c w = (r, w') → cache_grew w w'.
Proof. intros Hc Hr. specialize (Hc w). rewrite Hr in Hc. exact Hc. Qed.

Lemma memoised_returns key compute w m w' :
  memoised key compute w = (Ok m, w') → messages w' !! key = Some m.
Proof.
  unfold memoised, bind, message_in, read_message, store_message. simpl.
  case_bool_decide as Hin; simpl.
  - destruct (messages w !! key) as [m0|] eqn:Hm; simpl; [|done].
    intros [= <- <-]. done.
  - destruct (compute w) as [[m0|e] w1]; simpl; [|done].
    rewrite lookup_insert_eq. simpl. intros [= <- <-]. simpl.
    by rewrite lookup_insert_eq.
Qed.

Lemma variable_to_factor_messages_returns fuel v f w m w' :
  variable_to_factor_messages fuel v f w = (Ok m, w') →
  ∃ n (var : VariableNode) (fac : Factor),
    fuel = S n ∧ _variables (graph w) !! v = Some var
    ∧ _factors (graph w) !! f = Some fac
    ∧ messages w' !! (name var, name fac) = Some m.
Proof.
  destruct fuel as [|n]; [done|]. simpl. intros H.
  apply bind_returns in H as (var & w1 & Hv & H).
  apply bind_returns in H as (fac & w2 & Hf & H).
  unfold get_variable in Hv. unfold get_factor in Hf.
  destruct (_variables (graph w) !! v) as [var'|] eqn:Hv'; [|done].
  injection Hv as -> <-.
  destruct (_factors (graph w) !! f) as [fac'|] eqn:Hf'; [|done].
  injection Hf as -> <-.
  exists n, var, fac. repeat split; try done. by eapply memoised_returns.
Qed.

Lemma factor_to_variable_message_returns fuel f v w m w' :
  factor_to_variable_message fuel f v w = (Ok m, w') →
  ∃ n (fac : Factor) (var : VariableNode),
    fuel = S n ∧ _factors (graph w) !! f = Some fac
    ∧ _variables (graph w) !! v = Some var
    ∧ messages w' !! (name fac, name var) = Some m.
Proof.
  destruct fuel as [|n]; [done|]. simpl. intros H.
  apply bind_returns in H as (fac & w1 & Hf & H).
  apply bind_returns in H as (var & w2 & Hv & H).
  unfold get_variable in Hv. unfold get_factor in Hf.
  destruct (_factors (graph w) !! f) as [fac'|] eqn:Hf'; [|done].
  injection Hf as -> <-.
  destruct (_variables (graph w) !! v) as [var'|] eqn:Hv'; [|done].
  injection Hv as -> <-.
  exists n, fac, var. repeat split; try done. by eapply memoised_returns.
Qed.

(** A cached message is returned as it is, and nothing is written. *)
Lemma cached_variable_to_factor_messages n v f (var : VariableNode)
    (fac : Factor) m w :
  _variables (graph w) !! v = Some var → _factors (graph w) !! f = Some fac →
  messages w !! (name var, name fac) = Some m →
  variable_to_factor_messages (S n) v f w = (Ok m, w).
Proof.
  intros Hv Hf Hm. simpl.
  unfold bind, get_factor, get_variable, memoised, bind, message_in, read_message.
  rewrite Hf, Hv. simpl. rewrite Hm.
  rewrite bool_decide_eq_true_2 by done. simpl. by rewrite Hm.
Qed.

Lemma for_each_returns {A B} (P : A → B → World → Prop) (f : A → M B) l :
  (∀ a b w1 w2, P a b w1 → cache_grew w1 w2 → P a b w2) →
  (∀ a, stable (f a)) →
  ∀ w bs w',
  (∀ a b w1 w2, a ∈ l → cache_grew w w1 → f a w1 = (Ok b, w2) → P a b w2) →
  for_each f l w = (Ok bs, w') →
  cache_grew w w' ∧ Forall2 (fun a b => P a b w') l bs.
Proof.
  intros Hstable Hf. induction l as [|a l IH]; intros w bs w' Hstep Hrun.
  - injection Hrun as <- <-. split; [apply cache_grew_refl|constructor].
  - simpl in Hrun. apply bind_returns in Hrun as (b & w1 & Hb & Hrun).
    apply bind_returns in Hrun as (bs' & w2 & Hbs & Hrun).
    injection Hrun as <- <-.
    pose proof (stable_grew _ _ _ _ (Hf a) Hb) as H1.
    destruct (IH w1 bs' w2) as [H2 HP]; [|done|].
    { intros a' b' w3 w4 Ha' H3 Hr. apply (Hstep a' b' w3 w4); [by right| |done].
      by eapply cache_grew_trans. }
    split; [by eapply cache_grew_trans|]. constructor; [|done].
    eapply Hstable; [|exact H2].
    apply (Hstep a b w w1); [by left|apply cache_grew_refl|done].
Qed.

Lemma for_fold_returns {A S} (R : S * World → S * World → Prop)
    (P : A → S * World → Prop) (f : S → A → M S) l :
  (∀ x y z, R x y → R y z → R x z) →
  (∀ x y, R x y → R y y) →
  (∀ a x y, P a x → R x y → P a y) →
  ∀ s w s' w',
  R (s, w) (s, w) →
  (∀ a s1 w1 s2 w2, a ∈ l → R (s, w) (s1, w1) → f s1 a w1 = (Ok s2, w2) →
     R (s1, w1) (s2, w2) ∧ P a (s2, w2)) →
  for_fold f l s w = (Ok s', w') →
  R (s, w) (s', w') ∧ Forall (fun a => P a (s', w')) l.
Proof.
  intros Htrans Hrefl Hstable.
  induction l as [|a l IH]; intros s w s' w' Hw Hstep Hrun.
  - injection Hrun as <- <-. split; [done|constructor].
  - simpl in Hrun. apply bind_returns in Hrun as (s2 & w2 & Hf & Hrun).
    destruct (Hstep a s w s2 w2) as [HR HP]; [by left|done|done|].
    destruct (IH s2 w2 s' w') as [HR' HPs]; [by eapply Hrefl| |done|].
    { intros a' s1 w1 s3 w3 Ha' HR1 Hr.
      apply (Hstep a' s1 w1 s3 w3); [by right| |done]. by eapply Htrans. }
    split; [by eapply Htrans|]. constructor; [by eapply Hstable|done].
Qed.

(** A loop whose every step returns and leaves the world as it is. *)
Lemma for_fold_unchanged {A S} (f : S → A → M S) l w :
  (∀ a s, a ∈ l → ∃ s', f s a w = (Ok s', w)) →
  ∀ s, ∃ s', for_fold f l s w = (Ok s', w).
Proof.
  induction l as [|a l IH]; intros Hstep s.
  - by exists s.
  - destruct (Hstep a s) as [s1 H1]; [by left|].
    destruct (IH (fun a' s' Ha' => Hstep a' s' (list_elem_of_further _ _ _ Ha')) s1)
      as [s' Hs'].
    exists s'. simpl. by rewrite (bind_ok _ _ _ _ _ H1).
Qed.

(** ** Axes and labels *)

Lemma get_axes_fold_last (l : list string) (f : nat → nat) acc h :
  let r := fold_left (fun acc '(axis, name) => dict_set acc name axis)
                     (imap (fun axis name => (f axis, name)) l) acc in
  ((h ∉ l) ∧ dict_get r h = dict_get acc h)
  ∨ (∃ i, l !! i = Some h ∧ (∀ j, (i < j)%nat → l !! j ≠ Some h)
          ∧ dict_get r h = Some (f i)).
Proof.
  revert f acc. induction l as [|x l IH]; intros f acc; simpl.
  - left. split; [apply not_elem_of_nil | done].
  - destruct (IH (f ∘ S) (dict_set acc x (f 0%nat))) as [[Hn Hg]|(i & Hi & Hlast & Hg)].
    + destruct (decide (x = h)) as [->|Hne].
      * right. exists 0%nat. split; [done|]. split.
        -- intros [|j] Hj; [lia|]. simpl. intros Hl. apply Hn.
           by eapply list_elem_of_lookup_2.
        -- change (imap ((λ axis name0, (f axis, name0)) ∘ S) l)
             with (imap (λ axis name0, ((f ∘ S) axis, name0)) l).
           rewrite Hg, dict_get_set, String.eqb_refl. done.
      * left. split; [rewrite elem_of_cons; naive_solver|].
        change (imap ((λ axis name0, (f axis, name0)) ∘ S) l)
          with (imap (λ axis name0, ((f ∘ S) axis, name0)) l).
        rewrite Hg, dict_get_set.
        destruct (String.eqb_spec x h); done.
    + right. exists (S i). split; [done|]. split; [|exact Hg].
      intros [|j] Hj; [lia|]. simpl. apply Hlast. lia.
Qed.

(** X1. [get_axes] maps a label to the position of its last occurrence
    in [axes_labels]: the dict comprehension overwrites the entry of a label
    that comes again.  A label that does not occur has no entry.  (So with
    a label written twice, [multiply] and [is_valid_conditional] address
    the later axis.) *)
Theorem get_axes_gives_the_last_position (d : Distribution) (h : string) :
  match dict_get (get_axes d) h with
  | Some i =>
      axes_labels d !! i = Some h
      ∧ ∀ j, (i < j)%nat → axes_labels d !! j ≠ Some h
  | None => h ∉ axes_labels d
  end.
Proof.
  destruct (get_axes_fold_last (axes_labels d) id [] h)
    as [[Hn Hg]|(i & Hi & Hlast & Hg)].
  - unfold get_axes.
    change (fun axis name => (axis, name))
      with (fun (axis : nat) (name : string) => (id axis, name)).
    by rewrite Hg.
  - unfold get_axes.
    change (fun axis name => (axis, name))
      with (fun (axis : nat) (name : string) => (id axis, name)).
    by rewrite Hg.
Qed.

Example get_axes_repeated_label :
  get_axes (mk_Distribution (mk_ndarray [2; 3; 2]%nat []) ["a"; "b"; "a"])
  = [("a", 2%nat); ("b", 1%nat)].
Proof. reflexivity. Qed.

Lemma filter_agree {A} (P1 P2 : A → Prop) `{∀ x, Decision (P1 x)}
    `{∀ x, Decision (P2 x)} (l : list A) :
  Forall (fun x => P1 x ↔ P2 x) l → filter P1 l = filter P2 l.
Proof.
  induction 1 as [|x l Hx _ IH]; [done|].
  destruct (decide (P1 x)) as [H1|H1].
  - rewrite !filter_cons_True by tauto. by rewrite IH.
  - rewrite !filter_cons_False by tauto. done.
Qed.

Lemma other_axes_from (labels : list string) (k : nat) x :
  omap (fun '(axis, name) => if String.eqb name x then None else Some axis)
       (imap (fun axis name => ((k + axis)%nat, name)) labels)
  = filter (fun i => labels !! (i - k)%nat ≠ Some x) (seq k (length labels)).
Proof.
  revert k. induction labels as [|y labels IH]; intros k; [done|].
  simpl imap. simpl length. simpl seq.
  assert (imap ((fun axis name => ((k + axis)%nat, name)) ∘ S) labels
          = imap (fun axis name => ((S k + axis)%nat, name)) labels) as ->.
  { apply imap_ext. intros i z _. simpl. f_equal. lia. }
  assert (filter (fun i => (y :: labels) !! (i - k)%nat ≠ Some x)
                 (seq (S k) (length labels))
          = filter (fun i => labels !! (i - S k)%nat ≠ Some x)
                   (seq (S k) (length labels))) as Htail.
  { apply filter_agree. apply Forall_forall. intros i Hi.
    apply elem_of_seq in Hi.
    replace (i - k)%nat with (S (i - S k)) by lia. done. }
  change (omap ?g (?a :: ?l)) with (match g a with
                                    | Some z => z :: omap g l
                                    | None => omap g l
                                    end).
  cbv beta iota. rewrite IH, Nat.add_0_r.
  destruct (String.eqb_spec y x) as [->|Hne].
  - rewrite filter_cons_False; [by rewrite Htail|].
    rewrite Nat.sub_diag. simpl. by intros H; apply H.
  - rewrite filter_cons_True; [by rewrite Htail|].
    rewrite Nat.sub_diag. simpl. congruence.
Qed.

(** X2. [get_other_axes_from] returns, in increasing order and each once,
    exactly the positions whose label differs from the given one - every
    position when no label equals it, so that nothing is raised for an
    unknown label.  (This is the form of axis tuple that the model of
    [np.sum] takes.) *)
Theorem get_other_axes_from_lists_the_other_positions (d : Distribution)
    (axis_label : string) :
  get_other_axes_from d axis_label
  = filter (fun i => axes_labels d !! i ≠ Some axis_label)
           (seq 0 (length (axes_labels d))).
Proof.
  unfold get_other_axes_from.
  change (fun axis name => (axis, name))
    with (fun (axis : nat) (name : string) => ((0 + axis)%nat, name)).
  rewrite other_axes_from. apply filter_agree. apply Forall_forall.
  intros i _. by rewrite Nat.sub_0_r.
Qed.

(** ** The entries of a product *)

Lemma ravel_snoc (s idx : list nat) n c acc :
  length idx = length s →
  ravel (s ++ [n]) (idx ++ [c]) acc = (ravel s idx acc * n + c)%nat.
Proof.
  revert idx acc. induction s as [|m s IH]; intros [|i idx] acc Hlen; try done.
  simpl. apply IH. simpl in Hlen. lia.
Qed.

Lemma length_unravel_rev rs k : length (unravel_rev rs k) = length rs.
Proof. revert k. induction rs as [|n rs IH]; intros k; simpl; [done|]. by rewrite IH. Qed.

Lemma length_unravel s k : length (unravel s k) = length s.
Proof. unfold unravel. by rewrite length_reverse, length_unravel_rev, length_reverse. Qed.

Lemma np_size_reverse s : np_size (reverse s) = np_size s.
Proof.
  induction s as [|n s IH]; [done|].
  rewrite reverse_cons, np_size_app, IH, np_size_cons. unfold np_size. simpl. lia.
Qed.

(** Row-major position and multi-index are inverse to each other. *)
Lemma ravel_unravel_rev rs k :
  (k < np_size rs)%nat → ravel (reverse rs) (reverse (unravel_rev rs k)) 0 = k.
Proof.
  revert k. induction rs as [|n rs IH]; intros k Hk.
  - unfold np_size in Hk. simpl in *. lia.
  - rewrite np_size_cons in Hk. simpl unravel_rev. rewrite !reverse_cons.
    rewrite ravel_snoc
      by (by rewrite !length_reverse, length_unravel_rev).
    assert (n ≠ 0)%nat as Hn by (intros ->; lia).
    rewrite IH.
    + pose proof (Nat.div_mod_eq k n). lia.
    + apply Nat.Div0.div_lt_upper_bound. lia.
Qed.

Lemma ravel_unravel s k : (k < np_size s)%nat → ravel s (unravel s k) 0 = k.
Proof.
  intros Hk. unfold unravel.
  rewrite <- (reverse_involutive s) at 1.
  apply ravel_unravel_rev. by rewrite np_size_reverse.
Qed.

(** Every coordinate of a multi-index is within its dimension. *)
Lemma unravel_rev_bound rs k :
  (k < np_size rs)%nat → Forall2 (fun n c => (c < n)%nat) rs (unravel_rev rs k).
Proof.
  revert k. induction rs as [|n rs IH]; intros k Hk; [constructor|].
  rewrite np_size_cons in Hk.
  assert (n ≠ 0)%nat as Hn by (intros ->; lia).
  simpl. constructor.
  - by apply Nat.mod_upper_bound.
  - apply IH. apply Nat.Div0.div_lt_upper_bound. lia.
Qed.

Lemma unravel_bound s k :
  (k < np_size s)%nat → Forall2 (fun n c => (c < n)%nat) s (unravel s k).
Proof.
  intros Hk. unfold unravel.
  rewrite <- (reverse_involutive s) at 1. apply Forall2_reverse.
  apply unravel_rev_bound. by rewrite np_size_reverse.
Qed.

Lemma zip_with_in_range (s idx : list nat) :
  Forall2 (fun n c => (c < n)%nat) s idx →
  zip_with (fun n i => if (n =? 1)%nat then 0%nat else i) s idx = idx.
Proof.
  induction 1 as [|n c s' idx' Hc _ IH]; [done|]. simpl. rewrite IH. f_equal.
  destruct (Nat.eqb_spec n 1); lia.
Qed.

(** An operand of the full shape is read at the position itself. *)
Lemma bcast_index_full s k :
  (k < np_size s)%nat → bcast_index s (unravel s k) = k.
Proof.
  intros Hk. unfold bcast_index.
  rewrite length_unravel, Nat.sub_diag, drop_0.
  rewrite zip_with_in_range by (by apply unravel_bound).
  by apply ravel_unravel.
Qed.

Lemma ravel_ones (s idx : list nat) acc :
  ravel (map (fun _ => 1%nat) s)
        (zip_with (fun n i => if (n =? 1)%nat then 0%nat else i)
                  (map (fun _ => 1%nat) s) idx) acc = acc.
Proof.
  revert idx acc. induction s as [|m s IH]; intros [|i idx] acc; try done.
  simpl. rewrite IH. lia.
Qed.

(** An operand reshaped along axis [i] is read at coordinate [i]. *)
Lemma ravel_one_axis (s idx : list nat) i n acc :
  length idx = length s → s !! i = Some n → (nth i idx 0 < n)%nat →
  ravel (<[i := n]> (map (fun _ => 1%nat) s))
        (zip_with (fun n i => if (n =? 1)%nat then 0%nat else i)
                  (<[i := n]> (map (fun _ => 1%nat) s)) idx) acc
  = (acc * n + nth i idx 0)%nat.
Proof.
  revert idx i acc. induction s as [|m s IH]; intros [|c idx] i acc Hlen Hi Hc;
    try done.
  destruct i as [|i]; simpl in *.
  - injection Hi as ->. rewrite ravel_ones.
    destruct (Nat.eqb_spec n 1); lia.
  - rewrite IH; [|lia|done|done]. lia.
Qed.

Lemma bcast_index_axis (s : list nat) i n k :
  s !! i = Some n → (k < np_size s)%nat →
  bcast_index (<[i := n]> (map (fun _ => 1%nat) s)) (unravel s k)
  = nth i (unravel s k) 0%nat.
Proof.
  intros Hi Hk. unfold bcast_index.
  rewrite length_unravel, length_insert, length_map, Nat.sub_diag, drop_0.
  rewrite (ravel_one_axis s); [lia|apply length_unravel|done|].
  pose proof (unravel_bound s k Hk) as Hb.
  destruct (Forall2_lookup_l _ _ _ _ _ Hb Hi) as (c & Hc & Hlt).
  by rewrite (nth_lookup_Some _ _ _ _ Hc).
Qed.

Lemma bcast_index_scalar idx : bcast_index [] idx = 0%nat.
Proof. done. Qed.

(** X3. What [multiply] computes, in the case of a message that is a
    vector.  When the first label of [p_hi] is a label of [p_v_given_h],
    [i] is the axis [get_axes] gives it there, and [p_hi] has as many
    entries as that axis is long (in one dimension or more), the result
    keeps the labels and the shape of [p_v_given_h], and its entry at a
    position is the entry of [p_v_given_h] at that position times the entry
    of [p_hi] at coordinate [i] of the position's multi-index:
    [r[j1,...,jm] = a[j1,...,jm] * b[ji]]. *)
Theorem multiply_scales_along_the_axis (a b : Distribution) (h : string)
    (rest : list string) (i n : nat) :
  axes_labels b = h :: rest →
  dict_get (get_axes a) h = Some i →
  shape (probs a) !! i = Some n →
  shape (probs b) ≠ [] → np_size (shape (probs b)) = n →
  multiply a b
  = Ok (mk_Distribution
          (mk_ndarray (shape (probs a))
             (map (fun k =>
                     (nth k (data (probs a)) 0
                      * nth (nth i (unravel (shape (probs a)) k) 0%nat)
                            (data (probs b)) 0)%Q)
                  (seq 0 (np_size (shape (probs a))))))
          (axes_labels a)).
Proof.
  intros Hb Hi Hn Hne Hsize.
  rewrite (multiply_located a b h rest i n Hb Hi Hn).
  rewrite bool_decide_eq_true_2 by done. rewrite Hsize, Nat.eqb_refl.
  unfold np_multiply. simpl shape. simpl data.
  rewrite (broadcast_shapes_ones _ _ (dims_compatible _ _ _ Hn)). simpl.
  do 3 f_equal. apply map_ext_in. intros k Hk. apply in_seq in Hk.
  rewrite bcast_index_full by lia. by rewrite (bcast_index_axis _ _ _ _ Hn) by lia.
Qed.

Lemma multiply_scales_along_the_axis_witness :
  multiply p_v1_given_h1_demo p_h1_demo
  = Ok (mk_Distribution
          (mk_ndarray (shape (probs p_v1_given_h1_demo))
             (map (fun k =>
                     (nth k (data (probs p_v1_given_h1_demo)) 0
                      * nth (nth 1 (unravel (shape (probs p_v1_given_h1_demo)) k)
                                 0%nat)
                            (data (probs p_h1_demo)) 0)%Q)
                  (seq 0 (np_size (shape (probs p_v1_given_h1_demo))))))
          (axes_labels p_v1_given_h1_demo)).
Proof.
  apply (multiply_scales_along_the_axis p_v1_given_h1_demo p_h1_demo "h1" [] 1 3);
    try reflexivity.
  discriminate.
Defined.

Lemma Qmult_one (x : Q) : (x * 1)%Q = x.
Proof.
  destruct x as [p q]. unfold Qmult. simpl. by rewrite Z.mul_1_r, Pos.mul_1_r.
Qed.

Lemma nth_all {A} (l : list A) (x0 : A) :
  map (fun k => nth k l x0) (seq 0 (length l)) = l.
Proof.
  induction l as [|x l IH]; [done|]. simpl. f_equal.
  rewrite <- seq_shift, map_map. exact IH.
Qed.

(** X4. What [multiply] computes, in the case of a message that is a
    scalar (the message of a leaf variable): when the first label of [p_hi]
    is a label of [p_v_given_h] and [p_hi] is the 0-dimensional array [c],
    every entry of [p_v_given_h] is multiplied by [c] and labels and shape
    are kept; for [c = 1.0] the result is [p_v_given_h] itself. *)
Theorem multiply_by_a_scalar (a b : Distribution) (h : string)
    (rest : list string) (i n : nat) (c : Q) :
  axes_labels b = h :: rest →
  dict_get (get_axes a) h = Some i →
  shape (probs a) !! i = Some n →
  probs b = mk_ndarray [] [c] →
  multiply a b
  = Ok (mk_Distribution
          (mk_ndarray (shape (probs a))
             (map (fun k => (nth k (data (probs a)) 0 * c)%Q)
                  (seq 0 (np_size (shape (probs a))))))
          (axes_labels a))
  ∧ (c = 1%Q → length (data (probs a)) = np_size (shape (probs a)) →
     multiply a b = Ok a).
Proof.
  intros Hb Hi Hn Hc.
  assert (multiply a b
          = Ok (mk_Distribution
                  (mk_ndarray (shape (probs a))
                     (map (fun k => (nth k (data (probs a)) 0 * c)%Q)
                          (seq 0 (np_size (shape (probs a))))))
                  (axes_labels a))) as Hrun.
  { rewrite (multiply_located a b h rest i n Hb Hi Hn). rewrite Hc. simpl shape.
    rewrite bool_decide_eq_false_2 by (by intros H; apply H).
    unfold np_multiply. simpl shape. simpl data.
    rewrite broadcast_shapes_scalar. simpl.
    do 3 f_equal. apply map_ext_in. intros k Hk. apply in_seq in Hk.
    rewrite bcast_index_full by lia. done. }
  split; [exact Hrun|]. intros -> Hlen. rewrite Hrun. f_equal.
  destruct a as [[sh da] la]. simpl in *. do 2 f_equal.
  rewrite <- Hlen. etrans; [|apply (nth_all da 0%Q)].
  apply map_ext. intros k. apply Qmult_one.
Qed.

Lemma multiply_by_a_scalar_witness :
  multiply p_v1_given_h1_demo (mk_Distribution scalar_one ["h1"])
  = Ok (mk_Distribution
          (mk_ndarray (shape (probs p_v1_given_h1_demo))
             (map (fun k => (nth k (data (probs p_v1_given_h1_demo)) 0 * 1)%Q)
                  (seq 0 (np_size (shape (probs p_v1_given_h1_demo))))))
          (axes_labels p_v1_given_h1_demo))
  ∧ (1%Q = 1%Q →
     length (data (probs p_v1_given_h1_demo))
     = np_size (shape (probs p_v1_given_h1_demo)) →
     multiply p_v1_given_h1_demo (mk_Distribution scalar_one ["h1"])
     = Ok p_v1_given_h1_demo).
Proof.
  apply (multiply_by_a_scalar p_v1_given_h1_demo
           (mk_Distribution scalar_one ["h1"]) "h1" [] 1 3 1%Q); reflexivity.
Defined.

(** ** The two validity checks *)

(** The verdicts the notebook prints, in exact arithmetic. *)
Example validity_checks_of_the_notebook :
  is_valid_conditional p_v1_given_h1_demo "v1" = Ok true
  ∧ is_valid_joint p_v1_given_h1_demo = false
  ∧ is_valid_conditional p_h1_demo "h1" = Ok true
  ∧ is_valid_joint p_h1_demo = true
  ∧ is_valid_conditional p_v1_given_h0_h1_demo "v1" = Ok true
  ∧ is_valid_joint p_v1_given_h0_h1_demo = false
  ∧ (match multiply p_v1_given_h1_demo p_h1_demo with
     | Ok joint => is_valid_joint joint
     | Raise _ => false
     end) = true.
Proof. vm_compute. by repeat split. Qed.

(** Neither check looks at the sign of an entry, and a name that is not a
    label is a KeyError. *)
Example validity_checks_edge_cases :
  is_valid_joint (mk_Distribution (mk_ndarray [2]%nat [2; -1]%Q) ["a"]) = true
  ∧ is_valid_conditional p_v1_given_h1_demo "h2" = Raise KeyError
  ∧ is_valid_conditional
      (mk_Distribution (mk_ndarray [2]%nat [1#2; 1#2]%Q) ["a"; "b"]) "b"
    = Raise AxisError.
Proof. vm_compute. by repeat split. Qed.

Lemma sum_all_by_position (l : list Q) :
  foldr Qplus 0%Q (map (fun j => nth j l 0%Q) (seq 0 (length l)))
  = foldr Qplus 0%Q l.
Proof. by rewrite nth_all. Qed.

(** X5. On a table with a single axis the two checks agree: for a
    one-dimensional table labelled [h], [is_valid_conditional(h)] sums along
    the only axis, which is the grand total that [is_valid_joint] tests, so
    it returns the verdict of [is_valid_joint] - a prior is a valid
    conditional exactly when it is a valid joint. *)
Theorem validity_checks_agree_on_one_axis (d : Distribution) (h : string)
    (n : nat) :
  axes_labels d = [h] → shape (probs d) = [n] →
  length (data (probs d)) = n →
  is_valid_conditional d h = Ok (is_valid_joint d).
Proof.
  intros Hl Hs Hlen. unfold is_valid_conditional, is_valid_joint, get_axes.
  rewrite Hl. simpl. rewrite String.eqb_refl. simpl.
  unfold sum_axis. rewrite Hs. simpl. unfold np_size. simpl.
  rewrite andb_true_r. do 2 f_equal.
  unfold np_sum_all. rewrite <- Hlen.
  etrans; [|apply sum_all_by_position].
  f_equal. apply map_ext. intros j. f_equal. lia.
Qed.

Lemma validity_checks_agree_on_one_axis_witness :
  is_valid_conditional p_h1_demo "h1" = Ok (is_valid_joint p_h1_demo).
Proof.
  apply (validity_checks_agree_on_one_axis p_h1_demo "h1" 3); reflexivity.
Defined.

(** ** Strings *)

Lemma contains_app c (a b : string) :
  contains c (a +:+ b) = contains c a || contains c b.
Proof.
  induction a as [|c' a IH]; simpl; [done|].
  rewrite IH. by rewrite orb_assoc.
Qed.

Lemma split_nonempty sep s : split sep s ≠ [].
Proof.
  destruct s as [|c s]; simpl; [done|].
  destruct (Ascii.eqb c sep); [done|]. by destruct (split sep s).
Qed.

Lemma split_no_sep sep s : contains sep s = false → split sep s = [s].
Proof.
  induction s as [|c s IH]; simpl; [done|].
  intros H. apply orb_false_iff in H as [Hc Hs]. rewrite Hc.
  by rewrite (IH Hs).
Qed.

Lemma split_app_sep sep (x s : string) :
  contains sep x = false →
  split sep (x +:+ String sep s) = x :: split sep s.
Proof.
  induction x as [|c x IH]; simpl.
  - intros _. by rewrite Ascii.eqb_refl.
  - intros H. apply orb_false_iff in H as [Hc Hx]. rewrite Hc.
    by rewrite (IH Hx).
Qed.

(** No piece of a split holds the separator, and a character absent from
    the string is absent from every piece. *)
Lemma split_pieces sep c s x :
  x ∈ split sep s →
  contains sep x = false ∧ (contains c s = false → contains c x = false).
Proof.
  revert x. induction s as [|c' s IH]; intros x; simpl.
  - intros Hx. apply list_elem_of_singleton in Hx as ->. done.
  - destruct (Ascii.eqb c' sep) eqn:Hsep.
    + intros Hx. apply elem_of_cons in Hx as [->|Hx]; [done|].
      destruct (IH x Hx) as [H1 H2]. split; [done|].
      intros H. apply orb_false_iff in H as [_ H]. auto.
    + pose proof (split_nonempty sep s) as Hne.
      destruct (split sep s) as [|w ws]; [done|].
      intros Hx. apply elem_of_cons in Hx as [->|Hx].
      * destruct (IH w) as [H1 H2]; [by left|]. simpl. rewrite Hsep, H1.
        split; [done|]. intros H. apply orb_false_iff in H as [-> H]. auto.
      * destruct (IH x) as [H1 H2]; [by right|]. split; [done|].
        intros H. apply orb_false_iff in H as [_ H]. auto.
Qed.

(** Joining the pieces with the separator gives the string back. *)
Lemma concat_split sep s :
  String.concat (String sep "") (split sep s) = s.
Proof.
  induction s as [|c s IH]; simpl; [done|].
  pose proof (split_nonempty sep s) as Hne.
  destruct (Ascii.eqb_spec c sep) as [->|Hc].
  - destruct (split sep s) as [|w ws]; [done|].
    change (String.concat (String sep "") ("" :: w :: ws))
      with (String sep (String.concat (String sep "") (w :: ws))).
    by rewrite IH.
  - destruct (split sep s) as [|w ws]; [done|].
    destruct ws as [|w' ws]; simpl in *; by rewrite <- IH.
Qed.

(** Splitting a joined list of separator-free names gives the list back. *)
Lemma split_concat sep (l : list string) :
  l ≠ [] → Forall (fun x => contains sep x = false) l →
  split sep (String.concat (String sep "") l) = l.
Proof.
  induction l as [|x l IH]; [done|]. intros _ Hall.
  apply Forall_cons in Hall as [Hx Hl].
  destruct l as [|y l]; [by apply split_no_sep|].
  change (String.concat (String sep "") (x :: y :: l))
    with (x +:+ String sep (String.concat (String sep "") (y :: l))).
  rewrite split_app_sep by done. by rewrite IH.
Qed.

Lemma contains_concat c sep (l : list string) :
  Ascii.eqb sep c = false → Forall (fun x => contains c x = false) l →
  contains c (String.concat (String sep "") l) = false.
Proof.
  intros Hsep. induction l as [|x l IH]; [done|]. intros Hall.
  apply Forall_cons in Hall as [Hx Hl].
  destruct l as [|y l]; [done|].
  change (String.concat (String sep "") (x :: y :: l))
    with (x +:+ String sep (String.concat (String sep "") (y :: l))).
  rewrite contains_app, Hx. simpl. rewrite Hsep. by apply IH.
Qed.

Lemma length_split sep s : length (split sep s) = S (count_char sep s).
Proof.
  induction s as [|c s IH]; simpl; [done|].
  destruct (Ascii.eqb c sep); simpl; [by rewrite IH|].
  pose proof (split_nonempty sep s) as Hne.
  destruct (split sep s) as [|w ws]; [done|]. done.
Qed.

Lemma count_char_contains c s : contains c s = false ↔ count_char c s = 0%nat.
Proof.
  induction s as [|c' s IH]; simpl; [done|].
  destruct (Ascii.eqb c' c); simpl; [done|]. exact IH.
Qed.

Lemma str_last_app s c : str_last (s +:+ String c "") = Some c.
Proof.
  induction s as [|c' s IH]; simpl; [done|].
  destruct (s +:+ String c "") eqn:E; [by destruct s|]. done.
Qed.

Lemma str_init_app s c : str_init (s +:+ String c "") = s.
Proof.
  induction s as [|c' s IH]; simpl; [done|].
  destruct (s +:+ String c "") eqn:E; [by destruct s|]. by rewrite IH.
Qed.

Lemma str_init_last s c : str_last s = Some c → s = str_init s +:+ String c "".
Proof.
  induction s as [|c' s IH]; simpl; [done|].
  destruct s as [|c'' s]; [by intros [= ->]|].
  intros H.
  change (String c' (String c'' s)
          = String c' (str_init (String c'' s) +:+ String c "")).
  f_equal. by apply IH.
Qed.

(** ** One term *)

Lemma append_assoc (a b c : string) : (a +:+ b) +:+ c = a +:+ (b +:+ c).
Proof.
  induction a as [|x a IH]; [done|].
  change (String x ((a +:+ b) +:+ c) = String x (a +:+ (b +:+ c))).
  by rewrite IH.
Qed.

Lemma append_nil_r (a : string) : a +:+ "" = a.
Proof.
  induction a as [|x a IH]; [done|].
  change (String x (a +:+ "") = String x a). by rewrite IH.
Qed.

(** The text between the parentheses of a printed term. *)
Lemma printed_term_body vars given :
  printed_term vars given
  = String "(" ((String.concat "," vars
                 +:+ match given with
                     | [] => ""
                     | _ => "|" +:+ String.concat "," given
                     end) +:+ ")").
Proof. unfold printed_term. simpl. by rewrite append_assoc. Qed.

(** What [_parse_term] does with a term in parentheses. *)
Lemma parse_term_body body :
  _parse_term (String "(" (body +:+ ")"))
  = if contains "|"%char body then
      match split "|"%char body with
      | [var; giv] => Ok (split ","%char var, split ","%char giv)
      | _ => Raise ValueError
      end
    else Ok (split ","%char body, []).
Proof.
  unfold _parse_term.
  assert (str_last (String "(" (body +:+ ")")) = Some ")"%char) as ->.
  { change (String "(" (body +:+ ")")) with (String "(" body +:+ ")").
    apply str_last_app. }
  rewrite bool_decide_eq_true_2 by done. simpl.
  by rewrite str_init_app.
Qed.

(** A term [_parse_term] does not reject at its assertion is a text in
    parentheses. *)
Lemma parse_term_parenthesised t r :
  _parse_term t = r → r ≠ Raise IndexError → r ≠ Raise AssertionError →
  ∃ body, t = String "(" (body +:+ ")").
Proof.
  unfold _parse_term. destruct t as [|c0 rest]; [by intros <-|].
  destruct (Ascii.eqb_spec c0 "(") as [->|?]; simpl; [|by intros <-].
  case_bool_decide as Hlast; [|by intros <-]. intros _ _ _.
  destruct rest as [|c1 rest]; [done|].
  exists (str_init (String c1 rest)). f_equal.
  by apply str_init_last.
Qed.

(** Parsing a printed term gives its names back. *)
Lemma parse_printed_term (vars given : list string) :
  vars ≠ [] → Forall plain (vars ++ given) →
  _parse_term (printed_term vars given) = Ok (vars, given).
Proof.
  intros Hne Hplain. rewrite printed_term_body, parse_term_body.
  apply Forall_app in Hplain as [Hvars Hgiven].
  assert (contains "|"%char (String.concat "," vars) = false) as Hv.
  { apply contains_concat; [done|]. eapply Forall_impl; [exact Hvars|].
    by intros x [_ ?]. }
  assert (split ","%char (String.concat "," vars) = vars) as Hsv.
  { apply split_concat; [done|]. eapply Forall_impl; [exact Hvars|].
    by intros x [? _]. }
  destruct given as [|g gs].
  - rewrite append_nil_r, Hv. by rewrite Hsv.
  - assert (contains "|"%char (String.concat "," (g :: gs)) = false) as Hg.
    { apply contains_concat; [done|]. eapply Forall_impl; [exact Hgiven|].
      by intros x [_ ?]. }
    rewrite contains_app, Hv. simpl contains.
    change ("|" +:+ String.concat "," (g :: gs))
      with (String "|" (String.concat "," (g :: gs))).
    rewrite split_app_sep, (split_no_sep _ _ Hg) by done.
    rewrite Hsv, split_concat; [done|done|].
    eapply Forall_impl; [exact Hgiven|]. by intros x [? _].
Qed.

(** X6. [_parse_term] returns [(vars, given)] exactly on the text
    [(v1,...,vn)], when [given] is empty, or [(v1,...,vn|g1,...,gm)], where
    no name holds a comma or a bar and there is at least one left-hand
    name: printing what it returned gives the term back, and parsing a
    printed term gives its names back.  Names are not otherwise restricted:
    the empty name, spaces and parentheses pass. *)
Theorem parse_term_reads_printed_terms (t : string)
    (vars given : list string) :
  _parse_term t = Ok (vars, given)
  ↔ t = printed_term vars given ∧ vars ≠ [] ∧ Forall plain (vars ++ given).
Proof.
  split.
  - intros Hrun.
    destruct (parse_term_parenthesised t _ Hrun) as [body ->]; [done|done|].
    rewrite parse_term_body in Hrun. rewrite printed_term_body.
    destruct (contains "|"%char body) eqn:Hbar.
    + pose proof (concat_split "|" body) as Hbody.
      destruct (split "|"%char body) as [|var [|giv [|? ?]]] eqn:Hsplit;
        try done.
      injection Hrun as <- <-.
      assert (contains "|"%char var = false ∧ contains "|"%char giv = false)
        as [Hvar Hgiv].
      { split.
        - destruct (split_pieces "|" "|" body var) as [H _]; [|exact H].
          rewrite Hsplit. by left.
        - destruct (split_pieces "|" "|" body giv) as [H _]; [|exact H].
          rewrite Hsplit. by right; left. }
      split; [|split].
      * pose proof (split_nonempty "," giv) as Hne.
        destruct (split ","%char giv) as [|g gs] eqn:Hg; [done|].
        rewrite <- Hg, !concat_split. do 2 f_equal. rewrite <- Hbody. done.
      * apply split_nonempty.
      * apply Forall_app. split; apply Forall_forall; intros x Hx; split.
        -- by apply (proj1 (split_pieces "," "|" var x Hx)).
        -- by apply (proj2 (split_pieces "," "|" var x Hx)).
        -- by apply (proj1 (split_pieces "," "|" giv x Hx)).
        -- by apply (proj2 (split_pieces "," "|" giv x Hx)).
    + injection Hrun as <- <-.
      split; [|split].
      * by rewrite concat_split, append_nil_r.
      * apply split_nonempty.
      * rewrite app_nil_r. apply Forall_forall. intros x Hx. split.
        -- by apply (proj1 (split_pieces "," "|" body x Hx)).
        -- by apply (proj2 (split_pieces "," "|" body x Hx)).
  - intros (-> & Hne & Hplain). by apply parse_printed_term.
Qed.

Lemma parse_term_reads_printed_terms_witness :
  _parse_term "(a,b|c)" = Ok (["a"; "b"], ["c"]).
Proof.
  apply (parse_term_reads_printed_terms "(a,b|c)" ["a"; "b"] ["c"]).
  split; [reflexivity|]. split; [done|]. by repeat constructor.
Defined.

Example parse_term_odd_names :
  _parse_term "()" = Ok ([""], [])
  ∧ _parse_term "(a, b|)" = Ok (["a"; " b"], [""])
  ∧ _parse_term "((x))" = Ok (["(x)"], []).
Proof. by repeat split. Qed.

Lemma parse_term_shape c0 rest :
  (∃ body, String c0 rest = String "(" (body +:+ ")"))
  ∨ (_parse_term (String c0 rest) = Raise AssertionError
     ∧ ∀ body, String c0 rest ≠ String "(" (body +:+ ")")).
Proof.
  destruct (Ascii.eqb_spec c0 "(") as [->|Hc].
  - destruct (decide (str_last (String "(" rest) = Some ")"%char)) as [Hlast|Hlast].
    + left. destruct rest as [|c1 rest]; [done|].
      exists (str_init (String c1 rest)). f_equal. by apply str_init_last.
    + right. split.
      * unfold _parse_term. by rewrite bool_decide_eq_false_2.
      * intros body Hbody. apply Hlast. rewrite Hbody.
        change (String "(" (body +:+ ")")) with (String "(" body +:+ ")").
        apply str_last_app.
  - right. split.
    + unfold _parse_term. by destruct (Ascii.eqb_spec c0 "(").
    + intros body [= -> _]. done.
Qed.

(** X7. What [_parse_term] does with any text.  It raises exactly three
    exceptions: IndexError on the empty text (the subscript [term[0]]),
    AssertionError on a text that is not enclosed in parentheses, ValueError
    on a text in parentheses with two bars or more (the unpacking of
    [split('|')] into two names); it returns on a text in parentheses with
    at most one bar. *)
Theorem parse_term_outcome (t : string) :
  match _parse_term t with
  | Ok _ =>
      ∃ body, t = String "(" (body +:+ ")")
              ∧ (count_char "|" body ≤ 1)%nat
  | Raise e =>
      (e = IndexError ∧ t = "")
      ∨ (e = AssertionError ∧ t ≠ ""
         ∧ ∀ body, t ≠ String "(" (body +:+ ")"))
      ∨ (e = ValueError
         ∧ ∃ body, t = String "(" (body +:+ ")")
                   ∧ (2 ≤ count_char "|" body)%nat)
  end.
Proof.
  destruct (_parse_term t) as [r|e] eqn:Hrun.
  - destruct (parse_term_parenthesised t _ Hrun) as [body ->]; [done|done|].
    exists body. split; [done|]. rewrite parse_term_body in Hrun.
    pose proof (length_split "|" body) as Hlen.
    destruct (contains "|"%char body) eqn:Hbar.
    + destruct (split "|"%char body) as [|var [|giv [|? ?]]]; try done.
      simpl in Hlen. lia.
    + apply count_char_contains in Hbar. lia.
  - destruct t as [|c0 rest]; [left; by injection Hrun as <-|]. right.
    destruct (parse_term_shape c0 rest) as [[body Hbody]|[Hassert Hshape]].
    + right. rewrite Hbody in Hrun |- *. rewrite parse_term_body in Hrun.
      pose proof (length_split "|" body) as Hlen.
      destruct (contains "|"%char body) eqn:Hbar; [|done].
      assert (count_char "|" body ≠ 0%nat) as Hcount.
      { intros H0. apply count_char_contains in H0. congruence. }
      destruct (split "|"%char body) as [|var [|giv [|? ?]]]; try done;
        injection Hrun as <-; (split; [done|]); exists body;
        (split; [done|]); simpl in Hlen; lia.
    + left. rewrite Hassert in Hrun. injection Hrun as <-. done.
Qed.

(** ** The terms of a factorization string *)

Lemma map_result_app {A B} (f : A → result B) l1 l2 r1 :
  map_result f l1 = Ok r1 →
  map_result f (l1 ++ l2) = let? r2 := map_result f l2 in Ok (r1 ++ r2).
Proof.
  revert r1. induction l1 as [|a l1 IH]; intros r1; simpl.
  - intros [= <-]. by destruct (map_result f l2).
  - destruct (f a) as [b|e]; simpl; [|done].
    destruct (map_result f l1) as [bs|e] eqn:Hl1; simpl; [|done].
    intros [= <-]. rewrite (IH bs eq_refl).
    by destruct (map_result f l2).
Qed.

Lemma map_result_cons {A B} (f : A → result B) a l :
  map_result f (a :: l)
  = let? b := f a in let? bs := map_result f l in Ok (b :: bs).
Proof. done. Qed.

(** Cutting a string of p-free pieces, each after a letter p. *)
Lemma split_pieces_then (pieces : list string) (x0 s : string) :
  contains "p"%char x0 = false →
  Forall (fun t => contains "p"%char t = false) pieces →
  split "p"%char
    (x0 +:+ (foldr (fun t s => "p" +:+ t +:+ s) "" pieces +:+ String "p" s))
  = x0 :: pieces ++ split "p"%char s.
Proof.
  intros Hx0 Hall. revert x0 Hx0.
  induction Hall as [|t ts Ht _ IH]; intros x0 Hx0; simpl foldr.
  - change ("" +:+ String "p" s) with (String "p" s).
    by rewrite split_app_sep.
  - change (("p" +:+ t +:+ foldr (fun t s => "p" +:+ t +:+ s) "" ts)
            +:+ String "p" s)
      with (String "p" ((t +:+ foldr (fun t s => "p" +:+ t +:+ s) "" ts)
                        +:+ String "p" s)).
    rewrite split_app_sep by done. rewrite append_assoc, IH by done. done.
Qed.

Lemma split_pieces_only (pieces : list string) (x0 : string) :
  contains "p"%char x0 = false →
  Forall (fun t => contains "p"%char t = false) pieces →
  split "p"%char (x0 +:+ foldr (fun t s => "p" +:+ t +:+ s) "" pieces)
  = x0 :: pieces.
Proof.
  intros Hx0 Hall. revert x0 Hx0.
  induction Hall as [|t ts Ht _ IH]; intros x0 Hx0; simpl foldr.
  - rewrite append_nil_r. by apply split_no_sep.
  - change ("p" +:+ t +:+ foldr (fun t s => "p" +:+ t +:+ s) "" ts)
      with (String "p" (t +:+ foldr (fun t s => "p" +:+ t +:+ s) "" ts)).
    rewrite split_app_sep by done. by rewrite IH.
Qed.

Lemma printed_model_pieces ts :
  printed_model ts
  = foldr (fun t s => "p" +:+ t +:+ s) ""
          ((fun t => printed_term t.1 t.2) <$> ts).
Proof.
  unfold printed_model. induction ts as [|t ts IH]; [done|].
  rewrite fmap_cons. simpl foldr. by rewrite IH.
Qed.

Lemma printed_term_no_p t :
  term_ok t → contains "p"%char (printed_term t.1 t.2) = false.
Proof.
  intros [_ Hall]. rewrite printed_term_body.
  apply Forall_app in Hall as [Hvars Hgiven].
  assert (contains "p"%char (String.concat "," t.1) = false) as Hv.
  { apply contains_concat; [done|]. eapply Forall_impl; [exact Hvars|].
    by intros x [_ ?]. }
  assert (contains "p"%char (String.concat "," t.2) = false) as Hg.
  { apply contains_concat; [done|]. eapply Forall_impl; [exact Hgiven|].
    by intros x [_ ?]. }
  change (contains "p"%char (String "(" ?s)) with (contains "p"%char s).
  rewrite !contains_app, Hv. destruct (t.2) as [|g gs]; [done|].
  change ("|" +:+ String.concat "," (g :: gs))
    with (String "|" (String.concat "," (g :: gs))).
  change (contains "p"%char (String "|" ?s)) with (contains "p"%char s).
  by rewrite Hg.
Qed.

Lemma filter_nonempty_printed (ts : list (list string * list string)) :
  List.filter nonempty ((fun t => printed_term t.1 t.2) <$> ts)
  = (fun t => printed_term t.1 t.2) <$> ts.
Proof.
  induction ts as [|t ts IH]; [done|]. rewrite fmap_cons. simpl.
  by rewrite IH.
Qed.

Lemma parse_printed_terms (ts : list (list string * list string)) :
  Forall term_ok ts →
  map_result (fun t =>
                let? vg := _parse_term t in
                Ok (mk_ParsedTerm (String "p" t) (fst vg) (snd vg)))
             ((fun t => printed_term t.1 t.2) <$> ts)
  = Ok (parsed_term <$> ts).
Proof.
  induction 1 as [|[vs gs] ts [Hne Hall] _ IH]; [done|].
  rewrite !fmap_cons, map_result_cons, IH. cbv beta.
  assert (_parse_term (printed_term (vs, gs).1 (vs, gs).2) = Ok (vs, gs)) as ->;
    [|done].
  apply parse_printed_term; [done|].
  eapply Forall_impl; [exact Hall|]. by intros x [? _].
Qed.

(** X8. A factorization string written from terms is read back as those
    terms: if every name is free of commas, bars and the letter p, and
    every term has a left-hand name, then
    [_parse_model_string_into_terms] of the string [p(...)p(...)...]
    returns one ParsedTerm per term, in order, holding the term's text and
    its two lists of names.  The empty string gives no term. *)
Theorem terms_of_a_printed_model (ts : list (list string * list string)) :
  Forall term_ok ts →
  _parse_model_string_into_terms (printed_model ts) = Ok (parsed_term <$> ts).
Proof.
  intros Hok. unfold _parse_model_string_into_terms.
  rewrite printed_model_pieces.
  change (foldr (fun t s => "p" +:+ t +:+ s) "" ?l)
    with ("" +:+ foldr (fun t s => "p" +:+ t +:+ s) "" l).
  rewrite split_pieces_only; [|done|].
  - simpl List.filter. rewrite filter_nonempty_printed.
    by apply parse_printed_terms.
  - apply Forall_fmap. eapply Forall_impl; [exact Hok|].
    intros t Ht. by apply printed_term_no_p.
Qed.

Lemma terms_of_a_printed_model_witness :
  _parse_model_string_into_terms "p(h1)p(h2|h1)p(v1,v2|h1,h2)"
  = Ok [ mk_ParsedTerm "p(h1)" ["h1"] [];
         mk_ParsedTerm "p(h2|h1)" ["h2"] ["h1"];
         mk_ParsedTerm "p(v1,v2|h1,h2)" ["v1"; "v2"] ["h1"; "h2"] ].
Proof.
  apply (terms_of_a_printed_model
           [ (["h1"], []); (["h2"], ["h1"]); (["v1"; "v2"], ["h1"; "h2"]) ]).
  repeat constructor; done.
Defined.

(** X9. The letter p cannot occur in a name: the string is cut at every
    p, so a term in which a p occurs is handed to [_parse_term] in two
    pieces, and the first piece, which lacks its closing parenthesis, fails
    the assertion.  Precisely: after any well-formed terms, a term that
    opens with the text [x], free of p and not ending in a closing
    parenthesis, followed by a letter p makes [from_string] raise
    AssertionError, whatever follows. *)
Theorem letter_p_in_a_name_is_rejected
    (ts : list (list string * list string)) (x rest : string) :
  Forall term_ok ts →
  contains "p"%char x = false →
  str_last (String "(" x) ≠ Some ")"%char →
  from_string (printed_model ts +:+ "p(" +:+ x +:+ "p" +:+ rest)
  = Raise AssertionError.
Proof.
  intros Hok Hx Hlast. unfold from_string, parse_model_into_variables_and_factors.
  assert (_parse_model_string_into_terms
            (printed_model ts +:+ "p(" +:+ x +:+ "p" +:+ rest)
          = Raise AssertionError) as ->; [|done].
  unfold _parse_model_string_into_terms. rewrite printed_model_pieces.
  change ("p(" +:+ x +:+ "p" +:+ rest)
    with (String "p" (String "(" x +:+ String "p" rest)).
  change (foldr (fun t r => "p" +:+ t +:+ r) "" ?l +:+ ?tl)
    with ("" +:+ (foldr (fun t r => "p" +:+ t +:+ r) "" l +:+ tl)).
  rewrite split_pieces_then; [|done|].
  - rewrite split_app_sep by done.
    simpl List.filter. rewrite List.filter_app, filter_nonempty_printed.
    simpl List.filter.
    rewrite (map_result_app _ _ _ _ (parse_printed_terms ts Hok)).
    simpl map_result. unfold _parse_term at 1.
    rewrite bool_decide_eq_false_2 by done. done.
  - apply Forall_fmap. eapply Forall_impl; [exact Hok|].
    intros t Ht. by apply printed_term_no_p.
Qed.

Lemma letter_p_in_a_name_is_rejected_witness :
  from_string "p(rain)p(temp|rain)" = Raise AssertionError.
Proof.
  apply (letter_p_in_a_name_is_rejected [(["rain"], [])] "tem" "|rain)").
  - repeat constructor; done.
  - reflexivity.
  - discriminate.
Defined.

(** ** The graph the parser builds *)

Lemma declare_fresh (pts : list ParsedTerm) (vs : list VariableNode) :
  Forall (fun v : Node => neighbors v = []) vs →
  Forall (fun v : Node => neighbors v = []) (fold_left declare_variables pts vs).
Proof.
  revert vs. induction pts as [|pt pts IH]; intros vs Hvs; [done|].
  simpl. apply IH. unfold declare_variables.
  generalize (var_name pt). intros xs. revert vs Hvs.
  induction xs as [|x xs IHx]; intros vs Hvs; [done|]. simpl.
  apply IHx. destruct (variable_index vs x); [done|].
  apply Forall_app. split; [done|]. by constructor.
Qed.

Lemma well_linked_fresh (vs : list VariableNode) :
  Forall (fun v : Node => neighbors v = []) vs → well_linked [] vs.
Proof.
  intros Hvs. split; [done|]. intros j var i Hj Hi.
  rewrite (proj1 (Forall_forall _ _) Hvs var) in Hi
    by (by eapply list_elem_of_lookup_2).
  by apply elem_of_nil in Hi.
Qed.

Lemma well_linked_open (fs : list Factor) (vs : list VariableNode) nm :
  well_linked fs vs → well_linked (fs ++ [new_Factor nm]) vs.
Proof.
  intros [Hb Hc]. split.
  - intros i fac j Hi Hj. apply lookup_app_Some in Hi as [Hi|[_ Hi]].
    + by eapply Hb.
    + apply list_lookup_singleton_Some in Hi as [_ <-].
      by apply elem_of_nil in Hj.
  - intros j var i Hj Hi. destruct (Hc j var i Hj Hi) as (fac & Hfac & Hin).
    exists fac. split; [|done]. apply lookup_app_Some. by left.
Qed.

Lemma variable_index_alter (vs : list VariableNode) j fref x :
  variable_index (alter (fun node => add_neighbor node fref) j vs) x
  = variable_index vs x.
Proof. apply variable_index_names. apply grows_names, grows_alter. Qed.

(** One pass of the inner loop of the second pass. *)
Lemma link_variable_step (fs : list Factor) (cur : Factor)
    (vs : list VariableNode) x j :
  well_linked (fs ++ [cur]) vs → variable_index vs x = Some j →
  well_linked (fs ++ [factor_add_neighbor cur j])
              (alter (fun node => add_neighbor node (length fs)) j vs).
Proof.
  intros [Hb Hc] Hx. apply variable_index_Some in Hx as (v & Hv & _).
  assert (∀ i (fac : Factor) k,
            (fs ++ [cur]) !! i = Some fac → k ∈ neighbors fac →
            ∃ fac' : Factor,
              (fs ++ [factor_add_neighbor cur j]) !! i = Some fac'
              ∧ k ∈ neighbors fac') as Hgrow.
  { intros i fac k Hi Hk. apply lookup_app_Some in Hi as [Hi|[Hlen Hi]].
    - exists fac. split; [|done]. apply lookup_app_Some. by left.
    - apply list_lookup_singleton_Some in Hi as [Hi0 <-].
      exists (factor_add_neighbor cur j). split.
      + apply lookup_app_Some. right. split; [done|]. by rewrite Hi0.
      + simpl. apply elem_of_app. by left. }
  assert (∀ k (var : VariableNode) i,
            vs !! k = Some var → i ∈ neighbors var →
            ∃ var' : VariableNode,
              alter (fun node => add_neighbor node (length fs)) j vs !! k
              = Some var' ∧ i ∈ neighbors var') as Hgrowv.
  { intros k var i Hk Hi. destruct (decide (k = j)) as [->|Hne].
    - exists (add_neighbor var (length fs)). split.
      + rewrite list_lookup_alter_eq. unfold VariableNode in *. by rewrite Hk.
      + simpl. apply elem_of_app. by left.
    - exists var. split; [|done]. by rewrite list_lookup_alter_ne. }
  split.
  - intros i fac k Hi Hk. apply lookup_app_Some in Hi as [Hi|[Hlen Hi]].
    + destruct (Hb i fac k) as (var & Hvar & Hin); [|done|by eapply Hgrowv].
      apply lookup_app_Some. by left.
    + apply list_lookup_singleton_Some in Hi as [Hi0 <-].
      simpl in Hk. apply elem_of_app in Hk as [Hk|Hk].
      * destruct (Hb i cur k) as (var & Hvar & Hin); [|done|by eapply Hgrowv].
        apply lookup_app_Some. right. split; [done|]. by rewrite Hi0.
      * apply list_elem_of_singleton in Hk as ->.
        exists (add_neighbor v (length fs)). split.
        -- rewrite list_lookup_alter_eq. unfold VariableNode in *. by rewrite Hv.
        -- simpl. apply elem_of_app. right.
           apply list_elem_of_singleton. lia.
  - intros k var i Hk Hi. destruct (decide (k = j)) as [->|Hne].
    + rewrite list_lookup_alter_eq in Hk. unfold VariableNode in *.
      rewrite Hv in Hk. injection Hk as <-. simpl in Hi.
      apply elem_of_app in Hi as [Hi|Hi].
      * destruct (Hc j v i Hv Hi) as (fac & Hfac & Hin). by eapply Hgrow.
      * apply list_elem_of_singleton in Hi as ->.
        exists (factor_add_neighbor cur j). split.
        -- apply lookup_app_Some. right.
           split; [done|]. by rewrite Nat.sub_diag.
        -- simpl. apply elem_of_app. right. by apply list_elem_of_singleton.
    + rewrite list_lookup_alter_ne in Hk by done.
      destruct (Hc k var i Hk Hi) as (fac & Hfac & Hin). by eapply Hgrow.
Qed.

Lemma refs_of_names vs vs' names refs :
  name <$> vs' = name <$> vs → refs_of vs names refs → refs_of vs' names refs.
Proof.
  intros Hn H. eapply Forall2_impl; [exact H|]. intros x j Hx.
  by rewrite (variable_index_names vs vs' x Hn).
Qed.

(** The inner loop of the second pass, when it returns. *)
Lemma link_variables_exact (fs : list Factor) (xs : list string) :
  ∀ (seen : list string) (cur cur' : Factor) (vs vs' : list VariableNode),
    fold_result (link_variable (length fs)) xs (cur, vs) = Ok (cur', vs') →
    well_linked (fs ++ [cur]) vs → refs_of vs seen (neighbors cur) →
    well_linked (fs ++ [cur']) vs'
    ∧ refs_of vs' (seen ++ xs) (neighbors cur')
    ∧ f_data cur' = f_data cur ∧ name cur' = name cur
    ∧ name <$> vs' = name <$> vs.
Proof.
  induction xs as [|x xs IH]; intros seen cur cur' vs vs'; simpl.
  - intros [= <- <-] Hwl Hrefs. by rewrite app_nil_r.
  - destruct (variable_index vs x) as [j|] eqn:Hj; simpl; [|done].
    intros Hrun Hwl Hrefs.
    apply (IH (seen ++ [x])) in Hrun as (Hwl' & Hrefs' & Hd & Hn & Hnames).
    + split; [done|]. split; [by rewrite <- app_assoc in Hrefs'|].
      split; [done|]. split; [done|].
      rewrite Hnames. apply grows_names, grows_alter.
    + by apply link_variable_step with x.
    + simpl. apply Forall2_app.
      * eapply refs_of_names; [|exact Hrefs]. apply grows_names, grows_alter.
      * constructor; [|constructor]. by rewrite variable_index_alter.
Qed.

(** The second pass, when it returns. *)
Lemma link_factors_exact (pts : list ParsedTerm) :
  ∀ (fs fs' : list Factor) (vs vs' : list VariableNode),
    fold_result link_factor pts (fs, vs) = Ok (fs', vs') →
    well_linked fs vs →
    well_linked fs' vs'
    ∧ name <$> vs' = name <$> vs
    ∧ ∃ new : list Factor,
        fs' = fs ++ new
        ∧ Forall2 (fun pt (fac : Factor) =>
                     name fac = term pt ∧ f_data fac = None
                     ∧ refs_of vs' (identifiers pt) (neighbors fac))
                  pts new.
Proof.
  induction pts as [|pt pts IH]; intros fs fs' vs vs'; simpl.
  - intros [= <- <-] Hwl. split; [done|]. split; [done|]. exists [].
    split; [by rewrite app_nil_r|constructor].
  - destruct (fold_result (link_variable (length fs)) (var_name pt ++ given pt)
                (new_Factor (term pt), vs)) as [[fac1 vs1]|] eqn:Hlink;
      simpl; [|done].
    intros Hrest Hwl.
    apply (link_variables_exact fs _ []) in Hlink
      as (Hwl1 & Hrefs1 & Hd1 & Hn1 & Hnames1);
      [|by apply well_linked_open|constructor].
    apply IH in Hrest as (Hwl' & Hnames' & new & -> & Hall); [|done].
    split; [done|]. split; [congruence|]. exists (fac1 :: new).
    split; [by rewrite <- app_assoc|]. constructor; [|done].
    split; [done|]. split; [done|]. by eapply refs_of_names.
Qed.

Lemma map_result_returns {A B} (f : A → result B) l r :
  map_result f l = Ok r → Forall2 (fun a b => f a = Ok b) l r.
Proof.
  revert r. induction l as [|a l IH]; intros r; simpl.
  - intros [= <-]. constructor.
  - destruct (f a) as [b|e] eqn:Hb; simpl; [|done].
    destruct (map_result f l) as [bs|e]; simpl; [|done].
    intros [= <-]. constructor; [done|by apply IH].
Qed.

(** A character that does not occur in a term occurs in none of its
    names. *)
Lemma parse_term_names c t vars given :
  _parse_term t = Ok (vars, given) → contains c t = false →
  Forall (fun x => contains c x = false) (vars ++ given).
Proof.
  intros Hrun Hc.
  destruct (parse_term_parenthesised t _ Hrun) as [body ->]; [done|done|].
  rewrite parse_term_body in Hrun.
  simpl in Hc. apply orb_false_iff in Hc as [_ Hc].
  rewrite contains_app in Hc. apply orb_false_iff in Hc as [Hc _].
  destruct (contains "|"%char body).
  - destruct (split "|"%char body) as [|var [|giv [|? ?]]] eqn:Hsplit; try done.
    injection Hrun as <- <-.
    assert (contains c var = false ∧ contains c giv = false) as [Hvar Hgiv].
    { split.
      - apply (proj2 (split_pieces "|" c body var
                        ltac:(rewrite Hsplit; by left)) Hc).
      - apply (proj2 (split_pieces "|" c body giv
                        ltac:(rewrite Hsplit; by right; left)) Hc). }
    apply Forall_app. split; apply Forall_forall; intros x Hx.
    + exact (proj2 (split_pieces "," c var x Hx) Hvar).
    + exact (proj2 (split_pieces "," c giv x Hx) Hgiv).
  - injection Hrun as <- <-. rewrite app_nil_r. apply Forall_forall.
    intros x Hx. exact (proj2 (split_pieces "," c body x Hx) Hc).
Qed.

(** The terms of a string: each is a piece between two letters p, its text
    is that piece after a p, and its names hold no p. *)
Lemma terms_have_no_p model_string pts :
  _parse_model_string_into_terms model_string = Ok pts →
  Forall (fun pt =>
            (∃ text, term pt = String "p" text)
            ∧ Forall (fun x => contains "p"%char x = false) (identifiers pt))
         pts.
Proof.
  unfold _parse_model_string_into_terms. intros Hrun.
  apply map_result_returns in Hrun.
  assert (Forall (fun t => contains "p"%char t = false)
            (List.filter nonempty (split "p"%char model_string))) as Hpieces.
  { apply Forall_forall. intros t Ht. apply list_elem_of_In, filter_In in Ht as [Ht _].
    apply list_elem_of_In in Ht.
    exact (proj1 (split_pieces "p" "p" model_string t Ht)). }
  revert Hpieces. induction Hrun as [|t pt ts pts Ht _ IH]; intros Hpieces.
  - constructor.
  - apply Forall_cons in Hpieces as [Hp Hpieces]. constructor; [|by apply IH].
    destruct (_parse_term t) as [[vars given]|] eqn:Hparse; [|done].
    injection Ht as <-. simpl. split; [by eexists|].
    by apply (parse_term_names "p" t).
Qed.

(** [from_string], when it returns. *)
Lemma from_string_returns (model_string : string) (g : PGM) :
  from_string model_string = Ok g →
  NoDup (name <$> _variables g)
  ∧ well_linked (_factors g) (_variables g)
  ∧ Forall (fun fac : Factor =>
              f_data fac = None ∧ ∃ text, name fac = String "p" text)
           (_factors g)
  ∧ Forall (fun var : VariableNode =>
              contains "p"%char (name var) = false ∧ neighbors var ≠ [])
           (_variables g).
Proof.
  unfold from_string, parse_model_into_variables_and_factors.
  destruct (_parse_model_string_into_terms model_string) as [pts|] eqn:Hterms;
    simpl; [|done].
  destruct (fold_result link_factor pts _) as [[fs vs]|] eqn:Hrun; simpl; [|done].
  intros [= <-]. simpl.
  destruct (declare_all_names pts [] (NoDup_nil_2)) as [Hnd Hin].
  pose proof (terms_have_no_p _ _ Hterms) as Hnop.
  destruct (link_factors_exact pts _ _ _ _ Hrun) as (Hwl & Hnames & new & -> & Hall).
  { apply well_linked_fresh, declare_fresh. constructor. }
  destruct (link_factors_spec pts _ _ _ _ Hrun) as (_ & new' & Hnew & _ & Hlinks).
  simpl in *. subst new'.
  assert (NoDup (name <$> vs)) as Hnd' by (by rewrite Hnames).
  split; [done|]. split; [done|]. split.
  - apply Forall_forall. intros fac Hfac.
    apply list_elem_of_lookup in Hfac as [i Hi].
    destruct (Forall2_lookup_r _ _ _ _ _ Hall Hi) as (pt & Hpt & Hn & Hd & _).
    split; [done|]. rewrite Hn.
    apply (proj1 (Forall_forall _ _) Hnop pt).
    by eapply list_elem_of_lookup_2.
  - apply Forall_forall. intros var Hvar.
    assert (name var ∈ name <$> vs) as Hname
      by (apply list_elem_of_fmap; by exists var).
    rewrite Hnames in Hname. apply Hin in Hname as [Hname|(pt & Hpt & Hx)];
      [by apply elem_of_nil in Hname|].
    split.
    + destruct (proj1 (Forall_forall _ _) Hnop pt Hpt) as [_ Hids].
      apply (proj1 (Forall_forall _ _) Hids). apply elem_of_app. by left.
    + apply list_elem_of_lookup in Hpt as [i Hi].
      destruct (Forall2_lookup_l _ _ _ _ _ Hall Hi) as (fac & Hfac & _).
      destruct (Hlinks i pt fac (name var) Hi Hfac) as (j & v' & Hv' & Hvn & _ & Hadj).
      { apply elem_of_app. by left. }
      apply list_elem_of_lookup in Hvar as [j' Hj'].
      assert (j = j') as ->.
      { eapply NoDup_lookup; [exact Hnd'| |].
        - rewrite list_lookup_fmap. unfold VariableNode in *. by rewrite Hv'.
        - rewrite list_lookup_fmap. unfold VariableNode in *.
          rewrite Hj'. simpl. by rewrite Hvn. }
      unfold VariableNode in *. assert (v' = var) as -> by congruence.
      intros Hnil. rewrite Hnil in Hadj. by apply elem_of_nil in Hadj.
Qed.

(** X10. The graph [from_string] returns is well formed, whatever the
    string: the variables have distinct names; every neighbour reference
    denotes a node and every edge is recorded at both ends (variable [j] is
    a neighbour of factor [i] exactly when factor [i] is a neighbour of
    variable [j]); every factor has [data = None] and a name that starts
    with the letter p; no variable name holds a p - so no variable is called
    like a factor -; and every variable has at least one neighbour. *)
Theorem parser_builds_a_well_formed_graph (model_string : string) (g : PGM) :
  from_string model_string = Ok g →
  NoDup (name <$> _variables g)
  ∧ well_linked (_factors g) (_variables g)
  ∧ Forall (fun fac : Factor =>
              f_data fac = None ∧ ∃ text, name fac = String "p" text)
           (_factors g)
  ∧ Forall (fun var : VariableNode =>
              contains "p"%char (name var) = false ∧ neighbors var ≠ [])
           (_variables g).
Proof. apply from_string_returns. Qed.

Lemma parser_builds_a_well_formed_graph_witness :
  NoDup (name <$> _variables forest_parsed)
  ∧ well_linked (_factors forest_parsed) (_variables forest_parsed)
  ∧ Forall (fun fac : Factor =>
              f_data fac = None ∧ ∃ text, name fac = String "p" text)
           (_factors forest_parsed)
  ∧ Forall (fun var : VariableNode =>
              contains "p"%char (name var) = false ∧ neighbors var ≠ [])
           (_variables forest_parsed).
Proof.
  apply (parser_builds_a_well_formed_graph "p(a)p(b|a)p(c)" forest_parsed).
  reflexivity.
Defined.

(** X11. The neighbour list of the factor built for a term is exactly the
    list of the term's names, left-hand names first, in the order they are
    written: entry [k] of the list refers to the variable called like name
    [k] of the term.  A name written twice in a term is linked twice. *)
Theorem factor_neighbours_are_the_names_of_its_term (model_string : string)
    (factors : list Factor) (variables : list VariableNode) :
  parse_model_into_variables_and_factors model_string
    = Ok (factors, variables) →
  ∃ parsed_terms,
    _parse_model_string_into_terms model_string = Ok parsed_terms
    ∧ Forall2 (fun pt (fac : Factor) =>
                 name fac = term pt
                 ∧ Forall2 (fun x j =>
                              ∃ var : VariableNode,
                                variables !! j = Some var ∧ name var = x)
                           (identifiers pt) (neighbors fac))
              parsed_terms factors.
Proof.
  unfold parse_model_into_variables_and_factors.
  destruct (_parse_model_string_into_terms model_string) as [pts|];
    simpl; [|done].
  intros Hrun. exists pts. split; [done|].
  destruct (link_factors_exact pts _ _ _ _ Hrun) as (_ & _ & new & Hnew & Hall).
  { apply well_linked_fresh, declare_fresh. constructor. }
  simpl in Hnew. subst new.
  eapply Forall2_impl; [exact Hall|]. intros pt fac (Hn & _ & Hrefs).
  split; [done|]. eapply Forall2_impl; [exact Hrefs|].
  intros x j Hx. apply variable_index_Some in Hx as (v & Hv & Hvn).
  by exists v.
Qed.

Lemma factor_neighbours_are_the_names_of_its_term_witness :
  ∃ parsed_terms,
    _parse_model_string_into_terms "p(b|a,a)p(a)" = Ok parsed_terms
    ∧ Forall2 (fun pt (fac : Factor) =>
                 name fac = term pt
                 ∧ Forall2 (fun x j =>
                              ∃ var : VariableNode,
                                [mk_Node "b" [0]%nat; mk_Node "a" [0; 0; 1]%nat]
                                  !! j = Some var ∧ name var = x)
                           (identifiers pt) (neighbors fac))
              parsed_terms
              [ mk_Factor (mk_Node "p(b|a,a)" [0; 1; 1]%nat) None;
                mk_Factor (mk_Node "p(a)" [1]%nat) None ].
Proof.
  apply (factor_neighbours_are_the_names_of_its_term "p(b|a,a)p(a)").
  reflexivity.
Defined.

(** ** Names that are never declared *)

Lemma link_variables_raise fref (xs : list string) :
  ∀ (cur : Factor) (vs : list VariableNode) e,
    fold_result (link_variable fref) xs (cur, vs) = Raise e →
    e = KeyError ∧ ∃ x, x ∈ xs ∧ x ∉ (name <$> vs).
Proof.
  induction xs as [|x xs IH]; intros cur vs e; simpl; [done|].
  destruct (variable_index vs x) as [j|] eqn:Hj; simpl.
  - intros Hrun. apply IH in Hrun as (-> & y & Hy & Hny). split; [done|].
    exists y. split; [by right|].
    by rewrite (grows_names _ _ (grows_alter vs j fref)) in Hny.
  - intros [= <-]. split; [done|]. exists x. split; [by left|].
    by apply variable_index_None.
Qed.

Lemma link_factors_raise (pts : list ParsedTerm) :
  ∀ (fs : list Factor) (vs : list VariableNode) e,
    fold_result link_factor pts (fs, vs) = Raise e →
    e = KeyError
    ∧ ∃ pt x, pt ∈ pts ∧ x ∈ identifiers pt ∧ x ∉ (name <$> vs).
Proof.
  induction pts as [|pt pts IH]; intros fs vs e; simpl; [done|].
  destruct (fold_result (link_variable (length fs)) (var_name pt ++ given pt)
              (new_Factor (term pt), vs)) as [[fac1 vs1]|e1] eqn:Hlink; simpl.
  - intros Hrun. apply IH in Hrun as (-> & pt' & x & Hpt' & Hx & Hnx).
    split; [done|]. exists pt', x. split; [by right|]. split; [done|].
    apply link_variables_spec in Hlink as (Hg & _).
    by rewrite (grows_names _ _ Hg) in Hnx.
  - intros [= <-]. apply link_variables_raise in Hlink as (-> & x & Hx & Hnx).
    split; [done|]. exists pt, x. split; [by left|]. done.
Qed.

(** X12. Undeclared names.  The parser creates a Variable for the names
    left of a bar only; a name that occurs right of a bar and left of none
    has no Variable, and the lookup [variables[var_name]] of the second pass
    raises KeyError.  On a string whose terms are well formed this is the
    only way [parse_model_into_variables_and_factors] fails: it raises
    KeyError when some right-hand name is a left-hand name of no term, and
    returns otherwise. *)
Theorem parser_raises_key_error_on_undeclared_names (model_string : string)
    (parsed_terms : list ParsedTerm) :
  _parse_model_string_into_terms model_string = Ok parsed_terms →
  match parse_model_into_variables_and_factors model_string with
  | Ok _ =>
      ∀ pt x, pt ∈ parsed_terms → x ∈ given pt →
              ∃ pt', pt' ∈ parsed_terms ∧ x ∈ var_name pt'
  | Raise e =>
      e = KeyError
      ∧ ∃ pt x, pt ∈ parsed_terms ∧ x ∈ given pt
                ∧ ∀ pt', pt' ∈ parsed_terms → x ∉ var_name pt'
  end.
Proof.
  intros Hterms. unfold parse_model_into_variables_and_factors.
  rewrite Hterms. simpl.
  destruct (declare_all_names parsed_terms [] (NoDup_nil_2)) as [_ Hin].
  destruct (fold_result link_factor parsed_terms _) as [[fs vs]|e] eqn:Hrun.
  - intros pt x Hpt Hx.
    assert (x ∈ name <$> fold_left declare_variables parsed_terms []) as Hdecl.
    { eapply link_factors_known; [exact Hrun|exact Hpt|].
      apply elem_of_app. by right. }
    apply Hin in Hdecl as [Hdecl|Hdecl]; [by apply elem_of_nil in Hdecl|done].
  - apply link_factors_raise in Hrun as (-> & pt & x & Hpt & Hx & Hnx).
    split; [done|]. exists pt, x. split; [done|].
    assert (∀ pt', pt' ∈ parsed_terms → x ∉ var_name pt') as Hnone.
    { intros pt' Hpt' Hx'. apply Hnx, Hin. right. by exists pt'. }
    split; [|done]. apply elem_of_app in Hx as [Hx|Hx]; [|done].
    by destruct (Hnone pt Hpt).
Qed.

Lemma parser_raises_key_error_on_undeclared_names_witness :
  match parse_model_into_variables_and_factors "p(a|b)p(c)" with
  | Ok _ =>
      ∀ pt x, pt ∈ [mk_ParsedTerm "p(a|b)" ["a"] ["b"];
                    mk_ParsedTerm "p(c)" ["c"] []] → x ∈ given pt →
              ∃ pt', pt' ∈ [mk_ParsedTerm "p(a|b)" ["a"] ["b"];
                            mk_ParsedTerm "p(c)" ["c"] []] ∧ x ∈ var_name pt'
  | Raise e =>
      e = KeyError
      ∧ ∃ pt x, pt ∈ [mk_ParsedTerm "p(a|b)" ["a"] ["b"];
                      mk_ParsedTerm "p(c)" ["c"] []] ∧ x ∈ given pt
                ∧ ∀ pt', pt' ∈ [mk_ParsedTerm "p(a|b)" ["a"] ["b"];
                                mk_ParsedTerm "p(c)" ["c"] []] → x ∉ var_name pt'
  end.
Proof.
  apply (parser_raises_key_error_on_undeclared_names "p(a|b)p(c)").
  reflexivity.
Defined.

(** X13. [variable_from_name] on a graph built by [from_string]: it
    returns a reference to the variable of that name for every name written
    in the string, left or right of a bar, and raises KeyError for every
    other name. *)
Theorem variable_from_name_knows_the_written_names (model_string : string)
    (g : PGM) (parsed_terms : list ParsedTerm) (x : string) :
  from_string model_string = Ok g →
  _parse_model_string_into_terms model_string = Ok parsed_terms →
  match variable_from_name g x with
  | Ok j =>
      (∃ var : VariableNode, _variables g !! j = Some var ∧ name var = x)
      ∧ ∃ pt, pt ∈ parsed_terms ∧ x ∈ identifiers pt
  | Raise e =>
      e = KeyError ∧ ∀ pt, pt ∈ parsed_terms → x ∉ identifiers pt
  end.
Proof.
  unfold from_string, parse_model_into_variables_and_factors.
  intros Hrun Hterms. rewrite Hterms in Hrun. simpl in Hrun.
  destruct (fold_result link_factor parsed_terms _) as [[fs vs]|] eqn:Hlink;
    simpl in Hrun; [|done].
  injection Hrun as <-. unfold variable_from_name. simpl.
  destruct (declare_all_names parsed_terms [] (NoDup_nil_2)) as [_ Hin].
  destruct (link_factors_spec parsed_terms _ _ _ _ Hlink) as (Hg & _).
  pose proof (grows_names _ _ Hg) as Hnames.
  destruct (variable_index vs x) as [j|] eqn:Hj; simpl.
  - apply variable_index_Some in Hj as (v & Hv & Hvn). split; [by exists v|].
    assert (x ∈ name <$> vs) as Hx.
    { apply list_elem_of_fmap. exists v. split; [done|].
      by eapply list_elem_of_lookup_2. }
    rewrite Hnames in Hx. apply Hin in Hx as [Hx|(pt & Hpt & Hx)];
      [by apply elem_of_nil in Hx|].
    exists pt. split; [done|]. apply elem_of_app. by left.
  - split; [done|]. intros pt Hpt Hx. apply variable_index_None in Hj.
    apply Hj. rewrite Hnames. by eapply link_factors_known.
Qed.

Lemma variable_from_name_knows_the_written_names_witness :
  match variable_from_name forest_parsed "b" with
  | Ok j =>
      (∃ var : VariableNode,
         _variables forest_parsed !! j = Some var ∧ name var = "b")
      ∧ ∃ pt, pt ∈ [ mk_ParsedTerm "p(a)" ["a"] [];
                     mk_ParsedTerm "p(b|a)" ["b"] ["a"];
                     mk_ParsedTerm "p(c)" ["c"] [] ]
              ∧ "b" ∈ identifiers pt
  | Raise e =>
      e = KeyError
      ∧ ∀ pt, pt ∈ [ mk_ParsedTerm "p(a)" ["a"] [];
                     mk_ParsedTerm "p(b|a)" ["b"] ["a"];
                     mk_ParsedTerm "p(c)" ["c"] [] ] → "b" ∉ identifiers pt
  end.
Proof.
  apply (variable_from_name_knows_the_written_names "p(a)p(b|a)p(c)"
           forest_parsed); reflexivity.
Defined.

(** ** Before the tensors are bound *)

Lemma bind_raises {A B} (c : M A) (k : A → M B) w e w1 :
  c w = (Raise e, w1) → bind c k w = (Raise e, w1).
Proof. intros H. unfold bind. by rewrite H. Qed.

(** X14. A graph fresh from [from_string] carries no tensor, and the engine
    does not check for it: on such a graph, with an empty cache, [marginal]
    of any variable raises AttributeError ([factor.data] is [None]) at the
    first neighbouring factor, and the cache stays empty. *)
Theorem marginal_before_binding_raises (model_string : string) (g : PGM)
    (n v : nat) (var : VariableNode) :
  from_string model_string = Ok g → _variables g !! v = Some var →
  marginal (S n) v (mk_World g ∅) = (Raise AttributeError, mk_World g ∅).
Proof.
  intros Hg Hv.
  destruct (from_string_returns _ _ Hg) as (_ & [_ Hc] & Hfs & Hvs).
  destruct (proj1 (Forall_forall _ _) Hvs var) as [_ Hne];
    [by eapply list_elem_of_lookup_2|].
  destruct (neighbors var) as [|f rest] eqn:Hnb; [done|].
  destruct (Hc v var f Hv) as (fac & Hfac & _); [rewrite Hnb; by left|].
  clear Hne.
  destruct (proj1 (Forall_forall _ _) Hfs fac) as [Hdata _];
    [by eapply list_elem_of_lookup_2|].
  set (w := mk_World g ∅).
  assert (get_variable v w = (Ok var, w)) as Hgv
    by (unfold get_variable, VariableNode in *; simpl; by rewrite Hv).
  assert (get_factor f w = (Ok fac, w)) as Hgf
    by (unfold get_factor; simpl; by rewrite Hfac).
  assert (factor_to_variable_message (S n) f v w = (Raise AttributeError, w))
    as Hcall.
  { simpl. rewrite (bind_ok _ _ _ _ _ Hgf), (bind_ok _ _ _ _ _ Hgv).
    assert (_factor_to_variable_messages (variable_to_factor_messages n) f v w
            = (Raise AttributeError, w)) as Hcompute.
    { unfold _factor_to_variable_messages.
      rewrite (bind_ok _ _ _ _ _ Hgf), (bind_ok _ _ _ _ _ Hgv).
      unfold bind at 1, lift at 1. by rewrite Hdata. }
    unfold memoised, bind at 1, message_in. simpl messages.
    rewrite lookup_empty.
    rewrite bool_decide_eq_false_2 by (by intros [? ?]).
    unfold bind at 1. unfold bind at 1. by rewrite Hcompute. }
  unfold marginal, unnorm_p.
  apply bind_raises. rewrite (bind_ok _ _ _ _ _ Hgv). rewrite Hnb.
  apply bind_raises. simpl for_each. by apply bind_raises.
Qed.

Lemma marginal_before_binding_raises_witness :
  marginal 1 0 (mk_World forest_parsed ∅)
  = (Raise AttributeError, mk_World forest_parsed ∅).
Proof.
  apply (marginal_before_binding_raises "p(a)p(b|a)p(c)" forest_parsed 0 0
           (mk_Node "a" [0; 1]%nat)); reflexivity.
Defined.

(** ** Which names get a Variable *)

(** C3, as the code has it. Take a string whose terms are well formed.
    The parser creates a Variable for the names written left of a bar (or
    in a term without a bar), one per distinct name, and for no other; it
    returns exactly when every name written right of a bar is such a name,
    and raises KeyError otherwise.  When it returns, the factors are the
    terms in order, and every factor is linked both ways with the variable
    of each identifier of its term, left or right of the bar: the variable's
    reference is in the factor's neighbour list and the factor's reference
    in the variable's. *)
Theorem parser_declares_the_left_hand_names (model_string : string)
    (parsed_terms : list ParsedTerm) :
  _parse_model_string_into_terms model_string = Ok parsed_terms →
  match parse_model_into_variables_and_factors model_string with
  | Ok (factors, variables) =>
      NoDup (name <$> variables)
      ∧ (∀ x, x ∈ (name <$> variables) ↔
              ∃ pt, pt ∈ parsed_terms ∧ x ∈ var_name pt)
      ∧ (∀ pt x, pt ∈ parsed_terms → x ∈ given pt →
                 ∃ pt', pt' ∈ parsed_terms ∧ x ∈ var_name pt')
      ∧ Forall2 (fun pt (fac : Factor) => name fac = term pt)
                parsed_terms factors
      ∧ ∀ i pt (fac : Factor) x,
          parsed_terms !! i = Some pt → factors !! i = Some fac →
          x ∈ identifiers pt →
          ∃ j (var : Node),
            variables !! j = Some var ∧ name var = x
            ∧ j ∈ neighbors fac ∧ i ∈ neighbors var
  | Raise e =>
      e = KeyError
      ∧ ∃ pt x, pt ∈ parsed_terms ∧ x ∈ given pt
                ∧ ∀ pt', pt' ∈ parsed_terms → x ∉ var_name pt'
  end.
Proof.
  intros Hterms.
  destruct (parse_model_into_variables_and_factors model_string)
    as [[factors variables]|e] eqn:Hrun.
  - destruct (parser_links_every_identifier _ _ _ Hrun)
      as (pts & Hpts & Hnd & Hin & Hnames & Hlinks).
    assert (pts = parsed_terms) as -> by congruence.
    assert (∀ x, x ∈ (name <$> variables) ↔
                 ∃ pt, pt ∈ parsed_terms ∧ x ∈ var_name pt) as Hleft.
    { unfold parse_model_into_variables_and_factors in Hrun.
      rewrite Hterms in Hrun. simpl in Hrun.
      destruct (declare_all_names parsed_terms [] (NoDup_nil_2)) as [_ Hdecl].
      destruct (link_factors_spec parsed_terms _ _ _ _ Hrun) as (Hg & _).
      intros x. rewrite (grows_names _ _ Hg). split.
      - intros Hx. apply Hdecl in Hx as [Hx|Hx]; [by apply elem_of_nil in Hx|done].
      - intros Hx. apply Hdecl. by right. }
    split; [done|]. split; [done|]. split; [|done].
    intros pt x Hpt Hx. apply Hleft, Hin. exists pt. split; [done|].
    apply elem_of_app. by right.
  - unfold parse_model_into_variables_and_factors in Hrun.
    rewrite Hterms in Hrun. simpl in Hrun.
    destruct (declare_all_names parsed_terms [] (NoDup_nil_2)) as [_ Hdecl].
    apply link_factors_raise in Hrun as (-> & pt & x & Hpt & Hx & Hnx).
    split; [done|]. exists pt, x. split; [done|].
    assert (∀ pt', pt' ∈ parsed_terms → x ∉ var_name pt') as Hnone.
    { intros pt' Hpt' Hx'. apply Hnx, Hdecl. right. by exists pt'. }
    split; [|done]. apply elem_of_app in Hx as [Hx|Hx]; [|done].
    by destruct (Hnone pt Hpt).
Qed.

Lemma parser_declares_the_left_hand_names_witness :
  match parse_model_into_variables_and_factors "p(h1)p(h2|h1)" with
  | Ok (factors, variables) =>
      NoDup (name <$> variables)
      ∧ (∀ x, x ∈ (name <$> variables) ↔
              ∃ pt, pt ∈ [mk_ParsedTerm "p(h1)" ["h1"] [];
                          mk_ParsedTerm "p(h2|h1)" ["h2"] ["h1"]]
                    ∧ x ∈ var_name pt)
      ∧ (∀ pt x, pt ∈ [mk_ParsedTerm "p(h1)" ["h1"] [];
                       mk_ParsedTerm "p(h2|h1)" ["h2"] ["h1"]] →
                 x ∈ given pt →
                 ∃ pt', pt' ∈ [mk_ParsedTerm "p(h1)" ["h1"] [];
                               mk_ParsedTerm "p(h2|h1)" ["h2"] ["h1"]]
                        ∧ x ∈ var_name pt')
      ∧ Forall2 (fun pt (fac : Factor) => name fac = term pt)
                [mk_ParsedTerm "p(h1)" ["h1"] [];
                 mk_ParsedTerm "p(h2|h1)" ["h2"] ["h1"]] factors
      ∧ ∀ i pt (fac : Factor) x,
          [mk_ParsedTerm "p(h1)" ["h1"] [];
           mk_ParsedTerm "p(h2|h1)" ["h2"] ["h1"]] !! i = Some pt →
          factors !! i = Some fac →
          x ∈ identifiers pt →
          ∃ j (var : Node),
            variables !! j = Some var ∧ name var = x
            ∧ j ∈ neighbors fac ∧ i ∈ neighbors var
  | Raise e =>
      e = KeyError
      ∧ ∃ pt x, pt ∈ [mk_ParsedTerm "p(h1)" ["h1"] [];
                      mk_ParsedTerm "p(h2|h1)" ["h2"] ["h1"]]
                ∧ x ∈ given pt
                ∧ ∀ pt', pt' ∈ [mk_ParsedTerm "p(h1)" ["h1"] [];
                                mk_ParsedTerm "p(h2|h1)" ["h2"] ["h1"]] →
                         x ∉ var_name pt'
  end.
Proof.
  apply (parser_declares_the_left_hand_names "p(h1)p(h2|h1)").
  reflexivity.
Defined.

(** C3 fails as stated: "p(a|b)" is one well-formed term with the
    identifier b right of the bar, and the parser creates no Variable for
    b - it raises KeyError at [variables[var_name]]. *)
Lemma name_right_of_the_bar_only_is_rejected :
  _parse_model_string_into_terms "p(a|b)"
    = Ok [mk_ParsedTerm "p(a|b)" ["a"] ["b"]]
  ∧ parse_model_into_variables_and_factors "p(a|b)" = Raise KeyError
  ∧ ¬ ∃ factors variables,
        parse_model_into_variables_and_factors "p(a|b)"
          = Ok (factors, variables)
        ∧ "b" ∈ (name <$> variables).
Proof.
  split; [reflexivity|]. split; [reflexivity|].
  intros (factors & variables & Hrun & _). vm_compute in Hrun. discriminate.
Qed.

(** ** Binding tensors to the factors *)

Lemma reads_only_bind {A B} (c : M A) (k : A → M B) :
  reads_only c → (∀ a, reads_only (k a)) → reads_only (bind c k).
Proof.
  intros Hc Hk w. unfold bind. specialize (Hc w).
  destruct (c w) as [[a|e] w1]; simpl in *; [|done].
  subst w1. apply Hk.
Qed.

Lemma reads_only_for_each {A B} (f : A → M B) l :
  (∀ a, reads_only (f a)) → reads_only (for_each f l).
Proof.
  intros Hf. induction l as [|a l IH]; simpl; [done|].
  apply reads_only_bind; [done|]. intros b.
  apply reads_only_bind; [done|]. done.
Qed.

Lemma reads_only_for_fold {A S} (f : S → A → M S) l s :
  (∀ s a, reads_only (f s a)) → reads_only (for_fold f l s).
Proof.
  intros Hf. revert s. induction l as [|a l IH]; intros s; simpl; [done|].
  apply reads_only_bind; [done|]. done.
Qed.

Lemma reads_only_check_dim var_dims vd : reads_only (check_dim var_dims vd).
Proof.
  destruct vd as [x n]. unfold check_dim.
  apply reads_only_bind; [done|]. intros known. by destruct (negb _).
Qed.

Lemma reads_only_returns {A} (c : M A) w r w' :
  reads_only c → c w = (r, w') → w' = w.
Proof. intros Hc Hr. specialize (Hc w). by rewrite Hr in Hc. Qed.

Lemma rebound_refl dists w : rebound dists w w.
Proof.
  split; [done|]. split; [done|].
  apply Forall2_same_length_lookup_2; [done|].
  intros i fac fac' H1 H2. assert (fac' = fac) as -> by congruence. auto.
Qed.

Lemma rebound_trans dists w1 w2 w3 :
  rebound dists w1 w2 → rebound dists w2 w3 → rebound dists w1 w3.
Proof.
  intros (Hm1 & Hv1 & Hf1) (Hm2 & Hv2 & Hf2).
  split; [congruence|]. split; [congruence|].
  revert Hf2. generalize (_factors (graph w3)).
  induction Hf1 as [|fac1 fac2 l1 l2 [Hn1 Hd1] _ IH]; intros l3 Hf2.
  - inversion Hf2. constructor.
  - inversion Hf2 as [|? fac3 ? l3' [Hn2 Hd2] Hf2']; subst.
    constructor; [|by apply IH]. split; [congruence|].
    destruct Hd2 as [Hd2|(d & Hd & Hd2)].
    + rewrite Hd2. exact Hd1.
    + right. exists d. split; [|done]. by rewrite <- Hn1.
Qed.

Lemma rebound_same_nodes dists w w' :
  rebound dists w w' → same_nodes (graph w) (graph w').
Proof.
  intros (_ & Hv & Hf). split; [done|].
  induction Hf as [|fac fac' l l' [Hn _] _ IH]; [done|].
  rewrite !fmap_cons. by rewrite Hn, IH.
Qed.

Lemma set_factor_data_rebound dists f (fac : Factor) d w :
  _factors (graph w) !! f = Some fac → dict_get dists (name fac) = Some d →
  rebound dists w (set_factor_data f d w).2.
Proof.
  intros Hf Hd. split; [done|]. split; [done|]. simpl.
  apply Forall2_same_length_lookup_2; [by rewrite length_alter|].
  intros i fac1 fac2 H1 H2. destruct (decide (i = f)) as [->|Hne].
  - rewrite list_lookup_alter_eq, H1 in H2. injection H2 as <-. simpl.
    split; [done|]. right. exists d. split; [|done]. congruence.
  - rewrite list_lookup_alter_ne in H2 by done.
    assert (fac2 = fac1) as -> by congruence. auto.
Qed.

(** [set(l1) != set(l2)] is false exactly when the lists have the same
    members. *)
Lemma str_in_spec x l : str_in x l = true ↔ x ∈ l.
Proof.
  unfold str_in. rewrite existsb_exists. split.
  - intros (y & Hy & Heq). apply String.eqb_eq in Heq as ->.
    by apply list_elem_of_In.
  - intros Hx. exists x. split; [by apply list_elem_of_In|apply String.eqb_refl].
Qed.

Lemma set_ne_false l1 l2 : set_ne l1 l2 = false ↔ ∀ x, x ∈ l1 ↔ x ∈ l2.
Proof.
  unfold set_ne. rewrite negb_false_iff, andb_true_iff, !forallb_forall.
  split.
  - intros [H1 H2] x. split; intros Hx.
    + apply str_in_spec, H1. by apply list_elem_of_In.
    + apply str_in_spec, H2. by apply list_elem_of_In.
  - intros H. split; intros x Hx; apply str_in_spec, H; by apply list_elem_of_In.
Qed.

Lemma dict_mem_get {V} (d : list (string * V)) k :
  dict_mem d k = true ↔ is_Some (dict_get d k).
Proof.
  unfold dict_mem. destruct (dict_get d k); split; done.
Qed.

(** One pass of the inner loop: the table only gains entries, and holds the
    size of every axis it was shown. *)
Lemma check_dim_returns var_dims x n w var_dims' w' :
  check_dim var_dims (x, n) w = (Ok var_dims', w') →
  w' = w ∧ dims_extend var_dims var_dims' ∧ dict_get var_dims' x = Some n.
Proof.
  unfold check_dim, bind, lift, raise, ret.
  destruct (dict_mem var_dims x) eqn:Hmem.
  - apply dict_mem_get in Hmem as [k Hk]. rewrite Hk. simpl.
    destruct (Nat.eqb_spec k n) as [->|?]; simpl; [|done].
    intros [= <- <-]. split; [done|]. split; [|done]. by intros y k.
  - rewrite dict_get_set, String.eqb_refl. simpl. rewrite Nat.eqb_refl. simpl.
    intros [= <- <-]. split; [done|]. split.
    + intros y k Hy. rewrite dict_get_set.
      destruct (String.eqb_spec x y) as [->|?]; [|done].
      assert (dict_mem var_dims y = true) by (apply dict_mem_get; by eexists).
      congruence.
    + by rewrite dict_get_set, String.eqb_refl.
Qed.

Lemma check_dims_return (l : list (string * nat)) var_dims w var_dims' w' :
  for_fold check_dim l var_dims w = (Ok var_dims', w') →
  w' = w ∧ dims_extend var_dims var_dims'
  ∧ ∀ x n, (x, n) ∈ l → dict_get var_dims' x = Some n.
Proof.
  revert var_dims. induction l as [|[x n] l IH]; intros var_dims Hrun.
  - injection Hrun as <- <-. split; [done|]. split; [by intros x n|].
    intros x n Hx. by apply elem_of_nil in Hx.
  - simpl in Hrun. apply bind_returns in Hrun as (vd1 & w1 & Hstep & Hrun).
    apply check_dim_returns in Hstep as (-> & Hext & Hx).
    apply IH in Hrun as (-> & Hext' & Hl). split; [done|]. split.
    + intros y k Hy. by apply Hext', Hext.
    + intros y k Hy. apply elem_of_cons in Hy as [[= -> ->]|Hy]; [|by apply Hl].
      by apply Hext'.
Qed.

Lemma get_variables_return (l : list nat) w nbrs w' :
  for_each get_variable l w = (Ok nbrs, w') →
  w' = w ∧ Forall2 (fun j (var : VariableNode) =>
                      _variables (graph w) !! j = Some var) l nbrs.
Proof.
  revert nbrs. induction l as [|j l IH]; intros nbrs Hrun.
  - injection Hrun as <- <-. split; [done|constructor].
  - simpl in Hrun. apply bind_returns in Hrun as (var & w1 & Hj & Hrun).
    apply bind_returns in Hrun as (vars & w2 & Hl & Hrun).
    injection Hrun as <- <-.
    unfold get_variable in Hj.
    destruct (_variables (graph w) !! j) as [var'|] eqn:Hvar; [|done].
    injection Hj as -> <-.
    apply IH in Hl as [-> Hl]. split; [done|]. by constructor.
Qed.

Lemma get_variables_at (l : list nat) w :
  (∀ j, j ∈ l → is_Some (_variables (graph w) !! j)) →
  ∃ nbrs, for_each get_variable l w = (Ok nbrs, w)
          ∧ Forall2 (fun j (var : VariableNode) =>
                       _variables (graph w) !! j = Some var) l nbrs.
Proof.
  induction l as [|j l IH]; intros Hl.
  - exists []. split; [done|constructor].
  - destruct (Hl j) as [var Hvar]; [by left|].
    destruct IH as (nbrs & Hrun & Hall); [intros; apply Hl; by right|].
    exists (var :: nbrs). split; [|by constructor]. simpl.
    assert (get_variable j w = (Ok var, w)) as Hj
      by (unfold get_variable; by rewrite Hvar).
    by rewrite (bind_ok _ _ _ _ _ Hj), (bind_ok _ _ _ _ _ Hrun).
Qed.

(** The names of the nodes behind a list of references. *)
Lemma neighbour_names g (l : list nat) (nbrs : list VariableNode) x :
  Forall2 (fun j (var : VariableNode) => _variables g !! j = Some var) l nbrs →
  x ∈ map name nbrs ↔
  ∃ j (var : VariableNode), j ∈ l ∧ _variables g !! j = Some var ∧ name var = x.
Proof.
  intros Hall. change (map name nbrs) with (name <$> nbrs).
  rewrite list_elem_of_fmap. split.
  - intros (var & -> & Hin).
    apply list_elem_of_lookup in Hin as [i Hi].
    destruct (Forall2_lookup_r _ _ _ _ _ Hall Hi) as (j & Hj & Hvar).
    exists j, var. split; [by eapply list_elem_of_lookup_2|done].
  - intros (j & var & Hin & Hvar & <-).
    apply list_elem_of_lookup in Hin as [i Hi].
    destruct (Forall2_lookup_l _ _ _ _ _ Hall Hi) as (var' & Hi' & Hvar').
    exists var'. split; [congruence|by eapply list_elem_of_lookup_2].
Qed.

Lemma zip_labelled (labels : list string) (s : list nat) x n :
  (x, n) ∈ zip labels s ↔ ∃ i, labels !! i = Some x ∧ s !! i = Some n.
Proof.
  rewrite elem_of_lookup_zip_with. split.
  - intros (i & y & k & [= -> ->] & H1 & H2). by exists i.
  - intros (i & H1 & H2). by exists i, x, n.
Qed.

(** One factor of [set_distributions], when it passes. *)
Lemma bind_factor_returns dists var_dims f w var_dims' w' :
  bind_factor dists var_dims f w = (Ok var_dims', w') →
  ∃ (fac : Factor) d,
    _factors (graph w) !! f = Some fac ∧ dict_get dists (name fac) = Some d
    ∧ w' = (set_factor_data f d w).2
    ∧ dims_extend var_dims var_dims'
    ∧ checked_table (graph w) var_dims' fac d.
Proof.
  unfold bind_factor. intros Hrun.
  apply bind_returns in Hrun as (fac & w1 & Hf & Hrun).
  unfold get_factor in Hf.
  destruct (_factors (graph w) !! f) as [fac'|] eqn:Hfac; [|done].
  injection Hf as -> <-.
  apply bind_returns in Hrun as (d & w1 & Hd & Hrun). unfold lift in Hd.
  destruct (dict_get dists (name fac)) as [d'|] eqn:Hdict; [|done].
  injection Hd as -> <-.
  apply bind_returns in Hrun as (nbrs & w1 & Hnb & Hrun).
  apply get_variables_return in Hnb as [-> Hnb].
  destruct (set_ne _ _) eqn:Hset; [done|].
  apply bind_returns in Hrun as (vd & w1 & Hdims & Hrun).
  apply check_dims_return in Hdims as (-> & Hext & Hdims).
  apply bind_returns in Hrun as ([] & w1 & Hset' & Hrun).
  injection Hrun as <- <-. injection Hset' as <-.
  exists fac, d. repeat split; try done.
  - intros Hx. apply (proj1 (set_ne_false _ _) Hset) in Hx.
    by apply (neighbour_names (graph w) (neighbors fac) nbrs x Hnb).
  - intros Hx. apply (proj1 (set_ne_false _ _) Hset).
    by apply (neighbour_names (graph w) (neighbors fac) nbrs x Hnb).
  - intros i x n H1 H2. apply Hdims, zip_labelled. by exists i.
Qed.

(** One factor of [set_distributions], passing or not: at most that factor
    is given its tensor. *)
Lemma bind_factor_rebound dists var_dims f w :
  rebound dists w (bind_factor dists var_dims f w).2.
Proof.
  unfold bind_factor, bind, get_factor, lift.
  destruct (_factors (graph w) !! f) as [fac|] eqn:Hfac; simpl;
    [|apply rebound_refl].
  destruct (dict_get dists (name fac)) as [d|] eqn:Hd; simpl;
    [|apply rebound_refl].
  destruct (for_each get_variable (neighbors fac) w) as [[nbrs|e] w1] eqn:Hnb;
    apply reads_only_returns in Hnb as ->;
    try (apply reads_only_for_each; by intros ? ?);
    [|apply rebound_refl].
  destruct (set_ne _ _); [apply rebound_refl|].
  destruct (for_fold check_dim _ var_dims w) as [[vd|e] w1] eqn:Hdims;
    apply reads_only_returns in Hdims as ->;
    try (apply reads_only_for_fold; intros; apply reads_only_check_dim);
    [|apply rebound_refl].
  by apply (set_factor_data_rebound dists f fac d w).
Qed.

Lemma bind_factors_rebound dists (l : list nat) var_dims w :
  rebound dists w (for_fold (bind_factor dists) l var_dims w).2.
Proof.
  revert var_dims w. induction l as [|f l IH]; intros var_dims w; simpl.
  - apply rebound_refl.
  - unfold bind. pose proof (bind_factor_rebound dists var_dims f w) as H.
    destruct (bind_factor dists var_dims f w) as [[vd|e] w1]; simpl in *; [|done].
    eapply rebound_trans; [exact H|apply IH].
Qed.

Lemma set_distributions_rebound dists w :
  rebound dists w (set_distributions dists w).2.
Proof.
  unfold set_distributions, bind.
  pose proof (bind_factors_rebound dists
                (seq 0 (length (_factors (graph w)))) [] w) as H.
  by destruct (for_fold _ _ _ w) as [[vd|e] w1].
Qed.

Lemma rebound_lookup dists w w' k (fac : Factor) :
  rebound dists w w' → _factors (graph w) !! k = Some fac →
  ∃ fac' : Factor,
    _factors (graph w') !! k = Some fac' ∧ f_node fac' = f_node fac
    ∧ (f_data fac' = f_data fac
       ∨ ∃ d, dict_get dists (name fac) = Some d ∧ f_data fac' = Some d).
Proof.
  intros (_ & _ & Hall) Hk.
  destruct (Forall2_lookup_l _ _ _ _ _ Hall Hk) as (fac' & Hk' & Hn & Hd).
  by exists fac'.
Qed.

Lemma checked_table_weaken g var_dims var_dims' (fac fac' : Factor) d :
  dims_extend var_dims var_dims' → f_node fac' = f_node fac →
  checked_table g var_dims fac d → checked_table g var_dims' fac' d.
Proof.
  intros Hext Hn [Hlabels Hdims]. split.
  - intros x. rewrite Hn. apply Hlabels.
  - intros i x n H1 H2. apply Hext. by eapply Hdims.
Qed.

(** [set_distributions], when it returns. *)
Lemma set_distributions_returns
    (dists : list (string * Distribution)) (w w' : World) :
  set_distributions dists w = (Ok tt, w') →
  messages w' = messages w
  ∧ _variables (graph w') = _variables (graph w)
  ∧ ∃ var_dims : list (string * nat),
      Forall2 (fun fac fac' : Factor =>
                 f_node fac' = f_node fac
                 ∧ ∃ d, dict_get dists (name fac) = Some d
                        ∧ f_data fac' = Some d
                        ∧ checked_table (graph w) var_dims fac d)
              (_factors (graph w)) (_factors (graph w')).
Proof.
  intros Hrun. pose proof (set_distributions_rebound dists w) as Hre.
  rewrite Hrun in Hre. simpl in Hre.
  split; [exact (proj1 Hre)|]. split; [exact (proj1 (proj2 Hre))|].
  unfold set_distributions in Hrun.
  apply bind_returns in Hrun as (var_dims & w1 & Hrun & Hret).
  injection Hret as <-. exists var_dims.
  apply (for_fold_returns
           (fun x y => rebound dists x.2 y.2 ∧ dims_extend x.1 y.1)
           (fun k x => ∃ (fac fac' : Factor) d,
              _factors (graph w) !! k = Some fac
              ∧ _factors (graph x.2) !! k = Some fac'
              ∧ f_node fac' = f_node fac
              ∧ dict_get dists (name fac) = Some d
              ∧ f_data fac' = Some d
              ∧ checked_table (graph w) x.1 fac d))
    in Hrun as [_ Hall].
  - apply Forall2_same_length_lookup_2.
    { destruct Hre as (_ & _ & Hf). by eapply Forall2_length. }
    intros k fac fac' Hk Hk'.
    assert (k ∈ seq 0 (length (_factors (graph w)))) as Hin.
    { apply elem_of_seq. apply lookup_lt_Some in Hk. lia. }
    destruct (proj1 (Forall_forall _ _) Hall k Hin)
      as (fac0 & fac0' & d & H0 & H0' & Hn & Hd & Hdata & Hchecked).
    simpl in *. assert (fac0 = fac) as -> by congruence.
    assert (fac0' = fac') as -> by congruence.
    split; [done|]. by exists d.
  - intros x y z [H1 H1'] [H2 H2']. split; [by eapply rebound_trans|].
    intros a n Ha. by apply H2', H1'.
  - intros x y _. split; [apply rebound_refl|by intros a n].
  - intros k x y (fac & fac' & d & Hk & Hk' & Hn & Hd & Hdata & Hchecked)
      [Hxy Hext].
    destruct (rebound_lookup _ _ _ _ _ Hxy Hk') as (fac'' & Hk'' & Hn' & Hdata').
    exists fac, fac'', d. split; [done|]. split; [done|].
    split; [congruence|]. split; [done|]. split.
    + destruct Hdata' as [Heq|(d' & Hd' & Heq)]; [congruence|].
      rewrite Hn in Hd'. congruence.
    + exact (checked_table_weaken _ _ _ fac fac d Hext eq_refl Hchecked).
  - split; [apply rebound_refl|by intros a n].
  - intros k vd1 w2 vd2 w3 _ [Hre1 _] Hstep. simpl in Hre1.
    apply bind_factor_returns in Hstep as (fac1 & d & Hk1 & Hd & -> & Hext & Hch).
    split.
    + split; [by eapply set_factor_data_rebound|done].
    + destruct Hre1 as (_ & Hv & Hf).
      destruct (Forall2_lookup_r _ _ _ _ _ Hf Hk1) as (fac & Hk & Hn & _).
      exists fac, (mk_Factor (f_node fac1) (Some d)), d.
      split; [done|]. split.
      { simpl. by rewrite list_lookup_alter_eq, Hk1. }
      split; [done|]. split; [by rewrite <- Hn|]. split; [done|]. simpl.
      destruct Hch as [Hlabels Hdims]. split; [|done].
      intros x. rewrite <- Hn, <- Hv. apply Hlabels.
Qed.

(** X15. When [set_distributions] returns, every factor carries the entry
    of [data] stored under its name, and that tensor has passed the two
    checks of the method: its labels are, as a set, the names of the
    factor's neighbours, and one table of dimensions, shared by all factors,
    gives the size of every labelled axis - so an axis labelled with the
    same variable has the same size in every tensor.  The variables, the
    neighbour lists and the message cache are as before.  (Nothing is
    checked of repeated labels, of axes beyond the labelled ones, or of the
    entries.) *)
Theorem set_distributions_checks_what_it_binds
    (dists : list (string * Distribution)) (w w' : World) :
  set_distributions dists w = (Ok tt, w') →
  messages w' = messages w
  ∧ _variables (graph w') = _variables (graph w)
  ∧ ∃ var_dims : list (string * nat),
      Forall2 (fun fac fac' : Factor =>
                 f_node fac' = f_node fac
                 ∧ ∃ d, dict_get dists (name fac) = Some d
                        ∧ f_data fac' = Some d
                        ∧ checked_table (graph w) var_dims fac d)
              (_factors (graph w)) (_factors (graph w')).
Proof. apply set_distributions_returns. Qed.

Lemma set_distributions_checks_what_it_binds_witness :
  messages forest_world = messages (mk_World forest_parsed ∅)
  ∧ _variables (graph forest_world) = _variables (graph (mk_World forest_parsed ∅))
  ∧ ∃ var_dims : list (string * nat),
      Forall2 (fun fac fac' : Factor =>
                 f_node fac' = f_node fac
                 ∧ ∃ d, dict_get forest_dists (name fac) = Some d
                        ∧ f_data fac' = Some d
                        ∧ checked_table (graph (mk_World forest_parsed ∅))
                            var_dims fac d)
              (_factors (graph (mk_World forest_parsed ∅)))
              (_factors (graph forest_world)).
Proof.
  apply (set_distributions_checks_what_it_binds forest_dists
           (mk_World forest_parsed ∅) forest_world).
  vm_compute. reflexivity.
Defined.

Lemma check_dims_at (card : string → nat) (l : list (string * nat)) var_dims w :
  (∀ x n, (x, n) ∈ l → n = card x) →
  (∀ x n, dict_get var_dims x = Some n → n = card x) →
  ∃ var_dims', for_fold check_dim l var_dims w = (Ok var_dims', w)
               ∧ ∀ x n, dict_get var_dims' x = Some n → n = card x.
Proof.
  revert var_dims. induction l as [|[x n] l IH]; intros var_dims Hl Hvd.
  - by exists var_dims.
  - assert (n = card x) as Hn by (apply Hl; by left).
    assert (∃ vd1, check_dim var_dims (x, n) w = (Ok vd1, w)
                   ∧ ∀ y k, dict_get vd1 y = Some k → k = card y)
      as (vd1 & Hstep & Hvd1).
    { unfold check_dim, bind, lift, raise, ret.
      destruct (dict_mem var_dims x) eqn:Hmem.
      - apply dict_mem_get in Hmem as [k Hk]. rewrite Hk. simpl.
        rewrite (Hvd x k Hk), <- Hn, Nat.eqb_refl. simpl. by exists var_dims.
      - rewrite dict_get_set, String.eqb_refl. simpl. rewrite Nat.eqb_refl.
        simpl. eexists. split; [done|]. intros y k. rewrite dict_get_set.
        destruct (String.eqb_spec x y) as [<-|?]; [|apply Hvd]. congruence. }
    destruct (IH vd1) as (vd' & Hrun & Hvd'); [|done|].
    { intros y k Hy. apply Hl. by right. }
    exists vd'. split; [|done]. simpl. by rewrite (bind_ok _ _ _ _ _ Hstep).
Qed.

(** X17. [set_distributions] returns whenever the tables are consistent
    with the graph: each factor has an entry of [data] under its name, the
    labels of that entry are, as a set, the names of the factor's
    neighbours, and the size of a labelled axis depends on the label only.
    With the converse shown above, these are exactly the conditions under
    which the method raises nothing. *)
Theorem set_distributions_accepts_consistent_tables
    (dists : list (string * Distribution)) (card : string → nat) (w : World) :
  consistent_tables (graph w) dists card →
  ∃ w', set_distributions dists w = (Ok tt, w').
Proof.
  intros Hcons. unfold set_distributions.
  destruct (for_fold_ok (rebound dists)
              (fun (vd : list (string * nat)) (_ : World) =>
                 ∀ x n, dict_get vd x = Some n → n = card x)
              (bind_factor dists) (seq 0 (length (_factors (graph w))))
              (rebound_trans dists) (fun w1 w2 _ => rebound_refl dists w2)
              [] w (rebound_refl dists w))
    as (vd & w' & Hrun & _ & _).
  - done.
  - intros k vd1 w1 Hk Hre Hvd1. apply elem_of_seq in Hk.
    destruct (lookup_lt_is_Some_2 (_factors (graph w)) k) as [fac Hfac]; [lia|].
    destruct (rebound_lookup _ _ _ _ _ Hre Hfac) as (fac1 & Hfac1 & Hn & _).
    destruct (Hcons fac) as (Hrefs & d & Hd & Hlabels & Hdims);
      [by eapply list_elem_of_lookup_2|].
    destruct Hre as (_ & Hv & _).
    destruct (get_variables_at (neighbors fac1) w1) as (nbrs & Hnb & Hall).
    { intros j Hj. rewrite Hv, Hn in *. by apply Hrefs. }
    destruct (check_dims_at card (zip (axes_labels d) (shape (probs d))) vd1 w1)
      as (vd2 & Hcheck & Hvd2); [|done|].
    { intros x n Hx. apply zip_labelled in Hx as (i & H1 & H2). by eapply Hdims. }
    exists vd2, (set_factor_data k d w1).2. split; [|split; [|done]].
    + unfold bind_factor.
      assert (get_factor k w1 = (Ok fac1, w1)) as Hget
        by (unfold get_factor; by rewrite Hfac1).
      rewrite (bind_ok _ _ _ _ _ Hget).
      assert (lift (of_option (dict_get dists (name fac1)) KeyError) w1
              = (Ok d, w1)) as Hlook by (unfold lift; by rewrite Hn, Hd).
      rewrite (bind_ok _ _ _ _ _ Hlook), (bind_ok _ _ _ _ _ Hnb).
      assert (set_ne (axes_labels d) (map name nbrs) = false) as ->.
      { apply set_ne_false. intros x.
        rewrite (neighbour_names (graph w1) (neighbors fac1) nbrs x Hall).
        rewrite Hv, Hn. apply Hlabels. }
      by rewrite (bind_ok _ _ _ _ _ Hcheck).
    + apply (set_factor_data_rebound dists k fac1 d w1); [done|].
      by rewrite Hn.
  - exists w'. by rewrite (bind_ok _ _ _ _ _ Hrun).
Qed.

Lemma forest_consistent : consistent_tables forest_parsed forest_dists forest_card.
Proof.
  intros fac Hfac. simpl in Hfac. in_list; subst; simpl.
  all: split; [intros j Hj; in_list; subst; by eexists|].
  all: eexists; split; [done|]; simpl.
  all: split;
    [|intros [|[|i]] x n Hi Hs; try done; by injection Hs as <-].
  - intros x. rewrite ?elem_of_cons, elem_of_nil. split.
    + intros [->|[]]. exists 0%nat, (mk_Node "a" [0; 1]%nat).
      rewrite ?elem_of_cons. auto.
    + intros (v & var & Hv & Hl & <-). in_list; subst; injection Hl as <-; auto.
  - intros x. rewrite ?elem_of_cons, elem_of_nil. split.
    + intros [->|[->|[]]].
      * exists 1%nat, (mk_Node "b" [1]%nat). rewrite ?elem_of_cons. auto.
      * exists 0%nat, (mk_Node "a" [0; 1]%nat). rewrite ?elem_of_cons. auto.
    + intros (v & var & Hv & Hl & <-). in_list; subst; injection Hl as <-; auto.
  - intros x. rewrite ?elem_of_cons, elem_of_nil. split.
    + intros [->|[]]. exists 2%nat, (mk_Node "c" [2]%nat).
      rewrite ?elem_of_cons. auto.
    + intros (v & var & Hv & Hl & <-). in_list; subst; injection Hl as <-; auto.
Qed.

Lemma set_distributions_accepts_consistent_tables_witness :
  ∃ w', set_distributions forest_dists (mk_World forest_parsed ∅) = (Ok tt, w').
Proof.
  exact (set_distributions_accepts_consistent_tables forest_dists forest_card
           (mk_World forest_parsed ∅) forest_consistent).
Defined.

(** ** How far [set_distributions] gets *)







(** A table missing for the second factor: the call raises KeyError and
    the first factor stays bound. *)
Example set_distributions_partial :
  set_distributions [("p(a)", mk_Distribution (mk_ndarray [2]%nat [3#10; 7#10]%Q) ["a"])]
    (mk_World forest_parsed ∅)
  = (Raise KeyError,
     mk_World
       (mk_PGM
          [ mk_Factor (mk_Node "p(a)" [0]%nat)
              (Some (mk_Distribution (mk_ndarray [2]%nat [3#10; 7#10]%Q) ["a"]));
            mk_Factor (mk_Node "p(b|a)" [1; 0]%nat) None;
            mk_Factor (mk_Node "p(c)" [2]%nat) None ]
          (_variables forest_parsed))
       ∅).
Proof. vm_compute. reflexivity. Qed.

(** ** Sessions opened the notebook's way *)

(** X18. A session opened the way the notebook does it - [from_string],
    then [set_distributions], then a fresh [Messages] - is a bound graph in
    the sense of the properties above, provided the tables are in good
    shape (no label twice, an axis for every label, further axes of size 1,
    no negative entry): the neighbour references are valid, the edges are
    recorded at both ends, variable names are distinct and differ from
    factor names, every factor carries its table, the labels of a table are
    the names of the factor's neighbours and the size of an axis is the
    number of states of its variable.  So what is proved of bound graphs
    holds of every such session whose graph is a tree. *)
Theorem sessions_are_bound_graphs (model_string : string)
    (dists : list (string * Distribution)) (w : World) :
  new_session model_string dists = Ok w →
  (∀ k d, dict_get dists k = Some d → well_shaped d) →
  ∃ card, bound_graph (graph w) card ∧ session_ok (graph w) card w.
Proof.
  unfold new_session. intros Hnew Hshaped.
  destruct (from_string model_string) as [g|] eqn:Hg; simpl in Hnew; [|done].
  destruct (set_distributions dists (mk_World g ∅)) as [[[]|e] w0] eqn:Hset;
    [|done].
  injection Hnew as ->.
  destruct (from_string_returns _ _ Hg) as (Hnd & [Hb Hc] & Hfs & Hvs).
  destruct (set_distributions_returns _ _ _ Hset)
    as (Hm & Hv & var_dims & Hall).
  simpl in Hm, Hv, Hall.
  exists (card_of var_dims). split; [|split; [done|]].
  - split.
    + intros fac v Hfac Hadj. apply list_elem_of_lookup in Hfac as [i Hi].
      destruct (Forall2_lookup_r _ _ _ _ _ Hall Hi) as (fac0 & Hi0 & Hn & _).
      rewrite Hn in Hadj. rewrite Hv.
      destruct (Hb i fac0 v Hi0 Hadj) as (var & Hvar & _). by exists var.
    + intros var f Hvar Hadj. apply list_elem_of_lookup in Hvar as [j Hj].
      rewrite Hv in Hj. destruct (Hc j var f Hj Hadj) as (fac0 & Hf0 & _).
      destruct (Forall2_lookup_l _ _ _ _ _ Hall Hf0) as (fac & Hf & _).
      by exists fac.
    + intros v f var fac Hvar Hfac. rewrite Hv in Hvar.
      destruct (Forall2_lookup_r _ _ _ _ _ Hall Hfac) as (fac0 & Hf0 & Hn & _).
      rewrite Hn. split.
      * intros Hadj. destruct (Hc v var f Hvar Hadj) as (fac1 & Hf1 & Hin).
        assert (fac1 = fac0) as -> by congruence. done.
      * intros Hadj. destruct (Hb f fac0 v Hf0 Hadj) as (var1 & Hv1 & Hin).
        unfold VariableNode in *. assert (var1 = var) as -> by congruence. done.
    + by rewrite Hv.
    + intros x (var & Hvar & <-) (fac & Hfac & Hx). rewrite Hv in Hvar.
      destruct (proj1 (Forall_forall _ _) Hvs var Hvar) as [Hnop _].
      apply list_elem_of_lookup in Hfac as [i Hi].
      destruct (Forall2_lookup_r _ _ _ _ _ Hall Hi) as (fac0 & Hi0 & Hn & _).
      destruct (proj1 (Forall_forall _ _) Hfs fac0) as [_ [text Htext]];
        [by eapply list_elem_of_lookup_2|].
      rewrite Hn, Htext in Hx. rewrite <- Hx in Hnop. simpl in Hnop. done.
    + intros fac Hfac. apply list_elem_of_lookup in Hfac as [i Hi].
      destruct (Forall2_lookup_r _ _ _ _ _ Hall Hi)
        as (fac0 & Hi0 & Hn & d & Hd & Hdata & Hlabels & Hdims).
      exists d. split; [done|].
      destruct (Hshaped _ _ Hd) as (Hnodup & Hlen & Hones & Hnonneg).
      split; [done|]. split; [done|]. split; [|split; [|done]].
      * intros x. rewrite Hv, Hn. apply Hlabels.
      * intros k x Hk.
        destruct (lookup_lt_is_Some_2 (shape (probs d)) k) as [m Hm'].
        { apply lookup_lt_Some in Hk. lia. }
        rewrite Hm'. f_equal. unfold card_of.
        by rewrite (Hdims k x m Hk Hm').
  - rewrite Hm. simpl. apply cache_ok_empty.
Qed.

Lemma dict_get_cons {V} (d : list (string * V)) k' v k :
  dict_get ((k', v) :: d) k = if String.eqb k' k then Some v else dict_get d k.
Proof. done. Qed.

Lemma forest_dists_well_shaped :
  ∀ k d, dict_get forest_dists k = Some d → well_shaped d.
Proof.
  intros k d H. unfold forest_dists in H. rewrite !dict_get_cons in H.
  destruct (String.eqb "p(a)" k); [|destruct (String.eqb "p(b|a)" k);
    [|destruct (String.eqb "p(c)" k); [|done]]].
  all: injection H as <-; unfold well_shaped, nonneg; simpl.
  all: split; [distinct_list|].
  all: split; [lia|]; split; [by constructor|]; repeat constructor; done.
Qed.

Lemma sessions_are_bound_graphs_witness :
  ∃ card, bound_graph (graph forest_world) card
          ∧ session_ok (graph forest_world) card forest_world.
Proof.
  exact (sessions_are_bound_graphs "p(a)p(b|a)p(c)" forest_dists forest_world
           eq_refl forest_dists_well_shaped).
Defined.

(** ** One sweep is enough *)

Lemma get_node_returns n w node w' :
  get_node n w = (Ok node, w') → w' = w ∧ node_of (graph w) n node.
Proof.
  destruct n as [f|v]; unfold get_node, node_of.
  - unfold bind, get_factor, ret.
    destruct (_factors (graph w) !! f) as [fac|]; simpl; [|done].
    intros [= <- <-]. split; [done|]. by exists fac.
  - unfold get_variable.
    destruct (_variables (graph w) !! v) as [var|]; simpl; [|done].
    by intros [= <- <-].
Qed.

Lemma get_node_at n w node :
  node_of (graph w) n node → get_node n w = (Ok node, w).
Proof.
  destruct n as [f|v]; unfold get_node, node_of.
  - intros (fac & Hf & ->). unfold bind, get_factor, ret. by rewrite Hf.
  - intros Hv. unfold get_variable, VariableNode in *. by rewrite Hv.
Qed.

Lemma sweep_grew_trans fuel x y z :
  sweep_grew fuel x y → sweep_grew fuel y z → sweep_grew fuel x z.
Proof. intros [H1 _] [H2 Hz]. split; [by eapply cache_grew_trans|done]. Qed.

Lemma sweep_grew_refl_r fuel x y : sweep_grew fuel x y → sweep_grew fuel y y.
Proof. intros [_ Hy]. split; [apply cache_grew_refl|done]. Qed.

(** The message of one edge of a sweep, when the call returns. *)
Lemma sweep_call_returns fuel n nb node nbnode w m w' :
  node_of (graph w) n node → node_of (graph w) (neighbor_ref n nb) nbnode →
  match n with
  | VariableRef v => variable_to_factor_messages fuel v nb
  | FactorRef f => factor_to_variable_message fuel f nb
  end w = (Ok m, w') →
  cache_grew w w' ∧ fuel ≠ 0%nat
  ∧ messages w' !! (name node, name nbnode) = Some m.
Proof.
  intros Hn Hnb Hrun. destruct n as [f|v]; simpl in *.
  - split; [exact (stable_grew _ _ _ _ (proj2 (stable_messages fuel) f nb) Hrun)|].
    apply factor_to_variable_message_returns in Hrun
      as (k & fac & var & -> & Hf & Hv & Hm).
    destruct Hn as (fac' & Hf' & ->). unfold VariableNode in *.
    split; [done|]. congruence.
  - split; [exact (stable_grew _ _ _ _ (proj1 (stable_messages fuel) v nb) Hrun)|].
    apply variable_to_factor_messages_returns in Hrun
      as (k & var & fac & -> & Hv & Hf & Hm).
    destruct Hnb as (fac' & Hf' & ->). unfold VariableNode in *.
    split; [done|]. congruence.
Qed.

Lemma sweep_returns fuel nodes w w' :
  sweep fuel nodes w = (Ok tt, w') →
  cache_grew w w' ∧ Forall (node_done fuel (graph w) (messages w')) nodes.
Proof.
  unfold sweep. intros Hrun.
  apply bind_returns in Hrun as (s' & w1 & Hrun & Hret).
  injection Hret as <-.
  apply (for_fold_returns (sweep_grew fuel)
           (fun n x => node_done fuel (graph w) (messages x.2) n))
    in Hrun as [[Hgrew _] Hdone].
  - done.
  - apply sweep_grew_trans.
  - apply sweep_grew_refl_r.
  - intros n x y (node & Hn & Hnbs) [[_ Hsub] _]. exists node. split; [done|].
    intros nb Hnb. destruct (Hnbs nb Hnb) as (nbnode & Hnbn & Hin & Hfuel).
    exists nbnode. split; [done|]. split; [|done].
    destruct Hin as [m Hm]. exists m. by eapply lookup_weaken.
  - split; [apply cache_grew_refl|]. intros k Hk. by apply elem_of_empty in Hk.
  - intros n s1 w2 s2 w3 _ HR Hstep.
    apply bind_returns in Hstep as (node & w2' & Hnode & Hstep).
    apply get_node_returns in Hnode as [-> Hnode].
    assert (graph w2 = graph w) as Hg2 by exact (proj1 (proj1 HR)).
    rewrite Hg2 in Hnode.
    apply (for_fold_returns (sweep_grew fuel)
             (fun nb x => ∃ nbnode, node_of (graph w) (neighbor_ref n nb) nbnode
                          ∧ is_Some (messages x.2 !! (name node, name nbnode))
                          ∧ fuel ≠ 0%nat))
      in Hstep as [HR' Hedges].
    + split; [done|]. exists node. split; [done|].
      intros nb Hnb. by apply (proj1 (Forall_forall _ _) Hedges).
    + apply sweep_grew_trans.
    + apply sweep_grew_refl_r.
    + intros nb x y (nbnode & Hnbn & [m Hm] & Hfuel) [[_ Hsub] _].
      exists nbnode. split; [done|]. split; [|done].
      exists m. by eapply lookup_weaken.
    + by eapply sweep_grew_refl_r.
    + intros nb s3 w4 s4 w5 _ HR3 Hedge. unfold sweep_edge in Hedge.
      apply bind_returns in Hedge as (nbnode & w4' & Hnb & Hedge).
      apply get_node_returns in Hnb as [-> Hnb].
      assert (graph w4 = graph w) as Hg4.
      { etrans; [exact (proj1 (proj1 HR3))|exact Hg2]. }
      destruct HR3 as [_ Hinv]. simpl in Hinv.
      case_bool_decide as Hin.
      * injection Hedge as <- <-. split.
        -- split; [apply cache_grew_refl|done].
        -- exists nbnode. rewrite <- Hg4. split; [done|]. by apply Hinv.
      * apply bind_returns in Hedge as (m & w5' & Hcall & Hedge).
        injection Hedge as <- <-.
        apply (sweep_call_returns fuel n nb node nbnode) in Hcall
          as (Hgrew & Hfuel & Hm); [|by rewrite Hg4|done].
        split.
        -- split; [done|]. simpl. intros k Hk.
           apply elem_of_union in Hk as [Hk|Hk].
           ++ apply elem_of_singleton in Hk as ->. by split; [exists m|].
           ++ destruct (Hinv k Hk) as [[m' Hm'] _]. split; [|done].
              exists m'. eapply lookup_weaken; [exact Hm'|exact (proj2 Hgrew)].
        -- exists nbnode. rewrite <- Hg4. split; [done|].
           split; [by exists m|done].
Qed.

Lemma sweep_cached fuel nodes w :
  Forall (node_done fuel (graph w) (messages w)) nodes →
  sweep fuel nodes w = (Ok tt, w).
Proof.
  intros Hdone. unfold sweep.
  match goal with |- bind (for_fold ?F _ _) _ _ = _ =>
    destruct (for_fold_unchanged F nodes w) with (s := (∅ : gset (string * string)))
      as [s' Hs']
  end.
  - intros n s Hn. cbv beta.
    destruct (proj1 (Forall_forall _ _) Hdone n Hn) as (node & Hnode & Hnbs).
    rewrite (bind_ok _ _ _ _ _ (get_node_at n w node Hnode)).
    apply for_fold_unchanged. intros nb s0 Hnb.
    destruct (Hnbs nb Hnb) as (nbnode & Hnbn & [m Hm] & Hfuel).
    unfold sweep_edge.
    rewrite (bind_ok _ _ _ _ _ (get_node_at _ w nbnode Hnbn)).
    case_bool_decide; [by eexists|].
    destruct fuel as [|k]; [done|].
    destruct n as [f|v]; simpl in Hnode, Hnbn.
    + destruct Hnode as (fac & Hf & ->).
      rewrite (bind_ok _ _ _ _ _
                 (cached_factor_to_variable_message k f nb fac nbnode m w Hf Hnbn Hm)).
      by eexists.
    + destruct Hnbn as (fac & Hf & ->).
      rewrite (bind_ok _ _ _ _ _
                 (cached_variable_to_factor_messages k v nb node fac m w Hnode Hf Hm)).
      by eexists.
  - by rewrite (bind_ok _ _ _ _ _ Hs').
Qed.

(** X19. Once [forward] has returned, the cache holds the message of every
    ordered pair of neighbours, so a [backward] pass - or a second [forward]
    pass - on the same session returns and changes nothing: no message is
    computed, the cache and the graph stay as they are.  This holds on every
    graph on which [forward] returns, a tree or not. *)
Theorem backward_after_forward_changes_nothing (fuel : nat) (w w' : World) :
  forward fuel w = (Ok tt, w') →
  backward fuel w' = (Ok tt, w') ∧ forward fuel w' = (Ok tt, w').
Proof.
  unfold forward, backward. intros Hrun.
  apply sweep_returns in Hrun as [[Hg _] Hdone]. rewrite Hg.
  split; apply sweep_cached; rewrite Hg; [|done].
  by apply Forall_reverse.
Qed.

Lemma backward_after_forward_changes_nothing_witness :
  backward 5 (forward 5 forest_world).2 = (Ok tt, (forward 5 forest_world).2)
  ∧ forward 5 (forward 5 forest_world).2 = (Ok tt, (forward 5 forest_world).2).
Proof.
  apply (backward_after_forward_changes_nothing 5 forest_world).
  vm_compute. reflexivity.
Defined.

(** ** An answer once given *)

Lemma same_nodes_factor g g' f (fac : Factor) :
  same_nodes g g' → _factors g !! f = Some fac →
  ∃ fac' : Factor, _factors g' !! f = Some fac' ∧ f_node fac' = f_node fac.
Proof.
  intros [_ Hf] Hfac.
  assert ((f_node <$> _factors g') !! f = Some (f_node fac)) as H.
  { rewrite Hf, list_lookup_fmap, Hfac. done. }
  rewrite list_lookup_fmap in H.
  destruct (_factors g' !! f) as [fac'|]; [|done].
  exists fac'. split; [done|]. by injection H.
Qed.

(** What a returned [marginal] leaves behind: the incoming messages it
    multiplied are in the cache. *)
Lemma unnorm_p_returns fuel v w u w' :
  unnorm_p fuel v w = (Ok u, w') →
  ∃ (var : VariableNode) msgs,
    _variables (graph w) !! v = Some var
    ∧ cache_grew w w'
    ∧ cached_incoming w' var msgs
    ∧ np_prod msgs = Ok u
    ∧ (neighbors var = [] ∨ fuel ≠ 0%nat).
Proof.
  unfold unnorm_p. intros Hrun.
  apply bind_returns in Hrun as (var & w1 & Hv & Hrun).
  unfold get_variable in Hv.
  destruct (_variables (graph w) !! v) as [var'|] eqn:Hvar; [|done].
  injection Hv as -> <-.
  apply bind_returns in Hrun as (msgs & w1 & Hmsgs & Hrun).
  unfold lift in Hrun. injection Hrun as Hu <-.
  apply (for_each_returns
           (fun f' m w2 =>
              ∃ fac' : Factor, _factors (graph w) !! f' = Some fac'
                ∧ messages w2 !! (name fac', name var) = Some m
                ∧ fuel ≠ 0%nat))
    in Hmsgs as [Hgrew Hall].
  - exists var, msgs. split; [done|]. split; [done|]. split; [|split; [done|]].
    + eapply Forall2_impl; [exact Hall|].
      intros f' m (fac' & Hf' & Hm & _). exists fac'.
      by rewrite (proj1 Hgrew).
    + destruct Hall as [|f' m fs ms (fac' & _ & _ & Hfuel) _]; auto.
  - intros f' m w2 w3 (fac' & Hf' & Hm & Hfuel) [_ Hsub].
    exists fac'. split; [done|]. split; [|done]. by eapply lookup_weaken.
  - intros f'. apply stable_messages.
  - intros f' m w2 w3 _ [Hg2 _] Hcall.
    apply factor_to_variable_message_returns in Hcall
      as (n & fac' & var' & -> & Hf' & Hv' & Hm).
    rewrite Hg2 in Hf', Hv'. unfold VariableNode in *.
    assert (var' = var) as -> by congruence.
    exists fac'. split; [done|]. split; [done|]. lia.
Qed.

(** On a world that has the messages, [marginal] reads them and changes
    nothing. *)
Lemma unnorm_p_reads fuel v (var : VariableNode) w msgs :
  _variables (graph w) !! v = Some var → cached_incoming w var msgs →
  neighbors var = [] ∨ fuel ≠ 0%nat →
  unnorm_p fuel v w = (np_prod msgs, w).
Proof.
  intros Hv Hc [Hnil|Hfuel].
  - unfold unnorm_p.
    assert (get_variable v w = (Ok var, w)) as Hgv
      by (unfold get_variable, VariableNode in *; by rewrite Hv).
    rewrite (bind_ok _ _ _ _ _ Hgv). unfold cached_incoming in Hc.
    rewrite Hnil in *. inversion Hc. done.
  - destruct fuel as [|n]; [done|]. by eapply unnorm_p_cached.
Qed.

Lemma marginal_persists fuel v w p w1 w2 :
  marginal fuel v w = (Ok p, w1) →
  same_nodes (graph w1) (graph w2) → messages w1 ⊆ messages w2 →
  marginal fuel v w2 = (Ok p, w2).
Proof.
  unfold marginal. intros Hrun Hsame Hsub.
  apply bind_returns in Hrun as (u & w1' & Hu & Hret).
  injection Hret as <- <-.
  apply unnorm_p_returns in Hu as (var & msgs & Hv & Hgrew & Hc & Hprod & Hfuel).
  assert (unnorm_p fuel v w2 = (Ok u, w2)) as Hu2.
  { rewrite <- Hprod. apply (unnorm_p_reads fuel v var w2 msgs); [| |done].
    - rewrite (proj1 Hsame), (proj1 Hgrew). done.
    - eapply Forall2_impl; [exact Hc|].
      intros f' m (fac' & Hf' & Hm).
      destruct (same_nodes_factor _ _ _ _ Hsame Hf') as (fac2 & Hf2 & Hn).
      exists fac2. split; [done|]. rewrite Hn. by eapply lookup_weaken. }
  by rewrite (bind_ok _ _ _ _ _ Hu2).
Qed.

Lemma same_nodes_refl g : same_nodes g g.
Proof. by split. Qed.

Lemma world_after_grew fuel op w : cache_grew w (world_after fuel op w).
Proof.
  destruct op; simpl.
  - apply stable_messages.
  - apply stable_messages.
  - apply stable_marginal.
  - apply stable_forward.
  - apply stable_backward.
  - apply stable_belief_propagation.
Qed.

(** X20. An answer of [marginal] is final for the session, on any graph:
    once [marginal(v)] has returned a vector, it returns that same vector,
    and writes nothing, after any further calls of the six operations on the
    same [Messages] object - whatever their arguments and stack depths, and
    whether they returned or raised. *)
Theorem marginal_answer_is_final (fuel v : nat) (w w1 : World)
    (p : ndarray float64) (calls : list (nat * operation)) :
  marginal fuel v w = (Ok p, w1) →
  let w2 := foldl (fun w c => world_after c.1 c.2 w) w1 calls in
  marginal fuel v w2 = (Ok p, w2).
Proof.
  intros Hrun w2. apply (marginal_persists fuel v w p w1 w2 Hrun).
  - assert (graph w2 = graph w1) as ->; [|apply same_nodes_refl].
    subst w2. clear Hrun. revert w1.
    induction calls as [|c calls IH]; intros w1; [done|].
    simpl. etrans; [|exact (proj1 (world_after_grew c.1 c.2 w1))].
    apply (IH (world_after c.1 c.2 w1)).
  - subst w2. clear Hrun. revert w1. induction calls as [|c calls IH]; intros w1; [done|].
    simpl. etrans; [exact (proj2 (world_after_grew c.1 c.2 w1))|]. apply IH.
Qed.

Lemma marginal_answer_is_final_witness :
  let w2 := foldl (fun w c => world_after c.1 c.2 w) (marginal 3 1 forest_world).2
              [(0%nat, Call_forward); (5%nat, Call_marginal 2)] in
  marginal 3 1 w2 = (Ok forest_marginal_of_b, w2).
Proof.
  apply (marginal_answer_is_final 3 1 forest_world (marginal 3 1 forest_world).2).
  vm_compute. reflexivity.
Defined.

(** X21. Rebinding does not reach the cache: after [marginal(v)] has
    returned a vector, a call of [set_distributions] with any tables -
    accepted or rejected - leaves the session answering [marginal(v)] with
    that same vector, computed from the old tensors, and nothing is
    recomputed. *)
Theorem marginal_survives_rebinding (fuel v : nat) (w w1 : World)
    (p : ndarray float64) (dists : list (string * Distribution)) :
  marginal fuel v w = (Ok p, w1) →
  let w2 := (set_distributions dists w1).2 in
  marginal fuel v w2 = (Ok p, w2).
Proof.
  intros Hrun w2. apply (marginal_persists fuel v w p w1 w2 Hrun).
  - eapply rebound_same_nodes. apply set_distributions_rebound.
  - subst w2. by rewrite (proj1 (set_distributions_rebound dists w1)).
Qed.

Lemma marginal_survives_rebinding_witness :
  let w2 := (set_distributions
               [("p(a)", mk_Distribution (mk_ndarray [2]%nat [1#2; 1#2]%Q) ["a"])]
               (marginal 3 1 forest_world).2).2 in
  marginal 3 1 w2 = (Ok forest_marginal_of_b, w2).
Proof.
  apply (marginal_survives_rebinding 3 1 forest_world (marginal 3 1 forest_world).2).
  vm_compute. reflexivity.
Defined.

(** ** The base cases of the recursion *)

Lemma dict_set_fresh {V} (d : list (string * V)) k v :
  k ∉ d.*1 → dict_set d k v = d ++ [(k, v)].
Proof.
  induction d as [|[k' v'] d IH]; simpl; [done|].
  rewrite not_elem_of_cons. intros [Hne Hk].
  destruct (String.eqb_spec k' k) as [->|_]; [done|]. by rewrite IH.
Qed.

(** X22. The base case of the recursion on the variable side: a variable
    with no factor other than [f] among its neighbours (a leaf of the graph,
    or a node listing [f] alone several times) sends [f] the scalar 1.0 -
    [np.prod] of an empty list, a 0-dimensional array whatever the number of
    states of the variable -, stores it under (variable name, factor name)
    and calls no other message function, so one stack frame is enough. *)
Theorem leaf_variable_sends_one (n v f : nat) (var : VariableNode)
    (fac : Factor) (w : World) :
  _variables (graph w) !! v = Some var → _factors (graph w) !! f = Some fac →
  Forall (fun f' => ∃ fac' : Factor,
            _factors (graph w) !! f' = Some fac' ∧ name fac' = name fac)
         (neighbors var) →
  messages w !! (name var, name fac) = None →
  variable_to_factor_messages (S n) v f w
  = (Ok scalar_one, with_message w (name var, name fac) scalar_one).
Proof.
  intros Hv Hf Hleaf Hnew. simpl.
  assert (get_variable v w = (Ok var, w)) as Hgv
    by (unfold get_variable, VariableNode in *; by rewrite Hv).
  assert (get_factor f w = (Ok fac, w)) as Hgf
    by (unfold get_factor; by rewrite Hf).
  rewrite (bind_ok _ _ _ _ _ Hgv), (bind_ok _ _ _ _ _ Hgf).
  assert (_variable_to_factor_messages (factor_to_variable_message n) v f w
          = (Ok scalar_one, w)) as Hcompute.
  { unfold _variable_to_factor_messages.
    rewrite (bind_ok _ _ _ _ _ Hgv), (bind_ok _ _ _ _ _ Hgf).
    match goal with |- bind (for_each ?F _) _ _ = _ =>
      assert (for_each F (neighbors var) w
              = (Ok (map (fun _ => []) (neighbors var)), w)) as Hloop
    end.
    { induction Hleaf as [|f' fs (fac' & Hf' & Hn) _ IH]; [reflexivity|].
      simpl. unfold bind at 1. unfold bind at 1. unfold get_factor at 1.
      rewrite Hf'. simpl. rewrite Hn, String.eqb_refl. simpl.
      unfold bind at 1. rewrite IH. reflexivity. }
    rewrite (bind_ok _ _ _ _ _ Hloop). unfold lift.
    assert (concat (map (fun _ : nat => @nil (ndarray Q)) (neighbors var)) = [])
      as -> by (clear; induction (neighbors var); simpl; auto).
    done. }
  unfold memoised, bind at 1, message_in. rewrite Hnew.
  rewrite bool_decide_eq_false_2 by (by intros [? ?]).
  unfold bind at 1. unfold bind at 1. rewrite Hcompute. simpl.
  unfold bind, read_message. simpl. by rewrite lookup_insert_eq.
Qed.

Lemma leaf_variable_sends_one_witness :
  variable_to_factor_messages 1 1 1 forest_world
  = (Ok scalar_one, with_message forest_world ("b", "p(b|a)") scalar_one).
Proof.
  apply (leaf_variable_sends_one 0 1 1 (mk_Node "b" [1]%nat)
           (mk_Factor (mk_Node "p(b|a)" [1; 0]%nat)
              (Some (mk_Distribution
                       (mk_ndarray [2; 2]%nat [9#10; 2#10; 1#10; 8#10]%Q)
                       ["b"; "a"])))
           forest_world).
  - reflexivity.
  - reflexivity.
  - repeat constructor. eexists. split; reflexivity.
  - reflexivity.
Defined.

Lemma get_other_axes_same (labels : list string) (f : nat → nat) x :
  Forall (fun y => y = x) labels →
  omap (fun '(axis, name) => if String.eqb name x then None else Some axis)
       (imap (fun axis name => (f axis, name)) labels) = [].
Proof.
  intros H. revert f. induction H as [|y l -> _ IH]; intros f; [done|].
  simpl. rewrite String.eqb_refl. apply (IH (f ∘ S)).
Qed.

(** X23. The base case on the factor side: a factor whose neighbours are
    all the variable [v], bound to a tensor whose labels all name [v] (a
    prior such as p(h1)), sends [v] its own table with the dimensions of
    size 1 squeezed out - a column of shape (2, 1) is sent as a vector of
    shape (2,) - stores it under (factor name, variable name) and calls no
    other message function. *)
Theorem prior_factor_sends_its_table (n f v : nat) (fac : Factor)
    (var : VariableNode) (d : Distribution) (w : World) :
  _factors (graph w) !! f = Some fac → _variables (graph w) !! v = Some var →
  f_data fac = Some d →
  Forall (fun u => ∃ var' : VariableNode,
            _variables (graph w) !! u = Some var' ∧ name var' = name var)
         (neighbors fac) →
  Forall (fun x => x = name var) (axes_labels d) →
  messages w !! (name fac, name var) = None →
  factor_to_variable_message (S n) f v w
  = (Ok (np_squeeze (probs d)),
     with_message w (name fac, name var) (np_squeeze (probs d))).
Proof.
  intros Hf Hv Hd Hleaf Hlabels Hnew. simpl.
  assert (get_variable v w = (Ok var, w)) as Hgv
    by (unfold get_variable, VariableNode in *; by rewrite Hv).
  assert (get_factor f w = (Ok fac, w)) as Hgf
    by (unfold get_factor; by rewrite Hf).
  rewrite (bind_ok _ _ _ _ _ Hgf), (bind_ok _ _ _ _ _ Hgv).
  assert (_factor_to_variable_messages (variable_to_factor_messages n) f v w
          = (Ok (np_squeeze (probs d)), w)) as Hcompute.
  { unfold _factor_to_variable_messages.
    rewrite (bind_ok _ _ _ _ _ Hgf), (bind_ok _ _ _ _ _ Hgv).
    unfold bind at 1, lift at 1. rewrite Hd. simpl.
    match goal with |- bind (for_fold ?F _ ?D) _ _ = _ =>
      assert (for_fold F (neighbors fac) D w = (Ok D, w)) as Hloop
    end.
    { generalize (mk_Distribution (probs d) (axes_labels d)). intros d0.
      induction Hleaf as [|u us (var' & Hu & Hn) _ IH]; [reflexivity|].
      simpl. unfold bind at 1. unfold bind at 1. unfold get_variable at 1.
      unfold VariableNode in *. rewrite Hu. simpl.
      rewrite Hn, String.eqb_refl. simpl. exact IH. }
    rewrite (bind_ok _ _ _ _ _ Hloop).
    assert (get_other_axes_from d (name var) = []) as ->
      by exact (get_other_axes_same (axes_labels d) id (name var) Hlabels).
    reflexivity. }
  unfold memoised, bind at 1, message_in. rewrite Hnew.
  rewrite bool_decide_eq_false_2 by (by intros [? ?]).
  unfold bind at 1. unfold bind at 1. rewrite Hcompute. simpl.
  unfold bind, read_message. simpl. by rewrite lookup_insert_eq.
Qed.

Lemma prior_factor_sends_its_table_witness :
  factor_to_variable_message 1 0 0 forest_world
  = (Ok (np_squeeze (mk_ndarray [2]%nat [3#10; 7#10]%Q)),
     with_message forest_world ("p(a)", "a")
       (np_squeeze (mk_ndarray [2]%nat [3#10; 7#10]%Q))).
Proof.
  apply (prior_factor_sends_its_table 0 0 0
           (mk_Factor (mk_Node "p(a)" [0]%nat)
              (Some (mk_Distribution (mk_ndarray [2]%nat [3#10; 7#10]%Q) ["a"])))
           (mk_Node "a" [0; 1]%nat)
           (mk_Distribution (mk_ndarray [2]%nat [3#10; 7#10]%Q) ["a"])
           forest_world).
  - reflexivity.
  - reflexivity.
  - reflexivity.
  - repeat constructor. eexists. split; reflexivity.
  - repeat constructor.
  - reflexivity.
Defined.

(** ** The two update rules *)

Lemma for_each_cons {A B} (f : A → M B) a l :
  for_each f (a :: l)
  = (let* b := f a in let* bs := for_each f l in ret (b :: bs)).
Proof. done. Qed.

Lemma for_fold_cons {A S} (f : S → A → M S) a l s :
  for_fold f (a :: l) s = (let* s' := f s a in for_fold f l s').
Proof. done. Qed.

(** X24. The update rule on the variable side.  When the messages to the
    variable from its other factors are in the cache (and the message asked
    for is not), [variable_to_factor_messages] computes nothing below it: it
    returns [np.prod] of those cached messages, taken in the order of the
    neighbour list, and stores it under (variable name, factor name); if
    [np.prod] raises - messages of different shapes - the exception
    propagates and nothing is stored.  A neighbour called like the
    receiving factor is left out, as the comparison is by name. *)
Theorem variable_update_rule (n v f : nat) (var : VariableNode)
    (fac : Factor) (msgs : list (ndarray Q)) (w : World) :
  _variables (graph w) !! v = Some var → _factors (graph w) !! f = Some fac →
  other_messages w var fac (neighbors var) msgs →
  messages w !! (name var, name fac) = None →
  variable_to_factor_messages (S (S n)) v f w
  = match np_prod msgs with
    | Ok m => (Ok m, with_message w (name var, name fac) m)
    | Raise e => (Raise e, w)
    end.
Proof.
  intros Hv Hf Hin Hnew.
  assert (get_variable v w = (Ok var, w)) as Hgv
    by (unfold get_variable, VariableNode in *; by rewrite Hv).
  assert (get_factor f w = (Ok fac, w)) as Hgf
    by (unfold get_factor; by rewrite Hf).
  assert (_variable_to_factor_messages (factor_to_variable_message (S n)) v f w
          = (np_prod msgs, w)) as Hcompute.
  { unfold _variable_to_factor_messages.
    rewrite (bind_ok _ _ _ _ _ Hgv), (bind_ok _ _ _ _ _ Hgf).
    match goal with |- bind (for_each ?F _) _ _ = _ =>
      assert (∃ ls, for_each F (neighbors var) w = (Ok ls, w)
                    ∧ concat ls = msgs) as (ls & Hloop & Hls)
    end.
    { induction Hin as [|f' fs fac' ms Hf' Hn _ IH|f' fs fac' m ms Hf' Hn Hm _ IH].
      - by exists [].
      - destruct IH as (ls & Hloop & Hls). exists ([] :: ls). split; [|done].
        assert (get_factor f' w = (Ok fac', w)) as Hgf'
          by (unfold get_factor; by rewrite Hf').
        match goal with |- for_each ?F _ _ = _ =>
          assert (F f' w = (Ok [], w)) as Hstep
        end.
        { cbv beta. rewrite (bind_ok _ _ _ _ _ Hgf'), Hn, String.eqb_refl.
          reflexivity. }
        rewrite for_each_cons, (bind_ok _ _ _ _ _ Hstep),
          (bind_ok _ _ _ _ _ Hloop).
        reflexivity.
      - destruct IH as (ls & Hloop & Hls). exists ([m] :: ls).
        split; [|by rewrite <- Hls].
        assert (get_factor f' w = (Ok fac', w)) as Hgf'
          by (unfold get_factor; by rewrite Hf').
        match goal with |- for_each ?F _ _ = _ =>
          assert (F f' w = (Ok [m], w)) as Hstep
        end.
        { cbv beta. rewrite (bind_ok _ _ _ _ _ Hgf').
          destruct (String.eqb_spec (name fac') (name fac)) as [?|_]; [done|].
          cbn [negb].
          rewrite (bind_ok _ _ _ _ _
                     (cached_factor_to_variable_message n f' v fac' var m w
                        Hf' Hv Hm)).
          reflexivity. }
        rewrite for_each_cons, (bind_ok _ _ _ _ _ Hstep),
          (bind_ok _ _ _ _ _ Hloop).
        reflexivity. }
    rewrite (bind_ok _ _ _ _ _ Hloop), Hls. reflexivity. }
  change (variable_to_factor_messages (S (S n)) v f w)
    with ((let* v0 := get_variable v in
           let* f0 := get_factor f in
           memoised (name v0, name f0)
             (_variable_to_factor_messages
                (factor_to_variable_message (S n)) v f)) w).
  rewrite (bind_ok _ _ _ _ _ Hgv), (bind_ok _ _ _ _ _ Hgf).
  unfold memoised, bind at 1, message_in. rewrite Hnew.
  rewrite bool_decide_eq_false_2 by (by intros [? ?]).
  unfold bind at 1. unfold bind at 1. rewrite Hcompute.
  destruct (np_prod msgs) as [m|e]; [|done]. simpl.
  unfold bind, read_message. simpl. by rewrite lookup_insert_eq.
Qed.

Lemma variable_update_rule_witness :
  variable_to_factor_messages 2 0 1 forest_world_a
  = match np_prod [mk_ndarray [2]%nat [3#10; 7#10]%Q] with
    | Ok m => (Ok m, with_message forest_world_a ("a", "p(b|a)") m)
    | Raise e => (Raise e, forest_world_a)
    end.
Proof.
  apply (variable_update_rule 0 0 1 (mk_Node "a" [0; 1]%nat)
           (mk_Factor (mk_Node "p(b|a)" [1; 0]%nat)
              (Some (mk_Distribution
                       (mk_ndarray [2; 2]%nat [9#10; 2#10; 1#10; 8#10]%Q)
                       ["b"; "a"])))
           [mk_ndarray [2]%nat [3#10; 7#10]%Q] forest_world_a).
  - reflexivity.
  - reflexivity.
  - eapply other_messages_take; [reflexivity|done|reflexivity|].
    eapply other_messages_skip; [reflexivity|reflexivity|constructor].
  - reflexivity.
Defined.

Lemma get_axes_labels (t t' : ndarray Q) (labels : list string) :
  get_axes (mk_Distribution t labels) = get_axes (mk_Distribution t' labels).
Proof. done. Qed.

(** One step of the loop of [_factor_to_variable_messages], in closed
    form. *)
Lemma multiply_is_scaled (t m : ndarray Q) (labels : list string) (x : string)
    (i n : nat) :
  dict_get (get_axes (mk_Distribution t labels)) x = Some i →
  shape t !! i = Some n →
  shape m = [] ∨ np_size (shape m) = n →
  multiply (mk_Distribution t labels) (mk_Distribution m [x])
  = Ok (mk_Distribution (scaled t i m) labels).
Proof.
  intros Hi Hn Hm.
  rewrite (multiply_located (mk_Distribution t labels) (mk_Distribution m [x])
             x [] i n eq_refl Hi Hn).
  simpl probs. simpl axes_labels.
  destruct (decide (shape m = [])) as [Hs|Hs].
  - rewrite bool_decide_eq_false_2 by (by intros H; apply H).
    unfold np_multiply. rewrite Hs, broadcast_shapes_scalar. simpl.
    unfold scaled, weight. do 3 f_equal.
    apply map_ext_in. intros k Hk. apply in_seq in Hk.
    rewrite bool_decide_eq_true_2 by done.
    rewrite bcast_index_full by lia. done.
  - rewrite bool_decide_eq_true_2 by done.
    destruct Hm as [Hm|Hm]; [done|]. rewrite Hm, Nat.eqb_refl.
    unfold np_multiply. simpl shape. simpl data.
    rewrite (broadcast_shapes_ones _ _ (dims_compatible _ _ _ Hn)). simpl.
    unfold scaled, weight. do 3 f_equal.
    apply map_ext_in. intros k Hk. apply in_seq in Hk.
    rewrite bool_decide_eq_false_2 by done.
    rewrite bcast_index_full by lia.
    by rewrite (bcast_index_axis _ _ _ _ Hn) by lia.
Qed.

Lemma shape_weighted t ws : shape (weighted t ws) = shape t.
Proof.
  unfold weighted. revert t. induction ws as [|[i m] ws IH]; intros t; [done|].
  simpl. by rewrite IH.
Qed.

(** X25. The update rule on the factor side - the sum-product rule.  When
    the messages to the factor from its other variables are in the cache
    (and the message asked for is not), and each fits the axis of the table
    it is sent along, [factor_to_variable_message] computes nothing below
    it: it multiplies every entry of the table by the weight of each of
    those messages - the message's entry at the coordinate of its axis, or
    its only entry if it is a scalar -, sums over the axes labelled with
    other names than the receiving variable's, squeezes, returns the result
    and stores it under (factor name, variable name); if [np.sum] raises,
    the exception propagates and nothing is stored. *)
Theorem factor_update_rule (n f v : nat) (fac : Factor)
    (var : VariableNode) (d : Distribution) (ws : list (nat * ndarray Q))
    (w : World) :
  _factors (graph w) !! f = Some fac → _variables (graph w) !! v = Some var →
  f_data fac = Some d →
  weights_of w fac var d (neighbors fac) ws →
  messages w !! (name fac, name var) = None →
  factor_to_variable_message (S (S n)) f v w
  = match np_sum (weighted (probs d) ws) (get_other_axes_from d (name var)) with
    | Ok summed =>
        (Ok (np_squeeze summed),
         with_message w (name fac, name var) (np_squeeze summed))
    | Raise e => (Raise e, w)
    end.
Proof.
  intros Hf Hv Hd Hws Hnew.
  assert (get_variable v w = (Ok var, w)) as Hgv
    by (unfold get_variable, VariableNode in *; by rewrite Hv).
  assert (get_factor f w = (Ok fac, w)) as Hgf
    by (unfold get_factor; by rewrite Hf).
  assert (_factor_to_variable_messages (variable_to_factor_messages (S n)) f v w
          = (rbind (np_sum (weighted (probs d) ws)
                      (get_other_axes_from d (name var)))
                   (fun summed => Ok (np_squeeze summed)), w)) as Hcompute.
  { unfold _factor_to_variable_messages.
    rewrite (bind_ok _ _ _ _ _ Hgf), (bind_ok _ _ _ _ _ Hgv).
    unfold bind at 1, lift at 1. rewrite Hd. unfold of_option. cbv iota beta.
    match goal with |- bind (for_fold ?F _ _) _ _ = _ =>
      assert (∀ t, shape t = shape (probs d) →
                for_fold F (neighbors fac) (mk_Distribution t (axes_labels d)) w
                = (Ok (mk_Distribution (weighted t ws) (axes_labels d)), w))
        as Hloop
    end.
    { clear Hnew. induction Hws
        as [|u us var' ws Hu Hn _ IH|u us var' i k m ws Hu Hn Hm Hi Hk Hfit _ IH];
        intros t Ht.
      - reflexivity.
      - assert (get_variable u w = (Ok var', w)) as Hgu
          by (unfold get_variable, VariableNode in *; by rewrite Hu).
        rewrite for_fold_cons.
        match goal with |- bind ?c _ _ = _ =>
          assert (c w = (Ok (mk_Distribution t (axes_labels d)), w)) as Hstep
        end.
        { rewrite (bind_ok _ _ _ _ _ Hgu), Hn, String.eqb_refl. reflexivity. }
        rewrite (bind_ok _ _ _ _ _ Hstep). by apply IH.
      - assert (get_variable u w = (Ok var', w)) as Hgu
          by (unfold get_variable, VariableNode in *; by rewrite Hu).
        rewrite for_fold_cons.
        match goal with |- bind ?c _ _ = _ =>
          assert (c w = (Ok (mk_Distribution (scaled t i m) (axes_labels d)), w))
            as Hstep
        end.
        { rewrite (bind_ok _ _ _ _ _ Hgu).
          destruct (String.eqb_spec (name var') (name var)) as [?|_]; [done|].
          rewrite (bind_ok _ _ _ _ _
                     (cached_variable_to_factor_messages n u f var' fac m w
                        Hu Hf Hm)).
          unfold lift.
          rewrite (multiply_is_scaled t m (axes_labels d) (name var') i k);
            [done| |by rewrite Ht|done].
          destruct d as [td ld]. exact Hi. }
        rewrite (bind_ok _ _ _ _ _ Hstep). by apply IH. }
    rewrite (bind_ok _ _ _ _ _ (Hloop (probs d) eq_refl)). simpl probs.
    unfold bind, lift, ret.
    by destruct (np_sum (weighted (probs d) ws) _). }
  change (factor_to_variable_message (S (S n)) f v w)
    with ((let* f0 := get_factor f in
           let* v0 := get_variable v in
           memoised (name f0, name v0)
             (_factor_to_variable_messages
                (variable_to_factor_messages (S n)) f v)) w).
  rewrite (bind_ok _ _ _ _ _ Hgf), (bind_ok _ _ _ _ _ Hgv).
  unfold memoised, bind at 1, message_in. rewrite Hnew.
  rewrite bool_decide_eq_false_2 by (by intros [? ?]).
  unfold bind at 1. unfold bind at 1. rewrite Hcompute.
  destruct (np_sum _ _) as [summed|e]; [|done]. simpl.
  unfold bind, read_message. simpl. by rewrite lookup_insert_eq.
Qed.

Lemma factor_update_rule_witness :
  factor_to_variable_message 2 1 1 forest_world_ab
  = match np_sum
            (weighted (mk_ndarray [2; 2]%nat [9#10; 2#10; 1#10; 8#10]%Q)
               [(1%nat, mk_ndarray [2]%nat [3#10; 7#10]%Q)])
            (get_other_axes_from
               (mk_Distribution
                  (mk_ndarray [2; 2]%nat [9#10; 2#10; 1#10; 8#10]%Q) ["b"; "a"])
               "b") with
    | Ok summed =>
        (Ok (np_squeeze summed),
         with_message forest_world_ab ("p(b|a)", "b") (np_squeeze summed))
    | Raise e => (Raise e, forest_world_ab)
    end.
Proof.
  apply (factor_update_rule 0 1 1
           (mk_Factor (mk_Node "p(b|a)" [1; 0]%nat)
              (Some (mk_Distribution
                       (mk_ndarray [2; 2]%nat [9#10; 2#10; 1#10; 8#10]%Q)
                       ["b"; "a"])))
           (mk_Node "b" [1]%nat)
           (mk_Distribution
              (mk_ndarray [2; 2]%nat [9#10; 2#10; 1#10; 8#10]%Q) ["b"; "a"])
           [(1%nat, mk_ndarray [2]%nat [3#10; 7#10]%Q)] forest_world_ab).
  - reflexivity.
  - reflexivity.
  - reflexivity.
  - eapply weights_of_skip; [reflexivity|reflexivity|].
    eapply (weights_of_take _ _ _ _ 0 [] (mk_Node "a" [0; 1]%nat) 1 2);
      [reflexivity|done|reflexivity|reflexivity|reflexivity|by right|constructor].
  - reflexivity.
Defined.

(** The value of that witness: the message of p(b|a) to b is
    (0.9*0.3 + 0.2*0.7, 0.1*0.3 + 0.8*0.7) = (0.41, 0.59). *)
Example factor_update_rule_value :
  (factor_to_variable_message 2 1 1 forest_world_ab).1
  = Ok (mk_ndarray [2]%nat
          [ (9 # 10) * (3 # 10) + ((2 # 10) * (7 # 10) + 0);
            (1 # 10) * (3 # 10) + ((8 # 10) * (7 # 10) + 0) ]%Q).
Proof. reflexivity. Qed.

(** ** Messages on a tree *)

(** X26. On a bound tree, with a stack at least as deep as the tree, both
    message functions return on every edge, from any state of the session:
    the message of a factor to a variable is a vector over the variable's
    states (its shape is that of [np.squeeze] of a vector of that length),
    the message of a variable to a factor is such a vector or the scalar
    1.0, and on return the message is in the cache under (sender name,
    receiver name). *)
Theorem messages_return_on_trees (g : PGM) (card : string → nat)
    (depth fuel : nat) (w : World) :
  bound_graph g card → tree_shaped g depth → (depth ≤ fuel)%nat →
  session_ok g card w →
  (∀ v f (var : VariableNode) (fac : Factor),
     _variables g !! v = Some var → _factors g !! f = Some fac →
     f ∈ neighbors var →
     ∃ m w', variable_to_factor_messages fuel v f w = (Ok m, w')
             ∧ (shape m = message_shape (card (name var)) ∨ shape m = [])
             ∧ messages w' !! (name var, name fac) = Some m)
  ∧ (∀ f v (fac : Factor) (var : VariableNode),
     _factors g !! f = Some fac → _variables g !! v = Some var →
     v ∈ neighbors fac →
     ∃ m w', factor_to_variable_message fuel f v w = (Ok m, w')
             ∧ shape m = message_shape (card (name var))
             ∧ messages w' !! (name fac, name var) = Some m).
Proof.
  intros Hbg (rv & rf & Hrank & Hrv & Hrf) Hfuel Hok.
  destruct (messages_ok g card rv rf Hbg Hrank fuel) as [Hvf Hfv].
  split.
  - intros v f var fac Hv Hf Hadj.
    destruct (Hvf v f var fac w Hok Hv Hf Hadj) as (m & w' & Hrun & Hext & Hm).
    { specialize (Hrv v f). lia. }
    exists m, w'. split; [done|].
    destruct (proj2 (proj1 Hext) _ _ _ Hm) as (Hnn & _ & Hshape).
    split; [|done].
    apply Hshape; [by eapply variable_is_name | by eapply factor_is_name].
  - intros f v fac var Hf Hv Hadj.
    destruct (Hfv f v fac var w Hok Hf Hv Hadj) as (m & w' & Hrun & Hext & Hm).
    { specialize (Hrf f v). lia. }
    exists m, w'. split; [done|].
    destruct (proj2 (proj1 Hext) _ _ _ Hm) as (Hnn & Hshape & _).
    split; [|done].
    apply Hshape; [by eapply factor_is_name | by eapply variable_is_name].
Qed.

Lemma messages_return_on_trees_witness :
  (∀ v f (var : VariableNode) (fac : Factor),
     _variables forest_graph !! v = Some var →
     _factors forest_graph !! f = Some fac →
     f ∈ neighbors var →
     ∃ m w', variable_to_factor_messages 3 v f forest_world = (Ok m, w')
             ∧ (shape m = message_shape (forest_card (name var)) ∨ shape m = [])
             ∧ messages w' !! (name var, name fac) = Some m)
  ∧ (∀ f v (fac : Factor) (var : VariableNode),
     _factors forest_graph !! f = Some fac →
     _variables forest_graph !! v = Some var →
     v ∈ neighbors fac →
     ∃ m w', factor_to_variable_message 3 f v forest_world = (Ok m, w')
             ∧ shape m = message_shape (forest_card (name var))
             ∧ messages w' !! (name fac, name var) = Some m).
Proof.
  exact (messages_return_on_trees forest_graph forest_card 3 3 forest_world
           forest_bound forest_tree (le_n 3) forest_session).
Defined.

(** ** The dict returned by [belief_propagation] *)

Lemma dict_get_fresh {V} (d : list (string * V)) k : k ∉ d.*1 → dict_get d k = None.
Proof.
  induction d as [|[k' v'] d IH]; simpl; [done|].
  rewrite not_elem_of_cons. intros [Hne Hk].
  destruct (String.eqb_spec k' k) as [->|_]; [done|]. by apply IH.
Qed.

Lemma dict_get_app {V} (d d' : list (string * V)) k :
  dict_get (d ++ d') k =
  match dict_get d k with Some v => Some v | None => dict_get d' k end.
Proof.
  induction d as [|[k' v'] d IH]; simpl; [done|].
  by destruct (String.eqb k' k).
Qed.

(** The loop of [belief_propagation], when it returns: one marginal per
    index, stored under the variable's name in the order of the loop. *)
Lemma marginals_loop_returns fuel (l : list nat) acc w marginals w' :
  for_fold (fun marginals variable =>
              let* v := get_variable variable in
              let* m := marginal fuel variable in
              ret (dict_set marginals (name v) m)) l acc w
  = (Ok marginals, w') →
  ∃ (vars : list VariableNode) (ps : list (ndarray float64)),
    Forall2 (fun v var => _variables (graph w) !! v = Some var) l vars
    ∧ Forall2 (fun v p => marginal fuel v w' = (Ok p, w')) l ps
    ∧ cache_grew w w'
    ∧ marginals = foldl (fun d vp => dict_set d (name vp.1) vp.2) acc
                        (zip vars ps).
Proof.
  revert acc w. induction l as [|v l IH]; intros acc w Hrun.
  - injection Hrun as <- <-. exists [], [].
    split; [constructor|]. split; [constructor|]. split; [apply cache_grew_refl|done].
  - simpl in Hrun. apply bind_returns in Hrun as (acc1 & w1 & Hstep & Hrun).
    apply bind_returns in Hstep as (var & w0 & Hv & Hstep).
    unfold get_variable in Hv.
    destruct (_variables (graph w) !! v) as [var'|] eqn:Hvar; [|done].
    injection Hv as -> <-.
    apply bind_returns in Hstep as (p & w1' & Hp & Hret).
    injection Hret as <- <-.
    pose proof (stable_grew _ _ _ _ (stable_marginal fuel v) Hp) as Hgrew1.
    apply IH in Hrun as (vars & ps & Hvars & Hps & Hgrew & ->).
    exists (var :: vars), (p :: ps). split; [|split; [|split]].
    + constructor; [done|]. eapply Forall2_impl; [exact Hvars|].
      intros u var' Hu. by rewrite <- (proj1 Hgrew1).
    + constructor; [|done].
      apply (marginal_persists fuel v w p w1' w' Hp).
      * rewrite (proj1 Hgrew). apply same_nodes_refl.
      * exact (proj2 Hgrew).
    + by eapply cache_grew_trans.
    + done.
Qed.

Lemma dict_of_distinct {V} (vars : list VariableNode) (vs : list V)
    (acc : list (string * V)) :
  length vs = length vars → NoDup (acc.*1 ++ (name <$> vars)) →
  foldl (fun d vp => dict_set d (name vp.1) vp.2) acc (zip vars vs)
  = acc ++ zip (name <$> vars) vs.
Proof.
  revert vs acc. induction vars as [|x vars IH]; intros vs acc Hlen Hnd.
  - simpl. by rewrite app_nil_r.
  - destruct vs as [|v vs]; [done|]. simpl.
    rewrite dict_set_fresh.
    + rewrite IH.
      * by rewrite <- app_assoc.
      * simpl in Hlen. lia.
      * rewrite fmap_app. simpl. by rewrite <- app_assoc.
    + apply NoDup_app in Hnd as (_ & Hdisj & _). intros Hx.
      apply (Hdisj (name x) Hx). by left.
Qed.

Lemma dict_get_zip {V} (names : list string) (vs : list V) i x v :
  NoDup names → names !! i = Some x → vs !! i = Some v →
  dict_get (zip names vs) x = Some v.
Proof.
  revert vs i. induction names as [|y names IH]; intros vs i Hnd Hx Hv; [done|].
  destruct vs as [|v' vs]; [done|]. apply NoDup_cons in Hnd as [Hy Hnd].
  destruct i as [|i]; simpl in *.
  - injection Hx as ->. injection Hv as ->. by rewrite String.eqb_refl.
  - destruct (String.eqb_spec y x) as [->|_].
    + exfalso. apply Hy. by eapply list_elem_of_lookup_2.
    + by eapply IH.
Qed.

Lemma lookup_all (A : Type) (l vars : list A) :
  Forall2 (fun v var => l !! v = Some var) (seq 0 (length l)) vars → vars = l.
Proof.
  intros Hall. apply list_eq_same_length with (length l).
  - done.
  - apply Forall2_length in Hall. by rewrite length_seq in Hall.
  - intros i x y Hi Hx Hy.
    destruct (Forall2_lookup_r _ _ _ _ _ Hall Hx) as (v & Hv & Hl).
    apply lookup_seq in Hv as [-> _]. simpl in Hl. congruence.
Qed.

(** X27. When [belief_propagation] returns on a graph whose variables have
    distinct names (every graph built by the parser), the dict it returns
    has one entry per variable, keyed by the variable's name, in the order
    of the variables dict; and the value under a name is the vector that
    [marginal] of that variable returns on the session as the call leaves
    it. *)
Theorem belief_propagation_reports_every_variable (fuel : nat) (w w' : World)
    (marginals : list (string * ndarray float64)) :
  NoDup (name <$> _variables (graph w)) →
  belief_propagation fuel w = (Ok marginals, w') →
  marginals.*1 = name <$> _variables (graph w)
  ∧ ∀ v (var : VariableNode), _variables (graph w) !! v = Some var →
      ∃ p, dict_get marginals (name var) = Some p
           ∧ marginal fuel v w' = (Ok p, w').
Proof.
  intros Hnd Hrun. unfold belief_propagation in Hrun.
  apply bind_returns in Hrun as ([] & w1 & Hfwd & Hrun).
  apply bind_returns in Hrun as ([] & w2 & Hbwd & Hrun).
  assert (graph w2 = graph w) as Hg.
  { rewrite (proj1 (stable_grew _ _ _ _ (stable_backward fuel) Hbwd)).
    exact (proj1 (stable_grew _ _ _ _ (stable_forward fuel) Hfwd)). }
  apply marginals_loop_returns in Hrun as (vars & ps & Hvars & Hps & _ & ->).
  apply lookup_all in Hvars as ->. rewrite Hg in *.
  assert (length ps = length (_variables (graph w))) as Hlen.
  { apply Forall2_length in Hps. by rewrite length_seq in Hps. }
  rewrite dict_of_distinct by done. simpl. split.
  - apply fst_zip. rewrite length_fmap. unfold VariableNode in *. lia.
  - intros v var Hv.
    assert (seq 0 (length (_variables (graph w))) !! v = Some v) as Hseq.
    { apply lookup_seq. split; [done|]. by eapply lookup_lt_Some. }
    destruct (Forall2_lookup_l _ _ _ _ _ Hps Hseq) as (p & Hp & Hmarg).
    exists p. split; [|done].
    apply (dict_get_zip _ _ v); [done| |done].
    rewrite list_lookup_fmap. unfold VariableNode in *. by rewrite Hv.
Qed.

Lemma belief_propagation_reports_every_variable_witness :
  forest_marginals.*1 = name <$> _variables (graph forest_world)
  ∧ ∀ v (var : VariableNode), _variables (graph forest_world) !! v = Some var →
      ∃ p, dict_get forest_marginals (name var) = Some p
           ∧ marginal 3 v (belief_propagation 3 forest_world).2
             = (Ok p, (belief_propagation 3 forest_world).2).
Proof.
  apply (belief_propagation_reports_every_variable 3 forest_world).
  - exact (bg_variable_names _ _ forest_bound).
  - vm_compute. reflexivity.
Defined.

(** ** Stores are first writes *)

(** X28. On a tree whose nodes all have different names, computing a
    message does not write that message's own key: if the key is absent
    when [_variable_to_factor_messages] or [_factor_to_variable_messages]
    starts, it is still absent when the computation is over, returned or
    raised - so the assignment [self.messages[message_name] = ...] that
    follows in the memoising wrapper creates the entry and never overwrites
    one. *)
Theorem stores_are_first_writes (g : PGM) (depth n : nat) (w : World) :
  tree_shaped g depth →
  (∀ v f (var : VariableNode) (fac : Factor),
     _variables g !! v = Some var → _factors g !! f = Some fac →
     (f ∈ neighbors var ↔ v ∈ neighbors fac)) →
  distinct_names g → graph w = g →
  (∀ v f (var : VariableNode) (fac : Factor),
     _variables g !! v = Some var → _factors g !! f = Some fac →
     f ∈ neighbors var →
     messages w !! (name var, name fac) = None →
     messages (_variable_to_factor_messages
                 (factor_to_variable_message n) v f w).2
       !! (name var, name fac) = None)
  ∧ (∀ f v (fac : Factor) (var : VariableNode),
     _factors g !! f = Some fac → _variables g !! v = Some var →
     v ∈ neighbors fac →
     messages w !! (name fac, name var) = None →
     messages (_factor_to_variable_messages
                 (variable_to_factor_messages n) f v w).2
       !! (name fac, name var) = None).
Proof.
  intros (rv & rf & Hrank & _) Hsym Hnames Hg. split.
  - intros v f var fac Hv Hf Hadj Hnew.
    by apply (variable_to_factor_first_write g rv rf Hrank Hsym Hnames
                n v f var fac w).
  - intros f v fac var Hf Hv Hadj Hnew.
    by apply (factor_to_variable_first_write g rv rf Hrank Hsym Hnames
                n f v fac var w).
Qed.

Lemma stores_are_first_writes_witness :
  (∀ v f (var : VariableNode) (fac : Factor),
     _variables forest_graph !! v = Some var →
     _factors forest_graph !! f = Some fac →
     f ∈ neighbors var →
     messages forest_world !! (name var, name fac) = None →
     messages (_variable_to_factor_messages
                 (factor_to_variable_message 3) v f forest_world).2
       !! (name var, name fac) = None)
  ∧ (∀ f v (fac : Factor) (var : VariableNode),
     _factors forest_graph !! f = Some fac →
     _variables forest_graph !! v = Some var →
     v ∈ neighbors fac →
     messages forest_world !! (name fac, name var) = None →
     messages (_factor_to_variable_messages
                 (variable_to_factor_messages 3) f v forest_world).2
       !! (name fac, name var) = None).
Proof.
  exact (stores_are_first_writes forest_graph 3 3 forest_world forest_tree
           (bg_symmetric _ _ forest_bound) forest_distinct_names eq_refl).
Defined.

(** ** The product rule *)

Lemma sum_ext {A} (f g : A → Q) (l : list A) :
  (∀ x, x ∈ l → (f x == g x)%Q) →
  (foldr Qplus 0 (map f l) == foldr Qplus 0 (map g l))%Q.
Proof.
  induction l as [|a l IH]; intros H; simpl; [reflexivity|].
  rewrite (H a) by (by left). rewrite IH; [reflexivity|].
  intros x Hx. apply H. by right.
Qed.

Lemma sum_app (l1 l2 : list Q) :
  (foldr Qplus 0 (l1 ++ l2) == foldr Qplus 0 l1 + foldr Qplus 0 l2)%Q.
Proof.
  induction l1 as [|x l1 IH]; simpl; [by rewrite Qplus_0_l|].
  rewrite IH. apply Qplus_assoc.
Qed.

Lemma sum_plus {A} (f g : A → Q) (l : list A) :
  (foldr Qplus 0 (map (fun x => f x + g x) l)
   == foldr Qplus 0 (map f l) + foldr Qplus 0 (map g l))%Q.
Proof.
  induction l as [|a l IH]; simpl; [by rewrite Qplus_0_l|].
  rewrite IH. ring.
Qed.

Lemma sum_scale {A} (f : A → Q) (c : Q) (l : list A) :
  (foldr Qplus 0 (map (fun x => f x * c) l) == foldr Qplus 0 (map f l) * c)%Q.
Proof.
  induction l as [|a l IH]; simpl; [ring|]. rewrite IH. ring.
Qed.

Lemma sum_zero {A} (l : list A) :
  (foldr Qplus 0 (map (fun _ => 0) l) == 0)%Q.
Proof. induction l as [|a l IH]; simpl; [reflexivity|]. rewrite IH. ring. Qed.

Lemma sum_exchange {A B} (F : A → B → Q) (l1 : list A) (l2 : list B) :
  (foldr Qplus 0 (map (fun i => foldr Qplus 0 (map (fun j => F i j) l2)) l1)
   == foldr Qplus 0 (map (fun j => foldr Qplus 0 (map (fun i => F i j) l1)) l2))%Q.
Proof.
  induction l1 as [|a l1 IH]; simpl.
  - by rewrite sum_zero.
  - rewrite IH. by rewrite <- sum_plus.
Qed.

Lemma Qeq_refl_eq (x y : Q) : x = y → (x == y)%Q.
Proof. intros ->. reflexivity. Qed.

(** The entries of an m x n table, summed in row-major order, are the sum
    over the rows of the sums along each row. *)
Lemma sum_rows (G : nat → Q) (m n : nat) :
  (foldr Qplus 0 (map G (seq 0 (m * n)))
   == foldr Qplus 0
        (map (fun i => foldr Qplus 0 (map (fun j => G (i * n + j)%nat) (seq 0 n)))
             (seq 0 m)))%Q.
Proof.
  induction m as [|m IH]; [reflexivity|].
  replace (S m * n)%nat with (m * n + n)%nat by lia.
  rewrite seq_app, map_app, sum_app, IH.
  rewrite seq_S, map_app, sum_app.
  apply Qplus_comp; [reflexivity|].
  change (foldr Qplus 0 (map G (seq (0 + m * n) n))
          == foldr Qplus 0 (map (fun j => G (m * n + j)%nat) (seq 0 n)) + 0)%Q.
  rewrite Qplus_0_r.
  apply Qeq_refl_eq. f_equal.
  rewrite <- (map_map (Nat.add (m * n)) G). f_equal.
  rewrite Nat.add_comm. symmetry. exact (fmap_add_seq (m * n) 0 n).
Qed.

Lemma isclose_one_exact (x : Q) : (x == 1)%Q → isclose_one x = true.
Proof.
  intros Hx. unfold isclose_one. apply Qle_bool_iff.
  rewrite Hx. vm_compute. discriminate.
Qed.

(** X29. The product rule, as the notebook checks it with
    [p_v1_h1.is_valid_joint()]: for a two-axis table p(v|h) whose columns
    each sum to exactly 1 ([np.sum(..., axis=0)] is all ones) and a prior
    p(h) over the second axis that sums to exactly 1, [multiply] returns a
    table whose entries sum to 1, which [is_valid_joint] accepts.  The
    sums are exact: the entries are rationals. *)
Theorem conditional_times_prior_is_a_joint (v h : string) (m n : nat)
    (da db : list Q) :
  v ≠ h → length db = n →
  (∃ s, sum_axis 0 (mk_ndarray [m; n] da) = Ok s
        ∧ Forall (fun x => x == 1)%Q (data s)) →
  (np_sum_all (mk_ndarray [n] db) == 1)%Q →
  ∃ r, multiply (mk_Distribution (mk_ndarray [m; n] da) [v; h])
                (mk_Distribution (mk_ndarray [n] db) [h]) = Ok r
       ∧ (np_sum_all (probs r) == 1)%Q
       ∧ is_valid_joint r = true.
Proof.
  intros Hvh Hlen (s & Hs & Hcols) Hprior.
  assert (dict_get (get_axes (mk_Distribution (mk_ndarray [m; n] da) [v; h])) h
          = Some 1%nat) as Haxis.
  { unfold get_axes. simpl.
    destruct (String.eqb_spec v h) as [?|_]; [done|]. simpl.
    destruct (String.eqb_spec v h) as [?|_]; [done|].
    by rewrite String.eqb_refl. }
  eexists. split.
  - apply (multiply_is_scaled (mk_ndarray [m; n] da) (mk_ndarray [n] db)
             [v; h] h 1 n Haxis eq_refl).
    right. unfold np_size. simpl. lia.
  - assert (np_sum_all (scaled (mk_ndarray [m; n] da) 1 (mk_ndarray [n] db)) == 1)%Q
      as Htotal; [|split; [exact Htotal|by apply isclose_one_exact]].
    unfold np_sum_all, scaled. cbn [shape data].
    replace (np_size [m; n]) with (m * n)%nat by (unfold np_size; simpl; lia).
    rewrite sum_rows.
    (* the weight at position i * n + j is the entry j of the prior *)
    rewrite (sum_ext _
               (fun i => foldr Qplus 0
                           (map (fun j => nth (i * n + j) da 0 * nth j db 0)
                                (seq 0 n)))%Q).
    2:{ intros i _. apply sum_ext. intros j Hj. apply elem_of_seq in Hj.
        unfold weight. simpl.
        replace ((i * n + j) mod n)%nat with j; [reflexivity|].
        rewrite Nat.add_comm, Nat.Div0.mod_add. symmetry. apply Nat.mod_small. lia. }
    rewrite sum_exchange.
    rewrite (sum_ext _ (fun j => 1 * nth j db 0)%Q).
    2:{ intros j Hj. rewrite sum_scale. apply Qmult_comp; [|reflexivity].
        unfold sum_axis in Hs. simpl in Hs. injection Hs as <-.
        simpl in Hcols. rewrite app_nil_r in Hcols.
        unfold np_size in Hcols. simpl in Hcols.
        apply list_elem_of_lookup in Hj as [k Hk].
        assert (j = k) as -> by (apply lookup_seq in Hk; lia).
        rewrite Nat.mul_1_r in Hcols.
        pose proof (proj1 (Forall_lookup _ _) Hcols k) as Hcol.
        rewrite list_lookup_fmap, Hk in Hcol. specialize (Hcol _ eq_refl).
        rewrite <- Hcol. apply sum_ext. intros i _.
        replace (i * n + k)%nat with ((0 + i) * n + k)%nat by lia. reflexivity. }
    rewrite (sum_ext _ (fun j => nth j db 0)%Q) by (intros; ring).
    rewrite <- Hlen, nth_all. exact Hprior.
Qed.

Lemma conditional_times_prior_is_a_joint_witness :
  ∃ r, multiply p_v1_given_h1_demo p_h1_demo = Ok r
       ∧ (np_sum_all (probs r) == 1)%Q
       ∧ is_valid_joint r = true.
Proof.
  apply (conditional_times_prior_is_a_joint "v1" "h1" 2 3
           [4#10; 8#10; 9#10; 6#10; 2#10; 1#10]%Q [6#10; 3#10; 1#10]%Q).
  - done.
  - reflexivity.
  - eexists. split; [reflexivity|]. simpl. by repeat constructor.
  - reflexivity.
Defined.

